(** * Frame stores, binary codec and in-place transforms

    A shallow embedding of [src/lib/video_functions.c],
    [src/lib/video_functions_wasm.c] and the streaming decode and
    encode loops of [src/lib/video_codec.c].

    Conventions.
    - C integers are [Z]; [size_t] arithmetic is reduced with [wrap64],
      narrowing to [unsigned char] with [wrap8].  The target is LP64
      (the code uses AVX2 intrinsics): [long], [size_t] and pointers are
      8 bytes, little endian.
    - A buffer is a [list Z] of bytes indexed from 0.  Every access goes
      through [load] / [store], which fail outside the buffer: an access
      the C program would perform out of bounds makes the whole call
      [Undefined].
    - A function that prints a diagnostic and gives up ([return],
      [return NULL], [return -1]) is [Reported msg].  The bulk-export
      functions print nothing; they yield the returned [int] and the
      memory.
    - The allocator, the files and the multimedia library are the
      environment: they are arguments of the functions that call them.
    - The [_M] functions have the bodies of the flat ones, on a struct
      with the same fields; the flat definitions stand for both. *)

From stdpp Require Import base option list list_numbers strings.
From Stdlib Require Import ZArith Lia SpecFloat.

Local Open Scope Z_scope.

(** ** Results of a call *)

Inductive outcome (A : Type) : Type :=
  | Ok (a : A)
  | Reported (msg : string)
  | Undefined.
Arguments Ok {A} a.
Arguments Reported {A} msg.
Arguments Undefined {A}.

(** Memory accesses return [option]; [None] is an access outside the
    object, which [run] turns into [Undefined]. *)
Definition run {A} (x : option A) : outcome A :=
  match x with
  | Some a => Ok a
  | None => Undefined
  end.

(** A counted [for] loop whose body may fail. *)
Fixpoint foldM {S A} (body : S → A → option S) (s : S) (l : list A) : option S :=
  match l with
  | [] => Some s
  | x :: l => s' ← body s x; foldM body s' l
  end.

(** A [for] loop with a stride: [for (; cond i; i += step) body].  It
    returns the state and the [i] it stops at; [fuel] bounds the number
    of iterations. *)
Fixpoint for_step {S} (fuel : nat) (cond : Z → bool) (step : Z)
    (body : S → Z → option S) (s : S) (i : Z) : option (S * Z) :=
  if cond i then
    match fuel with
    | O => None
    | S fuel => s ← body s i; for_step fuel cond step body s (i + step)
    end
  else Some (s, i).

(** ** Machine integers *)

Definition wrap64 (z : Z) : Z := z mod 2 ^ 64.
Definition wrap8 (z : Z) : Z := z mod 256.

(** [n] little-endian bytes of [z], and back. *)
Fixpoint le_bytes (n : nat) (z : Z) : list Z :=
  match n with
  | O => []
  | S n => z mod 256 :: le_bytes n (z / 256)
  end.

Fixpoint le_value (bs : list Z) : Z :=
  match bs with
  | [] => 0
  | b :: bs => b + 256 * le_value bs
  end.

(** Reading 8 bytes as a signed [long]. *)
Definition to_long (u : Z) : Z := if u <? 2 ^ 63 then u else u - 2 ^ 64.

(** ** Byte buffers *)

Definition load (d : list Z) (i : Z) : option Z :=
  if bool_decide (0 ≤ i) then d !! Z.to_nat i else None.

Definition store (d : list Z) (i v : Z) : option (list Z) :=
  if bool_decide (0 ≤ i < Z.of_nat (length d))
  then Some (<[Z.to_nat i := v]> d) else None.

(** [d[k] = g (d[k])] *)
Definition modify (g : Z → Z) (d : list Z) (k : Z) : option (list Z) :=
  x ← load d k; store d k (g x).

(** [memcpy] out of and into a buffer. *)
Definition load_range (d : list Z) (off len : Z) : option (list Z) :=
  if bool_decide (0 ≤ off ∧ 0 ≤ len ∧ off + len ≤ Z.of_nat (length d))
  then Some (take (Z.to_nat len) (drop (Z.to_nat off) d)) else None.

Definition store_range (d : list Z) (off : Z) (src : list Z) : option (list Z) :=
  if bool_decide (0 ≤ off ∧ off + Z.of_nat (length src) ≤ Z.of_nat (length d))
  then Some (list_inserts (Z.to_nat off) src d) else None.

(** The three [memcpy] calls that exchange two records of [sz] bytes
    through a temporary. *)
Definition swap_ranges (sz : Z) (d : list Z) (p1 p2 : Z) : option (list Z) :=
  temp ← load_range d p1 sz;
  src ← load_range d p2 sz;
  d ← store_range d p1 src;
  store_range d p2 temp.

(** ** The allocator and files *)

(** A heap block: its address and its content. *)
Record block := {
  base : Z;
  bytes : list Z
}.

(** The environment decides whether an allocation succeeds, where the
    block lies and what fresh memory contains. *)
Record allocator := {
  alloc_base : Z → option Z;          (* size ↦ address *)
  realloc_base : Z → Z → option Z;    (* old address, new size ↦ address *)
  junk : Z → Z                        (* address ↦ byte found there *)
}.

(** [malloc]: a block of [size] bytes inside the 64-bit address space,
    neither at address 0 nor reaching the last address, or [None] for
    [NULL]. *)
Definition malloc (al : allocator) (size : Z) : option block :=
  b ← alloc_base al size;
  if bool_decide (0 < b ∧ b + size < 2 ^ 64)
  then Some {| base := b; bytes := (λ i, junk al (b + i)) <$> seqZ 0 size |}
  else None.

(** [realloc]: [None] for [NULL], the old block then stays as it is;
    otherwise the old content up to the new size, followed by fresh
    memory, at the address the environment chose. *)
Definition realloc (al : allocator) (m : block) (size : Z) : option block :=
  b ← realloc_base al (base m) size;
  if bool_decide (0 < b ∧ b + size < 2 ^ 64)
  then
    let kept := take (Z.to_nat size) (bytes m) in
    Some {| base := b;
            bytes := kept ++ ((λ i, junk al (b + i)) <$>
                                seqZ (Z.of_nat (length kept))
                                     (size - Z.of_nat (length kept))) |}
  else None.

(** [fread] of [n] bytes: the bytes and the rest of the file, [None] on a
    short read. *)
Definition fread (file : list Z) (n : Z) : option (list Z * list Z) :=
  if bool_decide (n ≤ Z.of_nat (length file))
  then Some (take (Z.to_nat n) file, drop (Z.to_nat n) file) else None.

(** ** The header and the flat store *)

Record Header := {
  num_frames : Z;   (* long *)
  channels : Z;     (* unsigned char *)
  height : Z;       (* unsigned char *)
  width : Z         (* unsigned char *)
}.

(** [Video]: the header and the pointer to the pixel data ([None] is
    [NULL], otherwise the content of the buffer it owns). *)
Record Video := {
  hdr : Header;
  data : option (list Z)
}.

Definition with_data (v : Video) (d : list Z) : Video :=
  {| hdr := hdr v; data := Some d |}.

(** [#define CLAMP(value, min, max)] *)
Definition CLAMP (value min max : Z) : Z :=
  if value <? min then min else if value >? max then max else value.

(** The four [fread] calls of the header, in order. *)
Definition read_header (file : list Z) : option (Header * list Z) :=
  '(nf, file) ← fread file 8;
  '(c, file) ← fread file 1;
  '(h, file) ← fread file 1;
  '(w, file) ← fread file 1;
  Some ({| num_frames := to_long (le_value nf); channels := le_value c;
           height := le_value h; width := le_value w |}, file).

(** The four [fwrite] calls of the header. *)
Definition write_header (h : Header) : list Z :=
  le_bytes 8 (num_frames h) ++ le_bytes 1 (channels h)
  ++ le_bytes 1 (height h) ++ le_bytes 1 (width h).

(** [decode]: [file] is the content of the file, [None] when it cannot
    be opened.  [sizeof(Video)] is 24. *)
Definition decode (al : allocator) (file : option (list Z)) : outcome Video :=
  match file with
  | None => Reported "Error opening file"
  | Some file =>
    match malloc al 24 with
    | None => Reported "Error allocating memory for Video"
    | Some _ =>
      match read_header file with
      | None => Reported "Error reading video header"
      | Some (h, file) =>
        let frame_size := channels h * height h * width h in
        let total_size := wrap64 (frame_size * num_frames h) in
        match malloc al total_size with
        | None => Reported "Error allocating memory for frame data"
        | Some buf =>
          match fread file total_size with
          | None => Reported "Error reading frame data"
          | Some (payload, _) =>
            run (d ← store_range (bytes buf) 0 payload;
                 Some {| hdr := h; data := Some d |})
          end
        end
      end
    end
  end.

(** [encode]: the bytes written to the file.  [writable] says whether
    [fopen] succeeds; writes to an open file are taken to succeed. *)
Definition encode (writable : bool) (video : option Video) : outcome (list Z) :=
  match video with
  | None => Reported "Invalid input to encode function."
  | Some v =>
    if negb writable then Reported "Error opening file for writing"
    else
      let frame_size := channels (hdr v) * height (hdr v) * width (hdr v) in
      let total_size := wrap64 (frame_size * num_frames (hdr v)) in
      run (d ← data v;
           payload ← load_range d 0 total_size;
           Some (write_header (hdr v) ++ payload))
  end.

(** [reverse], -O mode. *)
Definition reverse (al : allocator) (video : option Video) : outcome Video :=
  match video with
  | None => Reported "Invalid input to reverse function."
  | Some v =>
    match data v with
    | None => Reported "Invalid input to reverse function."
    | Some d =>
      let frame_size := channels (hdr v) * height (hdr v) * width (hdr v) in
      match malloc al frame_size with
      | None => Reported "Error allocating memory for reverse function"
      | Some _ =>
        run (d' ← foldM (λ d i,
                    let frame1 := wrap64 (i * frame_size) in
                    let frame2 := wrap64 ((num_frames (hdr v) - 1 - i) * frame_size) in
                    swap_ranges frame_size d frame1 frame2)
                  d (seqZ 0 (num_frames (hdr v) `quot` 2));
             Some (with_data v d'))
      end
    end
  end.

(** [swap_channels], -O mode. *)
Definition swap_channels (video : option Video) (channel1 channel2 : Z)
  : outcome Video :=
  match video with
  | None => Reported "Invalid input to swap_channels function."
  | Some v =>
    match data v with
    | None => Reported "Invalid input to swap_channels function."
    | Some d =>
      if bool_decide (channels (hdr v) ≤ channel1 ∨ channels (hdr v) ≤ channel2)
      then Reported "Channel indices out of bounds."
      else
        let frame_size := channels (hdr v) * height (hdr v) * width (hdr v) in
        let channel_size := height (hdr v) * width (hdr v) in
        run (d' ← foldM (λ d frame_idx,
                    let offset1 := wrap64 (frame_idx * frame_size + channel1 * channel_size) in
                    let offset2 := wrap64 (frame_idx * frame_size + channel2 * channel_size) in
                    foldM (λ d i,
                        temp ← load d (offset1 + i);
                        x ← load d (offset2 + i);
                        d ← store d (offset1 + i) x;
                        store d (offset2 + i) temp)
                      d (seqZ 0 channel_size))
                  d (seqZ 0 (num_frames (hdr v)));
             Some (with_data v d'))
    end
  end.

(** [clip_channel], -O mode. *)
Definition clip_channel (video : option Video) (channel min_val max_val : Z)
  : outcome Video :=
  match video with
  | None => Reported "Invalid input to clip_channel function."
  | Some v =>
    match data v with
    | None => Reported "Invalid input to clip_channel function."
    | Some d =>
      if bool_decide (channels (hdr v) ≤ channel)
      then Reported "Channel index out of bounds."
      else
        let frame_size := channels (hdr v) * height (hdr v) * width (hdr v) in
        let channel_size := height (hdr v) * width (hdr v) in
        run (d' ← foldM (λ d frame_idx,
                    let channel_offset :=
                      wrap64 (frame_idx * frame_size + channel * channel_size) in
                    foldM (λ d i,
                        modify (λ x, CLAMP x min_val max_val) d (channel_offset + i))
                      d (seqZ 0 channel_size))
                  d (seqZ 0 (num_frames (hdr v)));
             Some (with_data v d'))
    end
  end.

(** ** Single-precision floats

    [float] is IEEE 754 binary32 (24-bit significand, [emax = 128]),
    with the operations of [SpecFloat] at that format. *)

Definition f32_of_int (z : Z) : spec_float := binary_normalize 24 128 z 0 false.
Definition f32_mul (x y : spec_float) : spec_float := SFmul 24 128 x y.

(** The integral part of a float, toward zero; [None] for NaN and
    infinities. *)
Definition f32_trunc (x : spec_float) : option Z :=
  match x with
  | S754_zero _ => Some 0
  | S754_finite s m e =>
    let mag := if 0 <=? e then Z.pos m * 2 ^ e else Z.pos m / 2 ^ (- e) in
    Some (if s then - mag else mag)
  | _ => None
  end.

(** Conversion of a float to [unsigned char].  ISO C leaves it undefined
    when the integral part is not in [0, 255]; the usual lowering
    (truncate to a 32-bit integer, keep the low byte) is the other
    choice. *)
Inductive narrowing := IsoC | LowByte.

Definition float_to_uchar (nw : narrowing) (x : spec_float) : option Z :=
  t ← f32_trunc x;
  if bool_decide (0 ≤ t < 256) then Some t
  else match nw with
       | IsoC => None
       | LowByte => if bool_decide (- 2 ^ 31 ≤ t < 2 ^ 31) then Some (wrap8 t) else None
       end.

(** [CLAMP] at type [float]. *)
Definition CLAMPf (value min max : spec_float) : spec_float :=
  if SFltb value min then min else if SFltb max value then max else value.

(** [float scaled_value = x * scale_factor;
     (unsigned char)CLAMP(scaled_value, 0.0f, 255.0f)] *)
Definition scale_sample (nw : narrowing) (scale_factor : spec_float) (x : Z)
  : option Z :=
  let scaled_value := f32_mul (f32_of_int x) scale_factor in
  float_to_uchar nw (CLAMPf scaled_value (f32_of_int 0) (f32_of_int 255)).

(** [d[k] = g (d[k])] where computing [g] may be undefined. *)
Definition update (g : Z → option Z) (d : list Z) (k : Z) : option (list Z) :=
  x ← load d k; y ← g x; store d k y.

(** [scale_channel], -O mode. *)
Definition scale_channel (nw : narrowing) (video : option Video) (channel : Z)
    (scale_factor : spec_float) : outcome Video :=
  match video with
  | None => Reported "Invalid input to scale_channel function."
  | Some v =>
    match data v with
    | None => Reported "Invalid input to scale_channel function."
    | Some d =>
      if bool_decide (channels (hdr v) ≤ channel)
      then Reported "Channel index out of bounds."
      else
        let frame_size := channels (hdr v) * height (hdr v) * width (hdr v) in
        let channel_size := height (hdr v) * width (hdr v) in
        run (d' ← foldM (λ d frame_idx,
                    let channel_offset :=
                      wrap64 (frame_idx * frame_size + channel * channel_size) in
                    foldM (λ d i,
                        update (scale_sample nw scale_factor) d (channel_offset + i))
                      d (seqZ 0 channel_size))
                  d (seqZ 0 (num_frames (hdr v)));
             Some (with_data v d'))
    end
  end.

(** ** The arena store

    [SVideo] holds the header and [frames], the address of the arena
    ([0] is [NULL]).  The arena is one [block]; [Frame] and [Channel] are
    one pointer each, so [sizeof(Frame) = sizeof(Channel) = 8]. *)

Record SVideo := {
  shdr : Header;
  frames : Z
}.

Definition mload (m : block) (a : Z) : option Z := load (bytes m) (a - base m).

Definition with_bytes (m : block) (d : list Z) : block :=
  {| base := base m; bytes := d |}.

Definition mstore (m : block) (a v : Z) : option block :=
  with_bytes m <$> store (bytes m) (a - base m) v.

Definition mload_range (m : block) (a len : Z) : option (list Z) :=
  load_range (bytes m) (a - base m) len.

Definition mstore_range (m : block) (a : Z) (src : list Z) : option block :=
  with_bytes m <$> store_range (bytes m) (a - base m) src.

Definition load_ptr (m : block) (a : Z) : option Z :=
  le_value <$> mload_range m a 8.

Definition store_ptr (m : block) (a p : Z) : option block :=
  mstore_range m a (le_bytes 8 p).

(** [&video->frames[i]] *)
Definition frame_at (s : SVideo) (i : Z) : Z := frames s + i * 8.

(** [&frame->channels[c]] for the [Frame] at address [frame] *)
Definition channel_at (m : block) (frame c : Z) : option Z :=
  chans ← load_ptr m frame; Some (chans + c * 8).

(** [video->frames[i].channels[c].data] *)
Definition channel_data (m : block) (s : SVideo) (i c : Z) : option Z :=
  ch ← channel_at m (frame_at s i) c; load_ptr m ch.

(** [decode_S].  [sizeof(SVideo)] is 24. *)
Definition decode_S (al : allocator) (file : option (list Z))
  : outcome (SVideo * block) :=
  match file with
  | None => Reported "Error opening file"
  | Some file =>
    match malloc al 24 with
    | None => Reported "Error allocating memory for SVideo"
    | Some _ =>
      match read_header file with
      | None => Reported "Error reading video header"
      | Some (h, file) =>
        let num_frames := num_frames h in
        let num_channels := channels h in
        let frame_size := height h * width h in
        let total_channel_data_size := wrap64 (num_frames * num_channels * frame_size) in
        let total_size :=
          wrap64 (num_frames * 8 + num_frames * num_channels * 8
                  + total_channel_data_size) in
        match malloc al total_size with
        | None => Reported "Error allocating contiguous memory block"
        | Some m =>
          let memory_block := base m in
          let svideo := {| shdr := h; frames := memory_block |} in
          let channels_block := memory_block + wrap64 (num_frames * 8) in
          let data_block := channels_block + wrap64 (num_frames * num_channels * 8) in
          match
            foldM (λ m frame_idx,
                let frame := frame_at svideo frame_idx in
                m ← store_ptr m frame
                      (channels_block + wrap64 (frame_idx * num_channels * 8));
                foldM (λ m channel_idx,
                    ch ← channel_at m frame channel_idx;
                    store_ptr m ch
                      (data_block + wrap64 (frame_idx * num_channels * frame_size)
                       + wrap64 (channel_idx * frame_size)))
                  m (seqZ 0 num_channels))
              m (seqZ 0 num_frames)
          with
          | None => Undefined
          | Some m =>
            match fread file total_channel_data_size with
            | None => Reported "Error reading channel data"
            | Some (payload, _) =>
              run (m ← mstore_range m data_block payload; Some (svideo, m))
            end
          end
        end
      end
    end
  end.

(** [encode_S] *)
Definition encode_S (writable : bool) (video : option SVideo) (m : block)
  : outcome (list Z) :=
  match video with
  | None => Reported "Invalid input to encode function."
  | Some s =>
    if negb writable then Reported "Error opening file for writing"
    else
      run (foldM (λ out frame_idx,
               let frame := frame_at s frame_idx in
               foldM (λ out channel_idx,
                   channel ← channel_at m frame channel_idx;
                   let channel_size := height (shdr s) * width (shdr s) in
                   dat ← load_ptr m channel;
                   px ← mload_range m dat channel_size;
                   Some (out ++ px))
                 out (seqZ 0 (channels (shdr s))))
             (write_header (shdr s)) (seqZ 0 (num_frames (shdr s))))
  end.

(** [reverse_S] *)
Definition reverse_S (video : option SVideo) (m : block) : outcome block :=
  match video with
  | None => Reported "Invalid input to reverse_S function."
  | Some s =>
    if bool_decide (frames s = 0)
    then Reported "Invalid input to reverse_S function."
    else
      run (foldM (λ m i,
               with_bytes m <$>
                 swap_ranges 8 (bytes m)
                   (frame_at s i - base m)
                   (frame_at s (num_frames (shdr s) - 1 - i) - base m))
             m (seqZ 0 (num_frames (shdr s) `quot` 2)))
  end.

(** [swap_channels_S].  The channel indices are compared with
    [video->channels] before [video] is tested. *)
Definition swap_channels_S (video : option SVideo) (m : block)
    (channel1 channel2 : Z) : outcome block :=
  match video with
  | None => Undefined
  | Some s =>
    if bool_decide (channels (shdr s) ≤ channel1 ∨ channels (shdr s) ≤ channel2)
    then Reported "Channel indices out of bounds."
    else if bool_decide (frames s = 0)
    then Reported "Invalid input to swap_channel_S function."
    else
      run (foldM (λ m frame,
               c1 ← channel_at m (frame_at s frame) channel1;
               temp ← mload_range m c1 8;
               c2 ← channel_at m (frame_at s frame) channel2;
               src ← mload_range m c2 8;
               c1 ← channel_at m (frame_at s frame) channel1;
               m ← mstore_range m c1 src;
               c2 ← channel_at m (frame_at s frame) channel2;
               mstore_range m c2 temp)
             m (seqZ 0 (num_frames (shdr s))))
  end.

(** AVX2: a vector is 32 unsigned byte lanes. *)
Definition _mm256_set1_epi8 (x : Z) : list Z := replicate 32 x.
Definition _mm256_max_epu8 (a b : list Z) : list Z := zip_with Z.max a b.
Definition _mm256_min_epu8 (a b : list Z) : list Z := zip_with Z.min a b.

(** One frame of [clip_channel_S]: the vector loop
    [for (; i + 31 < channel_size; i += 32)], then the scalar tail
    [for (; i < channel_size; i++)]. *)
Definition clip_frame_S (m : block) (dat channel_size min_value max_value : Z)
  : option block :=
  let min_val_vec := _mm256_set1_epi8 min_value in
  let max_val_vec := _mm256_set1_epi8 max_value in
  '(m, i) ← for_step (Z.to_nat channel_size)
              (λ i, bool_decide (i + 31 < channel_size)) 32
              (λ m i,
                 pixels ← mload_range m (dat + i) 32;
                 let pixels :=
                   _mm256_min_epu8 (_mm256_max_epu8 pixels min_val_vec) max_val_vec in
                 mstore_range m (dat + i) pixels)
              m 0;
  foldM (λ m i,
      with_bytes m <$>
        modify (λ x, CLAMP x min_value max_value) (bytes m) (dat + i - base m))
    m (seqZ i (channel_size - i)).

(** [clip_channel_S] *)
Definition clip_channel_S (video : option SVideo) (m : block)
    (channel min_value max_value : Z) : outcome block :=
  match video with
  | None => Reported "Invalid input to clip_channel_SIMD_SVideo."
  | Some s =>
    if bool_decide (channels (shdr s) ≤ channel)
    then Reported "Invalid input to clip_channel_SIMD_SVideo."
    else
      let channel_size := height (shdr s) * width (shdr s) in
      run (foldM (λ m frame_idx,
               dat ← channel_data m s frame_idx channel;
               clip_frame_S m dat channel_size min_value max_value)
             m (seqZ 0 (num_frames (shdr s))))
  end.

(** [scale_channel_S]: chunks of 32 with a prefetch hint (no effect on
    the state), then the tail. *)
Definition scale_channel_S (nw : narrowing) (video : option SVideo) (m : block)
    (channel : Z) (scale_factor : spec_float) : outcome block :=
  match video with
  | None => Reported "Invalid input to scale_channel_S_S function."
  | Some s =>
    if bool_decide (channels (shdr s) ≤ channel)
    then Reported "Invalid input to scale_channel_S_S function."
    else
      let scale m k :=
        with_bytes m <$>
          update (scale_sample nw scale_factor) (bytes m) (k - base m) in
      run (foldM (λ m frame_idx,
               chan ← channel_at m (frame_at s frame_idx) channel;
               let channel_size := height (shdr s) * width (shdr s) in
               dat ← load_ptr m chan;
               '(m, i) ← for_step (Z.to_nat channel_size)
                           (λ i, bool_decide (i + 31 < channel_size)) 32
                           (λ m i, foldM (λ m j, scale m (dat + (i + j))) m (seqZ 0 32))
                           m 0;
               foldM (λ m i, scale m (dat + i)) m (seqZ i (channel_size - i)))
             m (seqZ 0 (num_frames (shdr s))))
  end.

(** ** The bulk-export functions ([video_functions_wasm.c])

    They return an [int] and print nothing: the result is the returned
    value and the memory. *)

(** The frames [chunk_start .. chunk_end) of one chunk. *)
Definition chunk_frames (chunk_start CHUNK_SIZE total : Z) : list Z :=
  let chunk_end := chunk_start + CHUNK_SIZE in
  let chunk_end := if bool_decide (chunk_end > total)%Z then total else chunk_end in
  seqZ chunk_start (chunk_end - chunk_start).

Definition reverse_S_wasm (video : option SVideo) (m : block)
  : outcome (Z * block) :=
  match video with
  | None => Ok (-1, m)
  | Some s =>
    if bool_decide (frames s = 0) then Ok (-1, m)
    else
      let CHUNK_SIZE := 100 in
      let total_frames := num_frames (shdr s) in
      run ('(m, _) ← for_step (Z.to_nat total_frames)
                       (λ chunk_start, bool_decide (chunk_start < total_frames `quot` 2))
                       CHUNK_SIZE
                       (λ m chunk_start,
                          foldM (λ m i,
                              with_bytes m <$>
                                swap_ranges 8 (bytes m)
                                  (frame_at s i - base m)
                                  (frame_at s (total_frames - 1 - i) - base m))
                            m (chunk_frames chunk_start CHUNK_SIZE (total_frames `quot` 2)))
                       m 0;
           Some (0, m))
  end.

Definition swap_channels_S_wasm (video : option SVideo) (m : block)
    (channel1 channel2 : Z) : outcome (Z * block) :=
  match video with
  | None => Ok (-1, m)
  | Some s =>
    if bool_decide (frames s = 0) then Ok (-1, m)
    else if bool_decide (channels (shdr s) ≤ channel1 ∨ channels (shdr s) ≤ channel2)
    then Ok (-1, m)
    else
      let CHUNK_SIZE := 50 in
      let total_frames := num_frames (shdr s) in
      run ('(m, _) ← for_step (Z.to_nat total_frames)
                       (λ chunk_start, bool_decide (chunk_start < total_frames))
                       CHUNK_SIZE
                       (λ m chunk_start,
                          foldM (λ m frame,
                              c1 ← channel_at m (frame_at s frame) channel1;
                              temp ← mload_range m c1 8;
                              c2 ← channel_at m (frame_at s frame) channel2;
                              src ← mload_range m c2 8;
                              c1 ← channel_at m (frame_at s frame) channel1;
                              m ← mstore_range m c1 src;
                              c2 ← channel_at m (frame_at s frame) channel2;
                              mstore_range m c2 temp)
                            m (chunk_frames chunk_start CHUNK_SIZE total_frames))
                       m 0;
           Some (0, m))
  end.

Definition clip_channel_S_wasm (video : option SVideo) (m : block)
    (channel min_value max_value : Z) : outcome (Z * block) :=
  match video with
  | None => Ok (-1, m)
  | Some s =>
    if bool_decide (channels (shdr s) ≤ channel) then Ok (-1, m)
    else
      let channel_size := height (shdr s) * width (shdr s) in
      let CHUNK_SIZE := 25 in
      let total_frames := num_frames (shdr s) in
      run ('(m, _) ← for_step (Z.to_nat total_frames)
                       (λ chunk_start, bool_decide (chunk_start < total_frames))
                       CHUNK_SIZE
                       (λ m chunk_start,
                          foldM (λ m frame_idx,
                              channel_data ← channel_data m s frame_idx channel;
                              foldM (λ m i,
                                  with_bytes m <$>
                                    modify (λ x, CLAMP x min_value max_value)
                                      (bytes m) (channel_data + i - base m))
                                m (seqZ 0 channel_size))
                            m (chunk_frames chunk_start CHUNK_SIZE total_frames))
                       m 0;
           Some (0, m))
  end.

(** [float scaled_value = x * scale_factor;
     CLAMP((unsigned char)scaled_value, 0, 255)]: the conversion comes
    first, the clamp sees a value that is already a byte. *)
Definition scale_sample_wasm (nw : narrowing) (scale_factor : spec_float) (x : Z)
  : option Z :=
  let scaled_value := f32_mul (f32_of_int x) scale_factor in
  y ← float_to_uchar nw scaled_value;
  Some (CLAMP y 0 255).

Definition scale_channel_S_wasm (nw : narrowing) (video : option SVideo)
    (m : block) (channel : Z) (scale_factor : spec_float) : outcome (Z * block) :=
  match video with
  | None => Ok (-1, m)
  | Some s =>
    if bool_decide (channels (shdr s) ≤ channel) then Ok (-1, m)
    else
      let channel_size := height (shdr s) * width (shdr s) in
      let CHUNK_SIZE := 25 in
      let total_frames := num_frames (shdr s) in
      run ('(m, _) ← for_step (Z.to_nat total_frames)
                       (λ chunk_start, bool_decide (chunk_start < total_frames))
                       CHUNK_SIZE
                       (λ m chunk_start,
                          foldM (λ m frame_idx,
                              channel_data ← channel_data m s frame_idx channel;
                              foldM (λ m i,
                                  with_bytes m <$>
                                    update (scale_sample_wasm nw scale_factor)
                                      (bytes m) (channel_data + i - base m))
                                m (seqZ 0 channel_size))
                            m (chunk_frames chunk_start CHUNK_SIZE total_frames))
                       m 0;
           Some (0, m))
  end.

(** ** Decoding from and encoding to a memory buffer *)

(** [decode_S_wasm]: [data] is the content of the input buffer ([None]
    is [NULL]), [data_size] the size the caller states.  The result is
    the returned pointer, [None] for [NULL]. *)
Definition decode_S_wasm (al : allocator) (data : option (list Z)) (data_size : Z)
  : outcome (option (SVideo * block)) :=
  match data with
  | None => Ok None
  | Some data =>
    if bool_decide (data_size < 11) then Ok None
    else
      match malloc al 24 with
      | None => Ok None
      | Some _ =>
        match
          nf ← load_range data 0 8;
          c ← load data 8;
          h ← load data 9;
          w ← load data 10;
          Some {| num_frames := to_long (le_value nf); channels := c;
                  height := h; width := w |}
        with
        | None => Undefined
        | Some hd =>
          let offset := 11 in
          let num_frames := num_frames hd in
          let num_channels := channels hd in
          let frame_size := height hd * width hd in
          let total_channel_data_size := wrap64 (num_frames * num_channels * frame_size) in
          if bool_decide (data_size < wrap64 (offset + total_channel_data_size))
          then Ok None
          else
            let total_size :=
              wrap64 (num_frames * 8 + num_frames * num_channels * 8
                      + total_channel_data_size) in
            match malloc al total_size with
            | None => Ok None
            | Some m =>
              let memory_block := base m in
              let svideo := {| shdr := hd; frames := memory_block |} in
              let channels_block := memory_block + wrap64 (num_frames * 8) in
              let data_block := channels_block + wrap64 (num_frames * num_channels * 8) in
              run (m ← foldM (λ m frame_idx,
                        let frame := frame_at svideo frame_idx in
                        m ← store_ptr m frame
                              (channels_block + wrap64 (frame_idx * num_channels * 8));
                        foldM (λ m channel_idx,
                            channel ← channel_at m frame channel_idx;
                            store_ptr m channel
                              (data_block
                               + wrap64 ((frame_idx * num_channels + channel_idx)
                                         * frame_size)))
                          m (seqZ 0 num_channels))
                      m (seqZ 0 num_frames);
                   payload ← load_range data offset total_channel_data_size;
                   m ← mstore_range m data_block payload;
                   Some (Some (svideo, m)))
            end
        end
      end
  end.

(** [encode_S_wasm]: [output_size] says whether the [output_size]
    pointer is non-null.  The result is the returned buffer ([None] for
    [NULL]) and the value stored through [output_size], if any. *)
Definition encode_S_wasm (al : allocator) (video : option SVideo) (m : block)
    (output_size : bool) : outcome (option (list Z) * option Z) :=
  match video with
  | None => Ok (None, None)
  | Some s =>
    if negb output_size then Ok (None, None)
    else
      let frame_size := height (shdr s) * width (shdr s) in
      let total_channel_data_size :=
        wrap64 (num_frames (shdr s) * channels (shdr s) * frame_size) in
      let header_size := 8 + 3 in
      let size := wrap64 (header_size + total_channel_data_size) in
      match malloc al size with
      | None => Ok (None, Some 0)
      | Some output =>
        run (out ← store_range (bytes output) 0 (le_bytes 8 (num_frames (shdr s)));
             out ← store out 8 (wrap8 (channels (shdr s)));
             out ← store out 9 (wrap8 (height (shdr s)));
             out ← store out 10 (wrap8 (width (shdr s)));
             '(out, _) ← foldM (λ '(out, offset) frame_idx,
                  let frame := frame_at s frame_idx in
                  foldM (λ '(out, offset) channel_idx,
                      ch ← channel_at m frame channel_idx;
                      dat ← load_ptr m ch;
                      px ← mload_range m dat frame_size;
                      out ← store_range out offset px;
                      Some (out, wrap64 (offset + frame_size)))
                    (out, offset) (seqZ 0 (channels (shdr s))))
                (out, 11) (seqZ 0 (num_frames (shdr s)));
             Some (Some out, Some size))
      end
  end.

(** ** The streaming decode adapter ([decode_standard_video])

    The multimedia library is the environment: a [source] says how the
    probe went and which packets and decoded frames it hands over. *)

(** [frame_rgb] after [sws_scale]: [linesize[0]] and [data[0]]. *)
Record AVFrame := {
  linesize : Z;
  rgb : list Z
}.

(** One result of [avcodec_receive_frame]. *)
Inductive received :=
  | Decoded (frame_rgb : AVFrame)
  | Again                (* AVERROR(EAGAIN) or AVERROR_EOF *)
  | DecodeError.         (* any other negative value *)

Record AVPacket := {
  video_stream : bool;        (* stream_index == video_stream_idx *)
  send_ok : bool;             (* avcodec_send_packet >= 0 *)
  receives : list received    (* the successive avcodec_receive_frame results *)
}.

Record source := {
  setup_error : option string;
                          (* the message of the first step that fails among
                             open, stream info, video stream, decoder, codec
                             context, frames and scaler; [None] when all succeed *)
  nb_frames : Z;          (* streams[idx]->nb_frames *)
  estimate : option Z;    (* (long)(duration * fps) when the duration is known *)
  codec_width : Z;
  codec_height : Z;
  packet_alloc_ok : bool; (* av_packet_alloc *)
  packets : list AVPacket
}.

(** What the caller is left with: the returned pointer ([None] is
    [NULL]), the arena if it is still allocated, and [stderr]. *)
Record decoded := {
  returned : option SVideo;
  arena : option block;
  stderr : list string
}.

(** The locals of the decode loop. *)
Record decoder := {
  svideo : SVideo;
  memory_block : block;
  initial_capacity : Z;
  channels_block : Z;
  data_block : Z;
  frame_count : Z
}.

(** How a step of the loop ends. *)
Inductive flow :=
  | Continue (st : decoder)
  | Break (st : decoder) (msg : string)
  | Cleanup (st : decoder) (msg : string)   (* goto cleanup *)
  | Fault.                                  (* access outside the arena *)

(** The body executed for one decoded frame. *)
Definition store_frame (al : allocator) (st : decoder) (frame_rgb : AVFrame) : flow :=
  let h := shdr (svideo st) in
  let frame_size := height h * width h in
  let grown :=
    if bool_decide (to_long (initial_capacity st) ≤ frame_count st) then
      let initial_capacity := wrap64 (initial_capacity st * 2) in
      let new_total_size :=
        wrap64 (initial_capacity * 8 + initial_capacity * channels h * 8
                + initial_capacity * channels h * frame_size) in
      match realloc al (memory_block st) new_total_size with
      | None => None
      | Some new_memory_block =>
        let channels_block := base new_memory_block + wrap64 (initial_capacity * 8) in
        Some {| svideo := {| shdr := h; frames := base new_memory_block |};
                memory_block := new_memory_block;
                initial_capacity := initial_capacity;
                channels_block := channels_block;
                data_block := channels_block + wrap64 (initial_capacity * channels h * 8);
                frame_count := frame_count st |}
      end
    else Some st in
  match grown with
  | None => Cleanup st "Error: Could not reallocate memory"
  | Some st =>
    let current_frame := frame_at (svideo st) (frame_count st) in
    let written :=
      m ← store_ptr (memory_block st) current_frame
            (channels_block st + wrap64 (frame_count st * channels h * 8));
      foldM (λ m c,
          ch ← channel_at m current_frame c;
          m ← store_ptr m ch
                (data_block st + wrap64 ((frame_count st * channels h + c) * frame_size));
          foldM (λ m y,
              foldM (λ m x,
                  let pixel_idx := wrap64 (y * width h + x) in
                  let rgb_idx := wrap64 (y * linesize frame_rgb + x * 3 + c) in
                  ch ← channel_at m current_frame c;
                  dat ← load_ptr m ch;
                  v ← load (rgb frame_rgb) rgb_idx;
                  mstore m (dat + pixel_idx) v)
                m (seqZ 0 (width h)))
            m (seqZ 0 (height h)))
        m (seqZ 0 (channels h)) in
    match written with
    | None => Fault
    | Some m =>
      Continue {| svideo := svideo st; memory_block := m;
                  initial_capacity := initial_capacity st;
                  channels_block := channels_block st;
                  data_block := data_block st;
                  frame_count := frame_count st + 1 |}
    end
  end.

(** [while (ret >= 0) { ret = avcodec_receive_frame(...); ... }] *)
Fixpoint receive_frames (al : allocator) (st : decoder) (rs : list received) : flow :=
  match rs with
  | [] | Again :: _ => Continue st
  | DecodeError :: _ => Cleanup st "Error during decoding"
  | Decoded frame_rgb :: rs =>
    match store_frame al st frame_rgb with
    | Continue st => receive_frames al st rs
    | other => other
    end
  end.

(** [while (av_read_frame(fmt_ctx, packet) >= 0) { ... }] *)
Fixpoint read_packets (al : allocator) (st : decoder) (ps : list AVPacket) : flow :=
  match ps with
  | [] => Continue st
  | p :: ps =>
    if video_stream p then
      if send_ok p then
        match receive_frames al st (receives p) with
        | Continue st => read_packets al st ps
        | other => other
        end
      else Break st "Error sending packet to decoder"
    else read_packets al st ps
  end.

Definition decode_standard_video (al : allocator) (src : source) : option decoded :=
  match setup_error src with
  | Some msg => Some {| returned := None; arena := None; stderr := [msg] |}
  | None =>
    let nframes :=
      if bool_decide (nb_frames src = 0)
      then match estimate src with Some n => n | None => 1000 end
      else nb_frames src in
    match malloc al 24 with
    | None =>
      Some {| returned := None; arena := None;
              stderr := ["Error: Could not allocate SVideo"] |}
    | Some _ =>
      let h := {| num_frames := 0; channels := 3;
                  height := wrap8 (codec_height src);
                  width := wrap8 (codec_width src) |} in
      let frame_size := height h * width h in
      let initial_capacity := if bool_decide (0 < nframes) then wrap64 nframes else 1000 in
      let total_size :=
        wrap64 (initial_capacity * 8 + initial_capacity * channels h * 8
                + initial_capacity * channels h * frame_size) in
      match malloc al total_size with
      | None =>
        Some {| returned := None; arena := None;
                stderr := ["Error: Could not allocate memory for frames"] |}
      | Some m =>
        let channels_block := base m + wrap64 (initial_capacity * 8) in
        let st := {| svideo := {| shdr := h; frames := base m |};
                     memory_block := m;
                     initial_capacity := initial_capacity;
                     channels_block := channels_block;
                     data_block := channels_block + wrap64 (initial_capacity * channels h * 8);
                     frame_count := 0 |} in
        if negb (packet_alloc_ok src) then
          Some {| returned := Some (svideo st); arena := Some m;
                  stderr := ["Error: Could not allocate packet"] |}
        else
          let finish st msgs :=
            Some {| returned :=
                      Some {| shdr := {| num_frames := frame_count st;
                                         channels := channels h;
                                         height := height h; width := width h |};
                              frames := frames (svideo st) |};
                    arena := Some (memory_block st);
                    stderr := msgs |} in
          match read_packets al st (packets src) with
          | Continue st => finish st []
          | Break st msg => finish st [msg]
          | Cleanup st msg =>
            Some {| returned := Some (svideo st); arena := Some (memory_block st);
                    stderr := [msg] |}
          | Fault => None
          end
      end
    end
  end.

(** ** The streaming encode adapter ([encode_standard_video])

    The multimedia library is the environment again: a [sink] says how
    the setup went, which RGB frame buffer it allocated and what the
    encoder answers for every frame.  [stdout] is not modelled. *)

(** One result of [avcodec_receive_packet]; a packet comes with the
    value [av_interleaved_write_frame] returns for it. *)
Inductive received_packet :=
  | Packet (write_ret : Z)
  | NoPacket                 (* AVERROR(EAGAIN) or AVERROR_EOF *)
  | EncodeError (ret : Z).   (* any other negative value *)

(** What the encoder answers for one frame. *)
Record frame_answer := {
  send_frame : Z;                          (* avcodec_send_frame *)
  receive_packets : list received_packet   (* avcodec_receive_packet, in order *)
}.

Record sink := {
  names_given : bool;     (* filename && codec_name *)
  sink_error : option string;
                          (* the message of the first step that fails among
                             output context, encoder, stream, codec context,
                             open codec, parameters, output file, header,
                             frames, frame buffers, scaler and packet;
                             [None] when all succeed *)
  rgb_linesize : Z;       (* frame->linesize[0] *)
  rgb_data : list Z;      (* frame->data[0] after av_frame_get_buffer *)
  answers : Z → frame_answer   (* by frame index *)
}.

(** What the call does: the returned [int], the RGB frames handed to
    [sws_scale] in order, and [stderr]. *)
Record encoded := {
  ret : Z;
  scaled : list AVFrame;
  enc_stderr : list string
}.

(** "Convert from planar RGB to interleaved RGB": the pixel loops for
    frame [frame_idx], into the buffer [data]. *)
Definition interleave (s : SVideo) (m : block) (frame_idx linesize : Z)
    (data : list Z) : option (list Z) :=
  foldM (λ data y,
      foldM (λ data x,
          let pixel_idx := wrap64 (y * width (shdr s) + x) in
          let rgb_idx := wrap64 (y * linesize + x * 3) in
          foldM (λ data c,
              ch ← channel_at m (frame_at s frame_idx) c;
              dat ← load_ptr m ch;
              v ← mload m (dat + pixel_idx);
              store data (wrap64 (rgb_idx + c)) v)
            data (seqZ 0 3))
        data (seqZ 0 (width (shdr s))))
    data (seqZ 0 (height (shdr s))).

(** [while (ret >= 0) { ret = avcodec_receive_packet(...); ... }]: the
    error it ends with, if any. *)
Fixpoint write_packets (rs : list received_packet) : option (Z * string) :=
  match rs with
  | [] | NoPacket :: _ => None
  | EncodeError ret :: _ => Some (ret, "Error encoding frame")
  | Packet write_ret :: rs =>
    if bool_decide (write_ret < 0) then Some (write_ret, "Error writing frame")
    else write_packets rs
  end.

(** The loop over the frames [idxs] still to encode. *)
Fixpoint encode_frames (snk : sink) (s : SVideo) (m : block) (data : list Z)
    (done : list AVFrame) (idxs : list Z) : option encoded :=
  match idxs with
  | [] => Some {| ret := 0; scaled := done; enc_stderr := [] |}
  | frame_idx :: idxs =>
    match interleave s m frame_idx (rgb_linesize snk) data with
    | None => None
    | Some data =>
      let done := done ++ [{| linesize := rgb_linesize snk; rgb := data |}] in
      let answer := answers snk frame_idx in
      if bool_decide (send_frame answer < 0) then
        Some {| ret := send_frame answer; scaled := done;
                enc_stderr := ["Error sending frame to encoder"] |}
      else
        match write_packets (receive_packets answer) with
        | Some (ret, msg) => Some {| ret := ret; scaled := done; enc_stderr := [msg] |}
        | None => encode_frames snk s m data done idxs
        end
    end
  end.

Definition encode_standard_video (snk : sink) (video : option SVideo) (m : block)
  : option encoded :=
  match video with
  | None =>
    Some {| ret := -1; scaled := [];
            enc_stderr := ["Invalid input to encode_standard_video"] |}
  | Some s =>
    if negb (names_given snk) then
      Some {| ret := -1; scaled := [];
              enc_stderr := ["Invalid input to encode_standard_video"] |}
    else
      match sink_error snk with
      | Some msg => Some {| ret := -1; scaled := []; enc_stderr := [msg] |}
      | None => encode_frames snk s m (rgb_data snk) [] (seqZ 0 (num_frames (shdr s)))
      end
  end.

(** ** Stating the properties *)

(** The buffer of a flat store holds exactly the declared payload, and
    the payload fits the address space. *)
Record wf_video (v : Video) (d : list Z) : Prop := {
  wf_data : data v = Some d;
  wf_frames : 0 ≤ num_frames (hdr v) < 2 ^ 63;
  wf_channels : 0 ≤ channels (hdr v) < 256;
  wf_height : 0 ≤ height (hdr v) < 256;
  wf_width : 0 ≤ width (hdr v) < 256;
  wf_length :
    Z.of_nat (length d) =
    num_frames (hdr v) * (channels (hdr v) * height (hdr v) * width (hdr v));
  wf_fits : Z.of_nat (length d) < 2 ^ 64
}.

(** Addressing formula of the flat layout, with [p = y * width + x]. *)
Definition offset (h : Header) (frame channel p : Z) : Z :=
  frame * (channels h * height h * width h) + channel * (height h * width h) + p.

(** The offsets of all samples of one channel, in the order the
    transforms visit them. *)
Definition channel_offsets (h : Header) (channel : Z) : list Z :=
  frame ← seqZ 0 (num_frames h);
  (λ p, offset h frame channel p) <$> seqZ 0 (height h * width h).

(** [g] applied at the offsets in [ks], every other byte kept. *)
Definition map_at (ks : list Z) (g : Z → Z) (d : list Z) : list Z :=
  imap (λ j x, if decide (Z.of_nat j ∈ ks) then g x else x) d.

(** The sample of a flat store at [(frame, channel, p)]. *)
Definition sample (v : Video) (frame channel p : Z) : option Z :=
  d ← data v; load d (offset (hdr v) frame channel p).

(** Frame [i] of a flat store. *)
Definition frame_of (v : Video) (i : Z) : option (list Z) :=
  let frame_size := channels (hdr v) * height (hdr v) * width (hdr v) in
  d ← data v; load_range d (i * frame_size) frame_size.

(** A list of records of [sz] bytes each, as they lie one after the
    other in a buffer. *)
Definition chunked (sz : Z) (L : list (list Z)) : Prop :=
  Forall (λ c, Z.of_nat (length c) = sz) L.

(** The header ranges of the data model: [channels] 1-3, [height] and
    [width] 1-128, a non-negative frame count. *)
Definition valid_header (h : Header) : Prop :=
  0 ≤ num_frames h < 2 ^ 63 ∧ 1 ≤ channels h ≤ 3 ∧
  1 ≤ height h ≤ 128 ∧ 1 ≤ width h ≤ 128.

(** The payload size [decode] computes from a header. *)
Definition payload_size (h : Header) : Z :=
  wrap64 (channels h * height h * width h * num_frames h).

(** The size of the arena for a header. *)
Definition arena_size (h : Header) : Z :=
  num_frames h * 8 + num_frames h * channels h * 8
  + num_frames h * channels h * (height h * width h).

(** An address range lies inside a block. *)
Definition inside (m : block) (a len : Z) : Prop :=
  base m ≤ a ∧ a + len ≤ base m + Z.of_nat (length (bytes m)).

(** The arena layout: one block holding the Frame Descriptor region,
    the Channel Descriptor region and the Pixel Payload region, in that
    order; every Frame Descriptor refers to a run of [channels] Channel
    Descriptors and every Channel Descriptor to a [height * width]
    slice of the payload. *)
Record wf_arena (s : SVideo) (m : block) : Prop := {
  wfa_frames : frames s = base m;
  wfa_base : 0 < base m;
  wfa_fits : base m + Z.of_nat (length (bytes m)) < 2 ^ 64;
  wfa_num_frames : 0 ≤ num_frames (shdr s) < 2 ^ 63;
  wfa_channels : 0 ≤ channels (shdr s) < 256;
  wfa_height : 0 ≤ height (shdr s) < 256;
  wfa_width : 0 ≤ width (shdr s) < 256;
  wfa_length :
    Z.of_nat (length (bytes m)) =
    num_frames (shdr s) * 8 + num_frames (shdr s) * channels (shdr s) * 8
    + num_frames (shdr s) * channels (shdr s) * (height (shdr s) * width (shdr s));
  wfa_frame_desc : ∀ i,
    0 ≤ i < num_frames (shdr s) →
    ∃ j, 0 ≤ j < num_frames (shdr s) ∧
         load_ptr m (frame_at s i)
         = Some (base m + num_frames (shdr s) * 8 + j * channels (shdr s) * 8);
  wfa_channel_desc : ∀ j,
    0 ≤ j < num_frames (shdr s) * channels (shdr s) →
    ∃ k, 0 ≤ k < num_frames (shdr s) * channels (shdr s) ∧
         load_ptr m (base m + num_frames (shdr s) * 8 + j * 8)
         = Some (base m + num_frames (shdr s) * 8
                 + num_frames (shdr s) * channels (shdr s) * 8
                 + k * (height (shdr s) * width (shdr s)))
}.

(** The pixels of channel [c] of frame [i], read through the
    descriptors: [video->frames[i].channels[c].data[0 .. height*width)]. *)
Definition channel_pixels (m : block) (s : SVideo) (i c : Z) : option (list Z) :=
  dat ← channel_data m s i c;
  mload_range m dat (height (shdr s) * width (shdr s)).

(** The (frame, channel) pairs in the order the codec visits them. *)
Definition slots (h : Header) : list (Z * Z) :=
  i ← seqZ 0 (num_frames h); (λ c, (i, c)) <$> seqZ 0 (channels h).

(** The payload of an arena store in frame-major, channel-major order,
    read through the descriptors. *)
Definition payload_S (m : block) (s : SVideo) : option (list Z) :=
  pxs ← mapM (λ ic, channel_pixels m s ic.1 ic.2) (slots (shdr s));
  Some (concat pxs).

(** The content of an arena as its three regions: [FD] the Frame
    Descriptor records, [CD] the Channel Descriptor records, [PX] the
    [height * width] slices of the Pixel Payload. *)
Record regions (s : SVideo) (m : block) (FD CD PX : list (list Z)) : Prop := {
  rg_frames : frames s = base m;
  rg_bytes : bytes m = concat FD ++ concat CD ++ concat PX;
  rg_FD : chunked 8 FD;
  rg_FD_length : Z.of_nat (length FD) = num_frames (shdr s);
  rg_CD : chunked 8 CD;
  rg_CD_length : Z.of_nat (length CD) = num_frames (shdr s) * channels (shdr s);
  rg_PX : chunked (height (shdr s) * width (shdr s)) PX;
  rg_PX_length : Z.of_nat (length PX) = num_frames (shdr s) * channels (shdr s)
}.

(** The descriptors as [decode_S] sets them: frame [i] refers to the
    [i]-th run of Channel Descriptors, Channel Descriptor [j] to the
    [j]-th slice of the payload.  [built s kf kc m] says that the first
    [kf] Frame Descriptors and the first [kc] Channel Descriptors of [m]
    are set. *)
Definition frame_desc (s : SVideo) (i : Z) : list Z :=
  le_bytes 8 (frames s + num_frames (shdr s) * 8 + i * channels (shdr s) * 8).

Definition channel_desc (s : SVideo) (j : Z) : list Z :=
  le_bytes 8 (frames s + num_frames (shdr s) * 8
              + num_frames (shdr s) * channels (shdr s) * 8
              + j * (height (shdr s) * width (shdr s))).

Definition built (s : SVideo) (kf kc : Z) (m : block) : Prop :=
  ∃ FD CD PX,
    regions s m FD CD PX ∧
    (∀ i, 0 ≤ i < kf → FD !! Z.to_nat i = Some (frame_desc s i)) ∧
    (∀ j, 0 ≤ j < kc → CD !! Z.to_nat j = Some (channel_desc s j)).

(** Following the descriptor records [FD] and [CD], channel [c] of
    frame [i] is slice [k] of the payload. *)
Definition slot_of (s : SVideo) (FD CD : list (list Z)) (i c k : Z) : Prop :=
  ∃ fd j cd,
    FD !! Z.to_nat i = Some fd ∧ 0 ≤ j < num_frames (shdr s) ∧
    le_value fd = frames s + num_frames (shdr s) * 8 + j * channels (shdr s) * 8 ∧
    CD !! Z.to_nat (j * channels (shdr s) + c) = Some cd ∧
    0 ≤ k < num_frames (shdr s) * channels (shdr s) ∧
    le_value cd = frames s + num_frames (shdr s) * 8
                  + num_frames (shdr s) * channels (shdr s) * 8
                  + k * (height (shdr s) * width (shdr s)).

(** What one lane of the vector path computes. *)
Definition lane_clip (min_value max_value x : Z) : Z :=
  Z.min (Z.max x min_value) max_value.

(** Boundedness and idempotence of [clip_channel] at one input. *)
Definition clip_bounded_idempotent (v : Video) (c lo hi : Z) : Prop :=
  ∃ v', clip_channel (Some v) c lo hi = Ok v' ∧
    (∀ f p, 0 ≤ f < num_frames (hdr v) →
            0 ≤ p < height (hdr v) * width (hdr v) →
            ∃ x, sample v' f c p = Some x ∧ lo ≤ x ≤ hi) ∧
    clip_channel (Some v') c lo hi = Ok v'.

(** [clip_channel_S] agrees with the scalar rule at one input: it
    completes, and every element of channel [c] is the [CLAMP] of the
    element it replaces. *)
Definition clip_S_is_scalar (s : SVideo) (m : block) (c min_value max_value : Z)
  : Prop :=
  ∃ m',
    clip_channel_S (Some s) m c min_value max_value = Ok m' ∧
    ∀ i, 0 ≤ i < num_frames (shdr s) →
         ∃ px, channel_pixels m s i c = Some px ∧
               channel_pixels m' s i c
               = Some ((λ x, CLAMP x min_value max_value) <$> px).

(** A transform that reports to [stderr] and returns nothing, seen through
    the [int] of its bulk-export counterpart: 0, or -1 with the memory
    untouched. *)
Definition exit_code (m : block) (r : outcome block) : outcome (Z * block) :=
  match r with
  | Ok m' => Ok (0, m')
  | Reported _ => Ok (-1, m)
  | Undefined => Undefined
  end.

(** Channel [c] of frame [f] of a flat store: its [height * width] slice. *)
Definition channel_of (v : Video) (f c : Z) : option (list Z) :=
  d ← data v;
  load_range d (offset (hdr v) f c 0) (height (hdr v) * width (hdr v)).

(** The channel index that [swap_channels] puts at [c]. *)
Definition exchanged (channel1 channel2 c : Z) : Z :=
  if decide (c = channel1) then channel2
  else if decide (c = channel2) then channel1 else c.

(** No two channels of an arena store share their pixels. *)
Definition no_alias (s : SVideo) (m : block) : Prop :=
  ∀ i c i' c',
    0 ≤ i < num_frames (shdr s) → 0 ≤ c < channels (shdr s) →
    0 ≤ i' < num_frames (shdr s) → 0 ≤ c' < channels (shdr s) →
    channel_data m s i c = channel_data m s i' c' → i = i' ∧ c = c'.

(** The descriptor records of an arena are valid: every Frame
    Descriptor refers to a run of Channel Descriptors, every Channel
    Descriptor to a slice of the payload. *)
Definition described (s : SVideo) (FD CD : list (list Z)) : Prop :=
  (∀ i, 0 ≤ i < num_frames (shdr s) →
        ∃ fd j, FD !! Z.to_nat i = Some fd ∧ 0 ≤ j < num_frames (shdr s) ∧
                le_value fd = frames s + num_frames (shdr s) * 8
                              + j * channels (shdr s) * 8) ∧
  (∀ idx, 0 ≤ idx < num_frames (shdr s) * channels (shdr s) →
          ∃ cd k, CD !! Z.to_nat idx = Some cd ∧
                  0 ≤ k < num_frames (shdr s) * channels (shdr s) ∧
                  le_value cd = frames s + num_frames (shdr s) * 8
                                + num_frames (shdr s) * channels (shdr s) * 8
                                + k * (height (shdr s) * width (shdr s))).

(** A function that returns a pointer, seen by a caller that has no
    [stderr]: [None] is [NULL]. *)
Definition returned_pointer {A} (r : outcome A) : outcome (option A) :=
  match r with
  | Ok a => Ok (Some a)
  | Reported _ => Ok None
  | Undefined => Undefined
  end.

(** The output buffer [J] of [encode_S_wasm] after the header and [j]
    slices of the payload [PX] have been copied. *)
Definition written (s : SVideo) (PX : list (list Z)) (J : list Z) (j : Z) : list Z :=
  write_header (shdr s) ++ concat (take (Z.to_nat j) PX)
  ++ drop (Z.to_nat (11 + j * (height (shdr s) * width (shdr s)))) J.

(** The plane of channel [c] of an interleaved RGB frame, [W] pixels
    wide and [H] high: pixel [p = y * W + x] is byte
    [y * linesize + x * 3 + c] of the frame. *)
Definition plane (f : AVFrame) (H W c : Z) : list Z :=
  (λ p, default 0 (rgb f !! Z.to_nat (p `div` W * linesize f + p `mod` W * 3 + c)))
    <$> seqZ 0 (H * W).

(** The RGB buffer of a frame holds [H] lines of [W] pixels. *)
Definition readable (f : AVFrame) (H W : Z) : Prop :=
  0 ≤ linesize f ∧ Z.of_nat (length (rgb f)) < 2 ^ 64 ∧
  ∀ y x c, 0 ≤ y < H → 0 ≤ x < W → 0 ≤ c < 3 →
           y * linesize f + x * 3 + c < Z.of_nat (length (rgb f)).

(** The frames a decoder hands over for one packet: those received
    before the first answer that is not a frame. *)
Fixpoint decoded_frames (rs : list received) : list AVFrame :=
  match rs with
  | Decoded f :: rs => f :: decoded_frames rs
  | _ => []
  end.

(** That first answer is not an error. *)
Fixpoint ends_well (rs : list received) : Prop :=
  match rs with
  | Decoded _ :: rs => ends_well rs
  | DecodeError :: _ => False
  | _ => True
  end.

(** The frames the decoder hands over for the packets of the video
    stream, in order. *)
Definition delivered (ps : list AVPacket) : list AVFrame :=
  ps ≫= λ p, if video_stream p then decoded_frames (receives p) else [].

(** Every packet of the video stream is accepted by the decoder, and
    the frames of each are received without error. *)
Definition well_behaved (ps : list AVPacket) : Prop :=
  Forall (λ p, video_stream p = true → send_ok p = true ∧ ends_well (receives p)) ps.

(** The number of frames [decode_standard_video] allocates room for. *)
Definition capacity (src : source) : Z :=
  let nframes :=
    if bool_decide (nb_frames src = 0)
    then match estimate src with Some n => n | None => 1000 end
    else nb_frames src in
  if bool_decide (0 < nframes) then wrap64 nframes else 1000.

(** The arena of a streaming decode with room for [cap] frames of [H]
    by [W] pixels at address [b], seen as a store of [cap] frames. *)
Definition stream_arena (cap H W b : Z) : SVideo :=
  {| shdr := {| num_frames := cap; channels := 3; height := H; width := W |};
     frames := b |}.

(** The locals of the decode loop after [k] frames, while the arena has
    not been resized. *)
Definition stream_state (cap H W b : Z) (m : block) (k : Z) : decoder :=
  {| svideo := {| shdr := {| num_frames := 0; channels := 3;
                             height := H; width := W |};
                  frames := b |};
     memory_block := m;
     initial_capacity := cap;
     channels_block := b + cap * 8;
     data_block := b + cap * 8 + cap * 3 * 8;
     frame_count := k |}.

(** The frames [Fs] are stored in the arena [m]: their descriptors are
    set and their planes lie in the payload, in order. *)
Definition stored (cap H W b : Z) (Fs : list AVFrame) (m : block) : Prop :=
  ∃ FD CD PX,
    regions (stream_arena cap H W b) m FD CD PX ∧
    (∀ i, 0 ≤ i < Z.of_nat (length Fs) →
          FD !! Z.to_nat i = Some (frame_desc (stream_arena cap H W b) i)) ∧
    (∀ i c, 0 ≤ i < Z.of_nat (length Fs) → 0 ≤ c < 3 →
            CD !! Z.to_nat (i * 3 + c)
            = Some (channel_desc (stream_arena cap H W b) (i * 3 + c))) ∧
    (∀ (i : nat) f c, Fs !! i = Some f → 0 ≤ c < 3 →
            PX !! Z.to_nat (Z.of_nat i * 3 + c) = Some (plane f H W c)).

(** The header [decode_standard_video] gives a video of [n] frames. *)
Definition rgb_header (src : source) (n : Z) : Header :=
  {| num_frames := n; channels := 3;
     height := wrap8 (codec_height src); width := wrap8 (codec_width src) |}.

(** The bytes of an RGB buffer of [L] bytes and line size [ls] written
    before the pixel loops reach pixel [(y, x)], channel [c]: they hold
    the samples of the channels [px 0], [px 1], [px 2]. *)
Definition interleaved (s : SVideo) (ls : Z) (px : Z → list Z) (L : nat)
    (y x c : Z) (data : list Z) : Prop :=
  length data = L ∧
  ∀ y' x' c', 0 ≤ y' < height (shdr s) → 0 ≤ x' < width (shdr s) → 0 ≤ c' < 3 →
    (y' < y ∨ y' = y ∧ (x' < x ∨ x' = x ∧ c' < c)) →
    data !! Z.to_nat (y' * ls + x' * 3 + c')
    = px c' !! Z.to_nat (y' * width (shdr s) + x').

(** The RGB frame [f], handed to the scaler for frame [i] of the store,
    has the line size and the buffer size of the sink and holds the
    first three channels of that frame as its planes. *)
Definition holds_frame (snk : sink) (s : SVideo) (m : block) (i : Z) (f : AVFrame)
  : Prop :=
  linesize f = rgb_linesize snk ∧ length (rgb f) = length (rgb_data snk) ∧
  ∀ c, 0 ≤ c < 3 →
       channel_pixels m s i c
       = Some (plane f (height (shdr s)) (width (shdr s)) c).

(** ** Concrete inputs *)

(** An allocator that always succeeds at [0x1000]; [realloc] moves the
    block up by [0x1000]. *)
Definition moving_allocator : allocator :=
  {| alloc_base := λ _, Some 4096;
     realloc_base := λ old _, Some (old + 4096);
     junk := λ _, 170 |}.

(** The same, with [realloc] growing the block in place. *)
Definition inplace_allocator : allocator :=
  {| alloc_base := λ _, Some 4096;
     realloc_base := λ old _, Some old;
     junk := λ _, 170 |}.

(** The same, with [realloc] failing. *)
Definition failing_realloc : allocator :=
  {| alloc_base := λ _, Some 4096;
     realloc_base := λ _ _, None;
     junk := λ _, 170 |}.

(** An allocator that grants the 24 bytes of a struct and nothing else. *)
Definition struct_only_allocator : allocator :=
  {| alloc_base := λ size, if bool_decide (size = 24) then Some 4096 else None;
     realloc_base := λ _ _, None;
     junk := λ _, 170 |}.

(** The flat store of one frame, one channel, one pixel of value [x]. *)
Definition one_pixel (x : Z) : Video :=
  {| hdr := {| num_frames := 1; channels := 1; height := 1; width := 1 |};
     data := Some [x] |}.

(** The arena of one frame, one channel, one pixel of value [x], laid
    out at [0x1000] as [decode_S] builds it. *)
Definition one_pixel_S : SVideo :=
  {| shdr := {| num_frames := 1; channels := 1; height := 1; width := 1 |};
     frames := 4096 |}.

Definition one_pixel_arena (x : Z) : block :=
  {| base := 4096; bytes := le_bytes 8 4104 ++ le_bytes 8 4112 ++ [x] |}.

(** Two stores of three frames of one byte each, flat and arena. *)
Definition three_frames : Video :=
  {| hdr := {| num_frames := 3; channels := 1; height := 1; width := 1 |};
     data := Some [10; 20; 30] |}.

Definition three_frames_S : SVideo :=
  {| shdr := {| num_frames := 3; channels := 1; height := 1; width := 1 |};
     frames := 4096 |}.

Definition three_frames_arena : block :=
  {| base := 4096;
     bytes := le_bytes 8 4120 ++ le_bytes 8 4128 ++ le_bytes 8 4136
              ++ le_bytes 8 4144 ++ le_bytes 8 4145 ++ le_bytes 8 4146
              ++ [10; 20; 30] |}.

(** An arena of one frame, one channel of 33 pixels, all of value 50:
    one vector batch and a tail of one pixel. *)
Definition batch_and_tail_S : SVideo :=
  {| shdr := {| num_frames := 1; channels := 1; height := 33; width := 1 |};
     frames := 4096 |}.

Definition batch_and_tail_arena (px : list Z) : block :=
  {| base := 4096; bytes := le_bytes 8 4104 ++ le_bytes 8 4112 ++ px |}.

(** A file whose header declares one frame of zero channels, 2 by 2. *)
Definition zero_channel_file : list Z := [1; 0; 0; 0; 0; 0; 0; 0; 0; 2; 2].

(** A file whose header declares one frame, one channel, height 200 and
    width 1, followed by its 200 payload bytes. *)
Definition tall_file : list Z := [1; 0; 0; 0; 0; 0; 0; 0; 1; 200; 1] ++ replicate 200 7.

(** [2.0f] *)
Definition two : spec_float := f32_of_int 2.

(** A 1 by 1 RGB frame. *)
Definition rgb_pixel (r g b : Z) : AVFrame := {| linesize := 3; rgb := [r; g; b] |}.

Definition frame_packet (f : AVFrame) : AVPacket :=
  {| video_stream := true; send_ok := true; receives := [Decoded f] |}.

(** A 1 by 1 source that reports one frame and delivers two. *)
Definition two_frame_source : source :=
  {| setup_error := None; nb_frames := 1; estimate := None;
     codec_width := 1; codec_height := 1; packet_alloc_ok := true;
     packets := [frame_packet (rgb_pixel 10 11 12); frame_packet (rgb_pixel 20 21 22)] |}.

(** A 1 by 1 source whose second packet fails to decode. *)
Definition broken_source : source :=
  {| setup_error := None; nb_frames := 4; estimate := None;
     codec_width := 1; codec_height := 1; packet_alloc_ok := true;
     packets := [frame_packet (rgb_pixel 10 11 12);
                 {| video_stream := true; send_ok := true; receives := [DecodeError] |}] |}.

(** Two stores of one frame of two channels of one pixel, flat and
    arena. *)
Definition two_channels : Video :=
  {| hdr := {| num_frames := 1; channels := 2; height := 1; width := 1 |};
     data := Some [10; 200] |}.

Definition two_channels_S : SVideo :=
  {| shdr := {| num_frames := 1; channels := 2; height := 1; width := 1 |};
     frames := 4096 |}.

Definition two_channels_arena : block :=
  {| base := 4096;
     bytes := le_bytes 8 4104 ++ le_bytes 8 4120 ++ le_bytes 8 4121 ++ [10; 200] |}.

(** A 2 by 1 RGB frame whose line is padded to 8 bytes. *)
Definition padded_frame (r0 g0 b0 r1 g1 b1 : Z) : AVFrame :=
  {| linesize := 8; rgb := [r0; g0; b0; r1; g1; b1; 0; 0] |}.

(** A 2 by 1 source that reports two frames and delivers them. *)
Definition exact_source : source :=
  {| setup_error := None; nb_frames := 2; estimate := None;
     codec_width := 2; codec_height := 1; packet_alloc_ok := true;
     packets := [frame_packet (padded_frame 1 2 3 4 5 6);
                 frame_packet (padded_frame 11 12 13 14 15 16)] |}.

(** An arena of one frame of three channels, 2 pixels wide and 1 high. *)
Definition rgb_S : SVideo :=
  {| shdr := {| num_frames := 1; channels := 3; height := 1; width := 2 |};
     frames := 4096 |}.

Definition rgb_arena : block :=
  {| base := 4096;
     bytes := le_bytes 8 4104
              ++ le_bytes 8 4128 ++ le_bytes 8 4130 ++ le_bytes 8 4132
              ++ [1; 4; 2; 5; 3; 6] |}.

(** A sink whose setup succeeds, with lines of 8 bytes, and whose
    encoder gives one packet per frame. *)
Definition quiet_sink : sink :=
  {| names_given := true; sink_error := None;
     rgb_linesize := 8; rgb_data := replicate 8 0;
     answers := λ _, {| send_frame := 0; receive_packets := [Packet 0] |} |}.

Arguments write_header : simpl never.

(** * Properties *)

Section foldM.
Context {S A : Type}.
Implicit Types (body : S → A → option S) (l : list A).

Lemma foldM_cons body s x l :
  foldM body s (x :: l) = s' ← body s x; foldM body s' l.
Proof. done. Qed.

Lemma foldM_app body s l1 l2 :
  foldM body s (l1 ++ l2) = s' ← foldM body s l1; foldM body s' l2.
Proof.
  revert s. induction l1 as [|x l1 IH]; intros s; simpl; [done|].
  destruct (body s x) as [s'|]; simpl; [apply IH|done].
Qed.

Lemma foldM_ext body1 body2 s l :
  (∀ s x, x ∈ l → body1 s x = body2 s x) →
  foldM body1 s l = foldM body2 s l.
Proof.
  revert s. induction l as [|x l IH]; intros s Hb; simpl; [done|].
  rewrite Hb by left. destruct (body2 s x); simpl; [|done].
  apply IH. intros. apply Hb. by right.
Qed.

Lemma foldM_fmap {B} (f : B → A) body s (l : list B) :
  foldM body s (f <$> l) = foldM (λ s x, body s (f x)) s l.
Proof.
  revert s. induction l as [|x l IH]; intros s; simpl; [done|].
  destruct (body s (f x)); simpl; [apply IH|done].
Qed.

Lemma foldM_bind {B} (f : B → list A) body s (l : list B) :
  foldM body s (l ≫= f) = foldM (λ s x, foldM body s (f x)) s l.
Proof.
  revert s. induction l as [|x l IH]; intros s; simpl; [done|].
  rewrite foldM_app. destruct (foldM body s (f x)); simpl; [apply IH|done].
Qed.
End foldM.

Lemma wrap64_small z : 0 ≤ z < 2 ^ 64 → wrap64 z = z.
Proof. intros. unfold wrap64. by apply Z.mod_small. Qed.

Lemma load_Some d i x : load d i = Some x ↔ 0 ≤ i ∧ d !! Z.to_nat i = Some x.
Proof.
  unfold load. case_bool_decide; [|split; [done|lia]].
  split; [done|]. by intros [_ ?].
Qed.

Lemma load_lookup d (j : nat) : load d (Z.of_nat j) = d !! j.
Proof. unfold load. rewrite bool_decide_true by lia. by rewrite Nat2Z.id. Qed.

Lemma map_at_lookup ks g d (j : nat) :
  map_at ks g d !! j = (λ x, if decide (Z.of_nat j ∈ ks) then g x else x) <$> d !! j.
Proof. unfold map_at. by rewrite list_lookup_imap. Qed.

Lemma map_at_length ks g d : length (map_at ks g d) = length d.
Proof. unfold map_at. by rewrite length_imap. Qed.

Lemma map_at_nil g d : map_at [] g d = d.
Proof.
  apply list_eq. intros j. rewrite map_at_lookup.
  by destruct (d !! j).
Qed.

Lemma modify_Some g d k x :
  0 ≤ k → d !! Z.to_nat k = Some x →
  modify g d k = Some (<[Z.to_nat k := g x]> d).
Proof.
  intros Hk Hx. pose proof (lookup_lt_Some _ _ _ Hx).
  unfold modify, load, store.
  rewrite (bool_decide_true (0 ≤ k)) by done. rewrite Hx. simpl.
  by rewrite bool_decide_true by lia.
Qed.

(** A loop of in-place updates over distinct, in-range offsets rewrites
    exactly those offsets. *)
Lemma foldM_modify g ks d :
  NoDup ks → Forall (λ k, 0 ≤ k < Z.of_nat (length d)) ks →
  foldM (modify g) d ks = Some (map_at ks g d).
Proof.
  revert d. induction ks as [|k ks IH]; intros d Hnd Hin; simpl.
  { by rewrite map_at_nil. }
  apply NoDup_cons in Hnd as [Hk Hnd]. apply Forall_cons in Hin as [Hk' Hin].
  destruct (lookup_lt_is_Some_2 d (Z.to_nat k)) as [x Hx]; [lia|].
  rewrite (modify_Some g d k x) by (done || lia). simpl.
  rewrite IH; [|done|by rewrite length_insert]. f_equal.
  apply list_eq. intros j. rewrite !map_at_lookup.
  destruct (decide (j = Z.to_nat k)) as [->|Hne].
  - rewrite list_lookup_insert_eq by lia. rewrite Hx. simpl.
    rewrite Z2Nat.id by lia.
    destruct (decide (k ∈ ks)); [done|].
    destruct (decide (k ∈ k :: ks)) as [|[]]; [done|left].
  - rewrite list_lookup_insert_ne by done.
    destruct (d !! j); simpl; [|done]. f_equal.
    destruct (decide (Z.of_nat j ∈ ks)) as [Hj|Hj].
    + rewrite decide_True; [done|by right].
    + rewrite decide_False; [done|]. intros [?|?]%elem_of_cons; [lia|done].
Qed.

(** ** The offsets of a channel *)

Lemma elem_of_channel_offsets h c k :
  k ∈ channel_offsets h c ↔
  ∃ f p, 0 ≤ f < num_frames h ∧ 0 ≤ p < height h * width h ∧ k = offset h f c p.
Proof.
  unfold channel_offsets. rewrite list_elem_of_bind. split.
  - intros (f & (p & -> & Hp%elem_of_seqZ)%list_elem_of_fmap & Hf%elem_of_seqZ).
    exists f, p. lia.
  - intros (f & p & Hf & Hp & ->). exists f. split.
    + apply list_elem_of_fmap. exists p. split; [done|]. apply elem_of_seqZ. lia.
    + apply elem_of_seqZ. lia.
Qed.

(** A sample offset determines its frame and its position. *)
Lemma offset_inj h c f1 p1 f2 p2 :
  0 ≤ c < channels h →
  0 ≤ p1 < height h * width h → 0 ≤ p2 < height h * width h →
  offset h f1 c p1 = offset h f2 c p2 → f1 = f2 ∧ p1 = p2.
Proof.
  unfold offset. intros Hc Hp1 Hp2 Heq.
  set (cs := height h * width h) in *.
  assert (c * cs + cs ≤ channels h * cs) by nia.
  replace (channels h * height h * width h) with (channels h * cs) in Heq
    by (unfold cs; ring).
  set (fs := channels h * cs) in *.
  assert (0 ≤ c * cs) by nia.
  assert (f1 = f2) as ->; [|split; [done|lia]].
  destruct (Z.lt_trichotomy f1 f2) as [Hlt|[->|Hlt]]; [|done|].
  - assert (f1 * fs + fs ≤ f2 * fs) by nia. lia.
  - assert (f2 * fs + fs ≤ f1 * fs) by nia. lia.
Qed.

Lemma offset_bounds h c f p :
  0 ≤ c < channels h → 0 ≤ f < num_frames h → 0 ≤ p < height h * width h →
  0 ≤ offset h f c p < num_frames h * (channels h * height h * width h).
Proof.
  unfold offset. intros Hc Hf Hp.
  set (cs := height h * width h) in *.
  assert (c * cs + cs ≤ channels h * cs) by nia.
  replace (channels h * height h * width h) with (channels h * cs)
    by (unfold cs; ring).
  set (fs := channels h * cs) in *.
  assert (0 ≤ c * cs) by nia.
  assert (0 ≤ f * fs) by nia.
  assert (f * fs + fs ≤ num_frames h * fs) by nia.
  lia.
Qed.

Lemma channel_offsets_NoDup h c :
  0 ≤ c < channels h → NoDup (channel_offsets h c).
Proof.
  intros Hc. unfold channel_offsets. apply NoDup_bind; [| |apply NoDup_seqZ].
  - intros f1 f2 k _ _
      (p1 & -> & Hp1%elem_of_seqZ)%list_elem_of_fmap
      (p2 & Heq & Hp2%elem_of_seqZ)%list_elem_of_fmap.
    by apply offset_inj in Heq as [-> _]; [| |lia..].
  - intros f _. apply NoDup_fmap_2_strong; [|apply NoDup_seqZ].
    intros p1 p2 Hp1%elem_of_seqZ Hp2%elem_of_seqZ Heq.
    by apply offset_inj in Heq as [_ ->]; [| |lia..].
Qed.

Lemma channel_offsets_in_range h c n :
  0 ≤ c < channels h →
  n = num_frames h * (channels h * height h * width h) →
  Forall (λ k, 0 ≤ k < n) (channel_offsets h c).
Proof.
  intros Hc ->. apply Forall_forall. intros k (f & p & Hf & Hp & ->)%elem_of_channel_offsets.
  by apply offset_bounds.
Qed.

(** ** [clip_channel] on the flat layout *)

(** The two nested loops of a flat per-channel transform visit exactly
    [channel_offsets]. *)
Lemma flat_channel_loop g v d c :
  wf_video v d → 0 ≤ c < channels (hdr v) →
  foldM (λ d frame_idx,
      foldM (λ d i,
          modify g d
            (wrap64 (frame_idx * (channels (hdr v) * height (hdr v) * width (hdr v))
                     + c * (height (hdr v) * width (hdr v))) + i))
        d (seqZ 0 (height (hdr v) * width (hdr v))))
    d (seqZ 0 (num_frames (hdr v)))
  = Some (map_at (channel_offsets (hdr v) c) g d).
Proof.
  intros Hwf Hc.
  rewrite <- (foldM_modify g (channel_offsets (hdr v) c) d).
  - unfold channel_offsets. rewrite foldM_bind.
    apply foldM_ext. intros d1 f Hf%elem_of_seqZ. simpl.
    rewrite foldM_fmap. apply foldM_ext. intros d2 p Hp%elem_of_seqZ.
    f_equal. unfold offset.
    destruct (Z.eq_dec (height (hdr v) * width (hdr v)) 0) as [Hz|Hz]; [lia|].
    pose proof (offset_bounds (hdr v) c f 0 Hc) as Hb. unfold offset in Hb.
    destruct Hwf. rewrite wrap64_small; lia.
  - by apply channel_offsets_NoDup.
  - destruct Hwf. by apply channel_offsets_in_range.
Qed.

Lemma clip_channel_closed_form v d c lo hi :
  wf_video v d → 0 ≤ c < channels (hdr v) →
  clip_channel (Some v) c lo hi
  = Ok (with_data v (map_at (channel_offsets (hdr v) c) (λ x, CLAMP x lo hi) d)).
Proof.
  intros Hwf Hc. unfold clip_channel. rewrite (wf_data _ _ Hwf).
  rewrite bool_decide_false by lia. cbv zeta.
  by rewrite (flat_channel_loop (λ x, CLAMP x lo hi) v d c).
Qed.

Lemma wf_video_with_data v d d' :
  wf_video v d → length d' = length d → wf_video (with_data v d') d'.
Proof. intros [] Hlen. split; simpl; try done; by rewrite Hlen. Qed.

Lemma CLAMP_bounds x lo hi : lo ≤ hi → lo ≤ CLAMP x lo hi ≤ hi.
Proof. intros. unfold CLAMP. repeat case_match; lia. Qed.

Lemma CLAMP_fixed x lo hi : lo ≤ x ≤ hi → CLAMP x lo hi = x.
Proof. intros. unfold CLAMP. repeat case_match; lia. Qed.

Lemma map_at_idem ks g d :
  (∀ x, g (g x) = g x) → map_at ks g (map_at ks g d) = map_at ks g d.
Proof.
  intros Hg. apply list_eq. intros j. rewrite !map_at_lookup.
  destruct (d !! j); simpl; [|done]. by destruct (decide _); rewrite ?Hg.
Qed.

(** ** C3: boundedness and idempotence of [clip_channel] *)

(** C3 (as amended): for a flat store, a channel index [c < channels] and
    bounds with [lo ≤ hi], [clip_channel] completes, every sample of
    channel [c] then lies in [[lo, hi]], and clipping the result again
    returns the same store. *)
Theorem clip_channel_bounded_idempotent v d c lo hi :
  wf_video v d → 0 ≤ c < channels (hdr v) → lo ≤ hi →
  clip_bounded_idempotent v c lo hi.
Proof.
  intros Hwf Hc Hle.
  set (g := λ x, CLAMP x lo hi).
  set (d' := map_at (channel_offsets (hdr v) c) g d).
  assert (wf_video (with_data v d') d') as Hwf'.
  { apply (wf_video_with_data v d); [done|apply map_at_length]. }
  exists (with_data v d'). split; [by apply clip_channel_closed_form|]. split.
  - intros f p Hf Hp. unfold sample. simpl.
    pose proof (offset_bounds (hdr v) c f p Hc Hf Hp) as Hb.
    destruct (lookup_lt_is_Some_2 d (Z.to_nat (offset (hdr v) f c p))) as [x Hx].
    { destruct Hwf. lia. }
    exists (g x). split; [|by apply CLAMP_bounds].
    apply load_Some. split; [lia|]. unfold d'. rewrite map_at_lookup, Hx. simpl.
    rewrite decide_True; [done|].
    rewrite Z2Nat.id by lia. apply elem_of_channel_offsets. by exists f, p.
  - rewrite (clip_channel_closed_form _ d') by done. simpl.
    unfold d'. rewrite map_at_idem; [done|].
    intros x. apply CLAMP_fixed. by apply CLAMP_bounds.
Qed.

Lemma clip_channel_bounded_idempotent_witness :
  clip_bounded_idempotent (one_pixel 50) 0 100 200.
Proof.
  apply (clip_channel_bounded_idempotent (one_pixel 50) [50] 0 100 200).
  - split; simpl; first [reflexivity | lia].
  - simpl. lia.
  - lia.
Defined.

(** With inverted bounds the clipped sample (200) is outside the empty
    interval [[200, 100]], and a second pass moves it to 100. *)
Lemma clip_channel_inverted_bounds :
  wf_video (one_pixel 50) [50] ∧
  clip_channel (Some (one_pixel 50)) 0 200 100 = Ok (one_pixel 200) ∧
  clip_channel (Some (one_pixel 200)) 0 200 100 = Ok (one_pixel 100) ∧
  ¬ clip_bounded_idempotent (one_pixel 50) 0 200 100.
Proof.
  split; [split; simpl; first [reflexivity | lia]|].
  split; [reflexivity|]. split; [reflexivity|].
  intros (v' & Hrun & Hin & _).
  destruct (Hin 0 0) as (x & _ & Hx); simpl; lia.
Qed.

(** ** C9: [decode] and header values *)

Lemma store_range_all d src :
  length src = length d → store_range d 0 src = Some src.
Proof.
  intros Hlen. unfold store_range. rewrite bool_decide_true by lia. f_equal.
  rewrite <- (app_nil_r d). simpl. rewrite list_inserts_0_r by done.
  apply app_nil_r.
Qed.

Lemma malloc_length al size m :
  malloc al size = Some m → length (bytes m) = Z.to_nat size.
Proof.
  unfold malloc. destruct (alloc_base al size) as [b|]; simpl; [|done].
  case_bool_decide; [|done]. intros [= <-]. simpl.
  by rewrite length_fmap, length_seqZ.
Qed.

Lemma malloc_range al size m :
  malloc al size = Some m → 0 < base m ∧ base m + size < 2 ^ 64.
Proof.
  unfold malloc. destruct (alloc_base al size) as [b|]; simpl; [|done].
  case_bool_decide; [|done]. by intros [= <-].
Qed.

Lemma fread_Some file n :
  0 ≤ n ≤ Z.of_nat (length file) →
  fread file n = Some (take (Z.to_nat n) file, drop (Z.to_nat n) file).
Proof. intros. unfold fread. by rewrite bool_decide_true by lia. Qed.

Lemma wrap64_range z : 0 ≤ wrap64 z < 2 ^ 64.
Proof. unfold wrap64. apply Z.mod_pos_bound. lia. Qed.

(** C9 (as amended): [decode] performs no validation of header values.
    Whenever the file opens, holds a complete header and at least the
    payload the header declares, and both allocations succeed, it
    returns a store carrying the header exactly as read, whatever its
    values are (including [channels = 0]). *)
Theorem decode_accepts_any_header al file h rest buf :
  read_header file = Some (h, rest) →
  is_Some (malloc al 24) →
  malloc al (payload_size h) = Some buf →
  payload_size h ≤ Z.of_nat (length rest) →
  decode al (Some file)
  = Ok {| hdr := h; data := Some (take (Z.to_nat (payload_size h)) rest) |}.
Proof.
  intros Hhdr [sv Hsv] Hbuf Hlen. unfold decode. rewrite Hsv, Hhdr.
  unfold payload_size in *. cbv zeta. rewrite Hbuf.
  pose proof (wrap64_range (channels h * height h * width h * num_frames h)).
  rewrite fread_Some by lia.
  rewrite store_range_all; [done|].
  rewrite (malloc_length _ _ _ Hbuf), length_take. lia.
Qed.

Lemma decode_accepts_any_header_witness :
  decode moving_allocator (Some zero_channel_file)
  = Ok {| hdr := {| num_frames := 1; channels := 0; height := 2; width := 2 |};
          data := Some [] |}.
Proof.
  apply (decode_accepts_any_header moving_allocator zero_channel_file
           {| num_frames := 1; channels := 0; height := 2; width := 2 |} []
           {| base := 4096; bytes := [] |}).
  - reflexivity.
  - eexists. reflexivity.
  - reflexivity.
  - vm_compute. discriminate.
Defined.

(** Two files with a malformed header ([channels = 0]; [height = 200])
    for which [decode] returns a store. *)
Lemma decode_returns_store_for_malformed_header :
  (∃ h rest v,
      read_header zero_channel_file = Some (h, rest) ∧ channels h = 0 ∧
      ¬ valid_header h ∧
      decode moving_allocator (Some zero_channel_file) = Ok v ∧ hdr v = h) ∧
  (∃ h rest v,
      read_header tall_file = Some (h, rest) ∧ height h = 200 ∧
      ¬ valid_header h ∧
      decode moving_allocator (Some tall_file) = Ok v ∧ hdr v = h).
Proof.
  split.
  - eexists _, _, _. split; [reflexivity|]. split; [reflexivity|].
    split; [|split; reflexivity]. unfold valid_header. simpl. lia.
  - eexists _, _, _. split; [reflexivity|]. split; [reflexivity|].
    split; [|split; reflexivity]. unfold valid_header. simpl. lia.
Qed.

(** ** C7: the precondition checks of [swap_channels_S] *)

(** C7: called with a null store, [swap_channels_S] reads
    [video->channels] for its bounds test before it tests [video]: the
    call dereferences the null pointer instead of reporting. *)
Theorem swap_channels_S_null_store m channel1 channel2 :
  swap_channels_S None m channel1 channel2 = Undefined.
Proof. reflexivity. Qed.

(** The flat sibling and the bulk-export sibling test the pointer first. *)
Lemma swap_channels_null_store channel1 channel2 :
  swap_channels None channel1 channel2
  = Reported "Invalid input to swap_channels function.".
Proof. reflexivity. Qed.

Lemma swap_channels_S_wasm_null_store m channel1 channel2 :
  swap_channels_S_wasm None m channel1 channel2 = Ok (-1, m).
Proof. reflexivity. Qed.

(** ** C8: the bulk-export [scale] against the core [scale] *)

(** C8: on the one-pixel arena holding 200, scaled by [2.0f], the core
    transform stores 255.  The bulk-export transform narrows 400.0f to
    [unsigned char] before it clamps: undefined in ISO C, and 144 when
    the conversion keeps the low byte. *)
Theorem scale_channel_S_wasm_differs :
  (∀ nw, scale_channel_S nw (Some one_pixel_S) (one_pixel_arena 200) 0 two
         = Ok (one_pixel_arena 255)) ∧
  scale_channel_S_wasm IsoC (Some one_pixel_S) (one_pixel_arena 200) 0 two
  = Undefined ∧
  scale_channel_S_wasm LowByte (Some one_pixel_S) (one_pixel_arena 200) 0 two
  = Ok (0, one_pixel_arena 144).
Proof.
  split; [intros []; vm_compute; reflexivity|].
  split; vm_compute; reflexivity.
Qed.

(** The same on the sample alone, next to the flat transform. *)
Lemma scale_sample_wasm_differs :
  (∀ nw, scale_sample nw two 200 = Some 255) ∧
  scale_sample_wasm IsoC two 200 = None ∧
  scale_sample_wasm LowByte two 200 = Some 144 ∧
  (∀ nw, scale_channel nw (Some (one_pixel 200)) 0 two = Ok (one_pixel 255)).
Proof.
  split; [intros []; vm_compute; reflexivity|].
  split; [vm_compute; reflexivity|].
  split; [vm_compute; reflexivity|].
  intros []; vm_compute; reflexivity.
Qed.

(** ** C1: growth of the arena during streaming decode *)

(** C1: a source that reports one frame and delivers two, so that the
    arena grows once.  After the growth only the three block pointers
    are recomputed; the descriptor of frame 0, written before the
    growth, is copied as it was.
    - When [realloc] moves the block, frame 0 still refers to address
      [0x1008] of the old block, outside the final allocation, and
      reading its channel fails.
    - When [realloc] grows the block in place, frame 0 refers to the
      cell that now holds the descriptor of frame 1, and its channel 0
      "data" is the address of a channel descriptor, not of pixels. *)
Theorem growth_keeps_stale_descriptors :
  (∃ s m,
      decode_standard_video moving_allocator two_frame_source
      = Some {| returned := Some s; arena := Some m; stderr := [] |} ∧
      num_frames (shdr s) = 2 ∧ base m = 8192 ∧ length (bytes m) = 70%nat ∧
      load_ptr m (frame_at s 0) = Some 4104 ∧
      ¬ inside m 4104 8 ∧
      channel_data m s 0 0 = None ∧
      encode_S true (Some s) m = Undefined) ∧
  (∃ s m,
      decode_standard_video inplace_allocator two_frame_source
      = Some {| returned := Some s; arena := Some m; stderr := [] |} ∧
      num_frames (shdr s) = 2 ∧ base m = 4096 ∧
      load_ptr m (frame_at s 0) = Some (frame_at s 1) ∧
      channel_data m s 0 0 = load_ptr m (frame_at s 1) ∧
      encode_S true (Some s) m
      = Ok (write_header (shdr s) ++ [67; 11; 12; 20; 21; 22])).
Proof.
  split.
  - eexists _, _. split; [vm_compute; reflexivity|].
    repeat split; try (vm_compute; reflexivity).
    unfold inside. simpl. lia.
  - eexists _, _. split; [vm_compute; reflexivity|].
    repeat split; vm_compute; reflexivity.
Qed.

(** ** C10: failures during streaming decode *)

(** C10: when [realloc] fails, or a frame fails to decode, the adapter
    prints its message and jumps to the cleanup code, which returns the
    store as it stands: a non-null [SVideo] with [num_frames = 0] whose
    arena, holding the frames decoded so far, is still allocated. *)
Theorem decode_standard_video_returns_partial_store :
  (∃ s m,
      decode_standard_video failing_realloc two_frame_source
      = Some {| returned := Some s; arena := Some m;
                stderr := ["Error: Could not reallocate memory"] |} ∧
      num_frames (shdr s) = 0 ∧ frames s = base m ∧
      mload_range m (base m + 32) 3 = Some [10; 11; 12]) ∧
  (∃ s m,
      decode_standard_video moving_allocator broken_source
      = Some {| returned := Some s; arena := Some m;
                stderr := ["Error during decoding"] |} ∧
      num_frames (shdr s) = 0 ∧ frames s = base m ∧
      mload_range m (base m + 128) 3 = Some [10; 11; 12]).
Proof.
  split; eexists _, _; (split; [vm_compute; reflexivity|]);
    repeat split; vm_compute; reflexivity.
Qed.

(** The one allocation failure that is handled as documented: when the
    arena itself cannot be allocated, the [SVideo] is freed and [NULL]
    is returned. *)
Lemma decode_standard_video_arena_alloc_failure :
  decode_standard_video struct_only_allocator two_frame_source
  = Some {| returned := None; arena := None;
            stderr := ["Error: Could not allocate memory for frames"] |}.
Proof. vm_compute. reflexivity. Qed.

(** ** Buffers as sequences of records *)

Lemma load_range_app P X R :
  load_range (P ++ X ++ R) (Z.of_nat (length P)) (Z.of_nat (length X)) = Some X.
Proof.
  unfold load_range. rewrite bool_decide_true by (rewrite !length_app; lia).
  rewrite !Nat2Z.id, drop_app_length, take_app_length. done.
Qed.

Lemma store_range_app P X X' R :
  length X' = length X →
  store_range (P ++ X ++ R) (Z.of_nat (length P)) X' = Some (P ++ X' ++ R).
Proof.
  intros Hlen. unfold store_range.
  rewrite bool_decide_true by (rewrite !length_app; lia).
  rewrite Nat2Z.id. f_equal.
  rewrite <- (Nat.add_0_r (length P)), list_inserts_app_r.
  by rewrite list_inserts_0_r.
Qed.

Lemma chunked_length sz L :
  chunked sz L → Z.of_nat (length (concat L)) = Z.of_nat (length L) * sz.
Proof.
  induction 1 as [|c L Hc _ IH]; simpl; [lia|]. rewrite length_app. lia.
Qed.

Lemma chunked_insert sz L i c :
  chunked sz L → Z.of_nat (length c) = sz → chunked sz (<[i:=c]> L).
Proof. intros HL Hc. by apply Forall_insert. Qed.

Lemma chunked_lookup sz L i c :
  chunked sz L → L !! i = Some c → Z.of_nat (length c) = sz.
Proof. intros HL Hi. by apply (Forall_lookup_1 _ _ _ _ HL Hi). Qed.

(** Where record [i] lies: after [P] and the [i] records before it. *)
Lemma chunk_position sz P L R i c :
  chunked sz L → L !! i = Some c →
  P ++ concat L ++ R
  = (P ++ concat (take i L)) ++ c ++ (concat (drop (S i) L) ++ R) ∧
  Z.of_nat (length (P ++ concat (take i L))) = Z.of_nat (length P) + Z.of_nat i * sz.
Proof.
  intros HL Hi. split.
  - rewrite <- (take_drop_middle L i c Hi) at 1.
    rewrite concat_app. simpl. by rewrite <- !app_assoc.
  - rewrite length_app, Nat2Z.inj_add.
    rewrite (chunked_length sz) by by apply Forall_take.
    rewrite length_take_le; [done|]. apply lookup_lt_Some in Hi. lia.
Qed.

Lemma load_chunk sz P L R i c :
  chunked sz L → L !! i = Some c →
  load_range (P ++ concat L ++ R) (Z.of_nat (length P) + Z.of_nat i * sz) sz = Some c.
Proof.
  intros HL Hi. destruct (chunk_position sz P L R i c HL Hi) as [-> <-].
  rewrite <- (chunked_lookup sz L i c HL Hi). apply load_range_app.
Qed.

Lemma store_chunk sz P L R i c c' :
  chunked sz L → L !! i = Some c → Z.of_nat (length c') = sz →
  store_range (P ++ concat L ++ R) (Z.of_nat (length P) + Z.of_nat i * sz) c'
  = Some (P ++ concat (<[i:=c']> L) ++ R).
Proof.
  intros HL Hi Hc'. destruct (chunk_position sz P L R i c HL Hi) as [Heq <-].
  rewrite Heq. rewrite store_range_app.
  - f_equal. rewrite insert_take_drop by (by apply lookup_lt_Some in Hi).
    rewrite concat_app. simpl. by rewrite <- !app_assoc.
  - apply (chunked_lookup sz L i c HL) in Hi. lia.
Qed.

(** The three [memcpy] calls exchange records [i] and [j]. *)
Lemma swap_chunks sz P L R i j ci cj :
  chunked sz L → L !! i = Some ci → L !! j = Some cj →
  swap_ranges sz (P ++ concat L ++ R)
    (Z.of_nat (length P) + Z.of_nat i * sz) (Z.of_nat (length P) + Z.of_nat j * sz)
  = Some (P ++ concat (<[j:=ci]> (<[i:=cj]> L)) ++ R).
Proof.
  intros HL Hi Hj. unfold swap_ranges.
  rewrite (load_chunk sz P L R i ci), (load_chunk sz P L R j cj) by done. simpl.
  rewrite (store_chunk sz P L R i ci cj) by eauto using chunked_lookup. simpl.
  destruct (lookup_lt_is_Some_2 (<[i:=cj]> L) j) as [c Hc].
  { rewrite length_insert. by apply lookup_lt_Some in Hj. }
  apply (store_chunk sz P _ R j c); [|done|by eapply chunked_lookup].
  eapply chunked_insert; [done|]. by eapply chunked_lookup.
Qed.

(** Every buffer of [n * sz] bytes is a sequence of [n] records. *)
Lemma chunks_exist sz (n : nat) d :
  0 ≤ sz → Z.of_nat (length d) = Z.of_nat n * sz →
  ∃ L, d = concat L ∧ chunked sz L ∧ length L = n.
Proof.
  intros Hsz. revert d. induction n as [|n IH]; intros d Hlen.
  { exists []. destruct d; [|simpl in Hlen; lia]. by repeat constructor. }
  destruct (IH (drop (Z.to_nat sz) d)) as (L & HL & Hch & Hn).
  { rewrite length_drop. lia. }
  exists (take (Z.to_nat sz) d :: L). split; [|split].
  - simpl. by rewrite <- HL, take_drop.
  - constructor; [|done]. rewrite length_take. nia.
  - simpl. by rewrite Hn.
Qed.

(** Induction from both ends of a list. *)
Lemma list_ends_ind {A} (P : list A → Prop) :
  P [] → (∀ x, P [x]) → (∀ x l y, P l → P (x :: l ++ [y])) → ∀ l, P l.
Proof.
  intros Hnil Hone Hends l.
  remember (length l) as n eqn:Hn. revert l Hn.
  induction n as [n IH] using lt_wf_ind. intros l Hn.
  destruct l as [|x l]; [done|].
  destruct (decide (l = [])) as [->|Hne]; [done|].
  destruct (exists_last Hne) as (l' & y & ->).
  apply Hends. apply (IH (length l')); [|done].
  simpl in Hn. rewrite length_app in Hn. simpl in Hn. lia.
Qed.

(** ** Reversal *)

(** The reversal loop over a run of [sz]-byte records lying between [P]
    and [R] leaves the records in reverse order and [P], [R] as they
    were. *)
Lemma reverse_loop sz L : ∀ P R,
  chunked sz L →
  foldM (λ d i,
      swap_ranges sz d
        (Z.of_nat (length P) + i * sz)
        (Z.of_nat (length P) + (Z.of_nat (length L) - 1 - i) * sz))
    (P ++ concat L ++ R) (seqZ 0 (Z.of_nat (length L) `quot` 2))
  = Some (P ++ concat (list.reverse L) ++ R).
Proof.
  induction L as [|x|x l y IH] using list_ends_ind; intros P R HL; [done..|].
  apply Forall_cons in HL as [Hx HL]. apply Forall_app in HL as [Hl Hy].
  rewrite Forall_singleton in Hy.
  assert (chunked sz (x :: l ++ [y])) as HL.
  { constructor; [done|]. apply Forall_app. split; [done|]. by constructor. }
  assert (length (x :: l ++ [y]) = S (S (length l))) as Hlen.
  { simpl. rewrite length_app. simpl. lia. }
  rewrite Hlen.
  assert (Z.of_nat (S (S (length l))) `quot` 2
          = Z.succ (Z.of_nat (length l) `quot` 2)) as ->.
  { rewrite !Z.quot_div_nonneg by lia.
    replace (Z.of_nat (S (S (length l)))) with (Z.of_nat (length l) + 1 * 2) by lia.
    rewrite Z.div_add by lia. lia. }
  rewrite seqZ_cons by (pose proof (Z.quot_pos (Z.of_nat (length l)) 2); lia).
  rewrite Z.pred_succ, foldM_cons.
  replace (Z.of_nat (length P) + 0 * sz)
    with (Z.of_nat (length P) + Z.of_nat 0 * sz) by lia.
  replace (Z.of_nat (length P) + (Z.of_nat (S (S (length l))) - 1 - 0) * sz)
    with (Z.of_nat (length P) + Z.of_nat (S (length l)) * sz) by lia.
  rewrite (swap_chunks sz P (x :: l ++ [y]) R 0 (S (length l)) x y); [|done..|].
  2:{ simpl. by rewrite lookup_app_r, Nat.sub_diag. }
  replace (<[S (length l):=x]> (<[0%nat:=y]> (x :: l ++ [y]))) with (y :: l ++ [x]).
  2:{ simpl. f_equal. rewrite <- (Nat.add_0_r (length l)), insert_app_r. done. }
  simpl. rewrite <- (Z.add_1_l 0), <- fmap_add_seqZ, foldM_fmap.
  rewrite reverse_cons, reverse_app. simpl.
  specialize (IH (P ++ y) (x ++ R) Hl).
  rewrite !concat_app. simpl. rewrite !app_nil_r.
  repeat rewrite <- app_assoc in IH. repeat rewrite <- app_assoc.
  rewrite <- IH. apply foldM_ext. intros d i _.
  rewrite !length_app. f_equal; lia.
Qed.

Lemma frame_of_chunk v L (i : nat) c :
  data v = Some (concat L) →
  chunked (channels (hdr v) * height (hdr v) * width (hdr v)) L →
  L !! i = Some c →
  frame_of v (Z.of_nat i) = Some c.
Proof.
  intros Hd HL Hi. unfold frame_of. rewrite Hd. simpl.
  pose proof (load_chunk _ [] L [] i c HL Hi) as Hload.
  simpl in Hload. by rewrite app_nil_r in Hload.
Qed.

Lemma reverse_flat al v d L :
  wf_video v d →
  is_Some (malloc al (channels (hdr v) * height (hdr v) * width (hdr v))) →
  d = concat L →
  chunked (channels (hdr v) * height (hdr v) * width (hdr v)) L →
  Z.of_nat (length L) = num_frames (hdr v) →
  reverse al (Some v) = Ok (with_data v (concat (list.reverse L))).
Proof.
  intros Hwf [buf Hbuf] -> HL Hn. unfold reverse.
  rewrite (wf_data _ _ Hwf). cbv zeta. rewrite Hbuf.
  set (fs := channels (hdr v) * height (hdr v) * width (hdr v)) in *.
  pose proof (reverse_loop fs L [] [] HL) as Hloop.
  simpl in Hloop. rewrite !app_nil_r in Hloop.
  rewrite <- Hn.
  erewrite foldM_ext; [rewrite Hloop; done|].
  intros d i Hi%elem_of_seqZ. simpl.
  assert (0 ≤ fs).
  { destruct Hwf. unfold fs. nia. }
  assert (Z.of_nat (length L) * fs < 2 ^ 64).
  { destruct Hwf. rewrite Hn. fold fs in wf_length0. lia. }
  assert (Z.of_nat (length L) `quot` 2 ≤ Z.of_nat (length L)).
  { rewrite Z.quot_div_nonneg by lia. apply Z.div_le_upper_bound; lia. }
  rewrite !wrap64_small; [done|nia..].
Qed.

(** ** The arena as a block *)

Lemma with_bytes_bytes m : with_bytes m (bytes m) = m.
Proof. by destruct m. Qed.

(** A loop that only rewrites the content of the block. *)
Lemma foldM_with_bytes {A} (f : Z → list Z → A → option (list Z)) m (l : list A) :
  foldM (λ m x, with_bytes m <$> f (base m) (bytes m) x) m l
  = with_bytes m <$> foldM (f (base m)) (bytes m) l.
Proof.
  revert m. induction l as [|x l IH]; intros m; simpl.
  { by rewrite with_bytes_bytes. }
  destruct (f (base m) (bytes m) x) as [d|]; simpl; [|done]. by rewrite IH.
Qed.

(** Reads beyond offset [k] only see the bytes beyond [k]. *)
Lemma load_range_beyond d d' (k : nat) off len :
  length d = length d' → drop k d = drop k d' → Z.of_nat k ≤ off →
  load_range d off len = load_range d' off len.
Proof.
  intros Hlen Hdrop Hk. unfold load_range. rewrite Hlen.
  case_bool_decide; [|done]. f_equal. f_equal.
  replace (Z.to_nat off) with (k + (Z.to_nat off - k))%nat by lia.
  by rewrite <- !drop_drop, Hdrop.
Qed.

Lemma load_ptr_beyond m m' (k : nat) a :
  base m = base m' → length (bytes m) = length (bytes m') →
  drop k (bytes m) = drop k (bytes m') → Z.of_nat k ≤ a - base m →
  load_ptr m a = load_ptr m' a.
Proof.
  intros Hb Hlen Hdrop Hk. unfold load_ptr, mload_range. rewrite <- Hb.
  by rewrite (load_range_beyond _ (bytes m') k).
Qed.

(** The Frame Descriptor region as a sequence of 8-byte records. *)
Lemma frame_region s m :
  wf_arena s m →
  ∃ FD rest, bytes m = concat FD ++ rest ∧ chunked 8 FD ∧
             Z.of_nat (length FD) = num_frames (shdr s).
Proof.
  intros Hwf. set (n := num_frames (shdr s)).
  assert (0 ≤ n * channels (shdr s)) by (destruct Hwf; nia).
  assert (0 ≤ n * channels (shdr s) * (height (shdr s) * width (shdr s)))
    by (destruct Hwf; nia).
  destruct (chunks_exist 8 (Z.to_nat n) (take (Z.to_nat (n * 8)) (bytes m)))
    as (FD & HFD & Hch & Hlen); [lia| |].
  { rewrite length_take. destruct Hwf. fold n in wfa_length0. lia. }
  exists FD, (drop (Z.to_nat (n * 8)) (bytes m)).
  split; [by rewrite <- HFD, take_drop|]. split; [done|].
  destruct Hwf. lia.
Qed.

Lemma reverse_S_regions s m FD rest :
  frames s = base m → base m ≠ 0 →
  bytes m = concat FD ++ rest → chunked 8 FD →
  Z.of_nat (length FD) = num_frames (shdr s) →
  reverse_S (Some s) m = Ok (with_bytes m (concat (list.reverse FD) ++ rest)).
Proof.
  intros Hfr Hb Hm HFD Hn. unfold reverse_S.
  rewrite bool_decide_false by congruence.
  rewrite (foldM_with_bytes
             (λ b d i, swap_ranges 8 d (frame_at s i - b)
                         (frame_at s (num_frames (shdr s) - 1 - i) - b))).
  pose proof (reverse_loop 8 FD [] rest HFD) as Hloop. simpl in Hloop.
  rewrite Hm, <- Hn.
  erewrite foldM_ext; [rewrite Hloop; done|].
  intros d i _. simpl. unfold frame_at. rewrite Hfr. f_equal; lia.
Qed.

Lemma frame_desc_chunk s m FD rest (i : nat) c :
  frames s = base m → bytes m = concat FD ++ rest → chunked 8 FD →
  FD !! i = Some c →
  mload_range m (frame_at s (Z.of_nat i)) 8 = Some c.
Proof.
  intros Hfr Hm HFD Hi. unfold mload_range, frame_at. rewrite Hfr, Hm.
  pose proof (load_chunk 8 [] FD rest i c HFD Hi) as Hload. simpl in Hload.
  rewrite <- Hload. f_equal. lia.
Qed.

Lemma load_range_is_Some d off len :
  0 ≤ off → 0 ≤ len → off + len ≤ Z.of_nat (length d) →
  is_Some (load_range d off len).
Proof. intros. unfold load_range. rewrite bool_decide_true by lia. eauto. Qed.

(** Following the descriptors of a well-formed arena always succeeds. *)
Lemma channel_pixels_wf s m i c :
  wf_arena s m →
  0 ≤ i < num_frames (shdr s) → 0 ≤ c < channels (shdr s) →
  let n := num_frames (shdr s) in
  let C := channels (shdr s) in
  let fs := height (shdr s) * width (shdr s) in
  ∃ j k px,
    0 ≤ j < n ∧ 0 ≤ k < n * C ∧
    load_ptr m (frame_at s i) = Some (base m + n * 8 + j * C * 8) ∧
    load_ptr m (base m + n * 8 + (j * C + c) * 8)
    = Some (base m + n * 8 + n * C * 8 + k * fs) ∧
    mload_range m (base m + n * 8 + n * C * 8 + k * fs) fs = Some px ∧
    channel_pixels m s i c = Some px.
Proof.
  intros Hwf Hi Hc n C fs.
  destruct (wfa_frame_desc s m Hwf i Hi) as (j & Hj & Hfd). fold n C in Hj, Hfd.
  assert (0 ≤ j * C + c < n * C) as Hjc by nia.
  destruct (wfa_channel_desc s m Hwf (j * C + c) Hjc) as (k & Hk & Hcd).
  fold n C fs in Hk, Hcd.
  assert (0 ≤ fs) by (destruct Hwf; unfold fs; nia).
  destruct (load_range_is_Some (bytes m) (n * 8 + n * C * 8 + k * fs) fs)
    as [px Hpx]; [nia|done| |].
  { destruct Hwf. fold n C fs in wfa_length0. nia. }
  exists j, k, px. split; [done|]. split; [done|]. split; [done|]. split; [done|].
  assert (mload_range m (base m + n * 8 + n * C * 8 + k * fs) fs = Some px) as Hpx'.
  { unfold mload_range. rewrite <- Hpx. f_equal. lia. }
  split; [done|].
  unfold channel_pixels, channel_data, channel_at. rewrite Hfd. simpl.
  replace (base m + n * 8 + j * C * 8 + c * 8)
    with (base m + n * 8 + (j * C + c) * 8) by lia.
  rewrite Hcd. simpl. done.
Qed.

(** ** C6: [reverse] and [reverse_S] *)

Lemma reverse_nil_or_singleton {A} (l : list A) :
  (length l ≤ 1)%nat → list.reverse l = l.
Proof. destruct l as [|x [|y l]]; simpl; [done..|lia]. Qed.

(** C6: [reverse] exchanges frame [i] with frame [n − 1 − i]; the middle
    frame of an odd count stays, and nothing changes when [n ≤ 1].
    [reverse_S] exchanges only the 8-byte Frame Descriptor records: no
    byte beyond the Frame Descriptor region changes, and the pixels of
    frame [i], read through the descriptors, are those frame
    [n − 1 − i] had. *)
Theorem reverse_exchanges_frames al v d s m :
  wf_video v d →
  is_Some (malloc al (channels (hdr v) * height (hdr v) * width (hdr v))) →
  wf_arena s m →
  (∃ d',
      reverse al (Some v) = Ok (with_data v d') ∧
      length d' = length d ∧
      (∀ i, 0 ≤ i < num_frames (hdr v) →
            ∃ fr, frame_of (with_data v d') i = Some fr ∧
                  frame_of v (num_frames (hdr v) - 1 - i) = Some fr) ∧
      (∀ i, num_frames (hdr v) = 2 * i + 1 →
            frame_of (with_data v d') i = frame_of v i) ∧
      (num_frames (hdr v) ≤ 1 → d' = d)) ∧
  (∃ m',
      reverse_S (Some s) m = Ok m' ∧
      base m' = base m ∧ length (bytes m') = length (bytes m) ∧
      (∀ i, 0 ≤ i < num_frames (shdr s) →
            ∃ fd, mload_range m' (frame_at s i) 8 = Some fd ∧
                  mload_range m (frame_at s (num_frames (shdr s) - 1 - i)) 8 = Some fd) ∧
      drop (Z.to_nat (num_frames (shdr s) * 8)) (bytes m')
      = drop (Z.to_nat (num_frames (shdr s) * 8)) (bytes m) ∧
      (∀ i c, 0 ≤ i < num_frames (shdr s) → 0 ≤ c < channels (shdr s) →
              ∃ px, channel_pixels m' s i c = Some px ∧
                    channel_pixels m s (num_frames (shdr s) - 1 - i) c = Some px) ∧
      (num_frames (shdr s) ≤ 1 → m' = m)).
Proof.
  intros Hwf Hbuf Hwfa. split.
  - set (n := num_frames (hdr v)).
    set (fs := channels (hdr v) * height (hdr v) * width (hdr v)) in *.
    assert (0 ≤ fs) by (destruct Hwf; unfold fs; nia).
    destruct (chunks_exist fs (Z.to_nat n) d) as (L & -> & HL & Hlen); [done| |].
    { destruct Hwf. fold fs n in wf_length0. lia. }
    assert (Z.of_nat (length L) = n) as HlenZ by (destruct Hwf; lia).
    assert (∀ i, 0 ≤ i < n →
              ∃ fr, frame_of (with_data v (concat (list.reverse L))) i = Some fr ∧
                    frame_of v (n - 1 - i) = Some fr) as Hex.
    { intros i Hi.
      destruct (lookup_lt_is_Some_2 L (Z.to_nat (n - 1 - i))) as [fr Hfr]; [lia|].
      exists fr. split.
      - replace i with (Z.of_nat (Z.to_nat i)) by lia.
        apply (frame_of_chunk _ (list.reverse L)); [done|by apply Forall_reverse|].
        rewrite reverse_lookup by lia. rewrite <- Hfr. f_equal. lia.
      - replace (n - 1 - i) with (Z.of_nat (Z.to_nat (n - 1 - i))) by lia.
        apply (frame_of_chunk _ L); [by destruct Hwf|done..]. }
    exists (concat (list.reverse L)).
    split; [by apply (reverse_flat al v (concat L))|].
    split.
    { apply Nat2Z.inj. rewrite !(chunked_length fs), length_reverse;
        [done|done|by apply Forall_reverse]. }
    split; [done|]. split.
    + intros i Hodd. destruct (Hex i) as (fr & -> & Hfr); [lia|].
      rewrite <- Hfr. f_equal. lia.
    + intros Hn. rewrite reverse_nil_or_singleton; [done|lia].
  - destruct (frame_region s m Hwfa) as (FD & rest & Hm & HFD & Hn).
    set (n := num_frames (shdr s)) in *.
    pose proof (wfa_frames s m Hwfa) as Hfr.
    pose proof (wfa_base s m Hwfa) as Hbase.
    set (m' := with_bytes m (concat (list.reverse FD) ++ rest)).
    assert (length (bytes m') = length (bytes m)) as Hlen.
    { simpl. rewrite Hm, !length_app. f_equal. apply Nat2Z.inj.
      rewrite !(chunked_length 8), length_reverse;
        [done|done|by apply Forall_reverse]. }
    assert (Z.of_nat (length (concat FD)) = n * 8) as HlenFD.
    { rewrite (chunked_length 8) by done. lia. }
    assert (Z.of_nat (length (concat (list.reverse FD))) = n * 8) as HlenFD'.
    { rewrite (chunked_length 8) by (by apply Forall_reverse).
      rewrite length_reverse. lia. }
    assert (drop (Z.to_nat (n * 8)) (bytes m') = drop (Z.to_nat (n * 8)) (bytes m))
      as Hdrop.
    { simpl. rewrite Hm.
      rewrite !drop_app_length'; [done|lia..]. }
    assert (∀ i, 0 ≤ i < n →
              ∃ fd, mload_range m' (frame_at s i) 8 = Some fd ∧
                    mload_range m (frame_at s (n - 1 - i)) 8 = Some fd) as Hfd.
    { intros i Hi.
      destruct (lookup_lt_is_Some_2 FD (Z.to_nat (n - 1 - i))) as [fd Hfd]; [lia|].
      exists fd. split.
      - replace i with (Z.of_nat (Z.to_nat i)) by lia.
        apply (frame_desc_chunk s m' (list.reverse FD) rest);
          [done|done|by apply Forall_reverse|].
        rewrite reverse_lookup by lia. rewrite <- Hfd. f_equal. lia.
      - replace (n - 1 - i) with (Z.of_nat (Z.to_nat (n - 1 - i))) by lia.
        by apply (frame_desc_chunk s m FD rest). }
    exists m'. split; [by apply reverse_S_regions; [|lia|..]|].
    split; [done|]. split; [done|]. split; [done|]. split; [done|]. split.
    + intros i c Hi Hc.
      destruct (channel_pixels_wf s m (n - 1 - i) c Hwfa) as
        (j & k & px & Hj & Hk & Hfdm & Hcd & Hpx & Hcp); [lia|done|].
      fold n in Hj, Hk, Hfdm, Hcd, Hpx.
      exists px. split; [|done].
      destruct (Hfd i Hi) as (fd & Hfd1 & Hfd2).
      assert (0 ≤ n * channels (shdr s)) by (destruct Hwfa; nia).
      assert (0 ≤ k * (height (shdr s) * width (shdr s))) by (destruct Hwfa; nia).
      assert (load_ptr m' (frame_at s i)
              = Some (base m + n * 8 + j * channels (shdr s) * 8)) as Hfdm'.
      { unfold load_ptr in *. rewrite Hfd1. by rewrite Hfd2 in Hfdm. }
      unfold channel_pixels, channel_data, channel_at.
      rewrite Hfdm'. simpl.
      replace (base m + n * 8 + j * channels (shdr s) * 8 + c * 8)
        with (base m + n * 8 + (j * channels (shdr s) + c) * 8) by lia.
      assert (0 ≤ j * channels (shdr s) + c) by nia.
      rewrite (load_ptr_beyond m' m (Z.to_nat (n * 8))); [|done..|simpl; lia].
      rewrite Hcd. simpl. unfold mload_range.
      rewrite (load_range_beyond _ (bytes m) (Z.to_nat (n * 8))); [done..|].
      simpl. lia.
    + intros Hle. unfold m'. rewrite reverse_nil_or_singleton by lia.
      rewrite <- Hm. apply with_bytes_bytes.
Qed.

Lemma three_frames_wf : wf_video three_frames [10; 20; 30].
Proof. split; simpl; first [reflexivity | lia]. Qed.

Lemma three_frames_arena_wf : wf_arena three_frames_S three_frames_arena.
Proof.
  split; simpl; try first [reflexivity | lia].
  - intros i Hi. assert (i = 0 ∨ i = 1 ∨ i = 2) as [->|[->| ->]] by lia.
    + exists 0. split; [lia|]. vm_compute. reflexivity.
    + exists 1. split; [lia|]. vm_compute. reflexivity.
    + exists 2. split; [lia|]. vm_compute. reflexivity.
  - intros j Hj. assert (j = 0 ∨ j = 1 ∨ j = 2) as [->|[->| ->]] by lia.
    + exists 0. split; [lia|]. vm_compute. reflexivity.
    + exists 1. split; [lia|]. vm_compute. reflexivity.
    + exists 2. split; [lia|]. vm_compute. reflexivity.
Qed.

Lemma reverse_exchanges_frames_witness :
  ∃ d' m',
    reverse moving_allocator (Some three_frames) = Ok (with_data three_frames d') ∧
    frame_of (with_data three_frames d') 0 = frame_of three_frames 2 ∧
    reverse_S (Some three_frames_S) three_frames_arena = Ok m' ∧
    channel_pixels m' three_frames_S 0 0
    = channel_pixels three_frames_arena three_frames_S 2 0.
Proof.
  destruct (reverse_exchanges_frames moving_allocator three_frames [10; 20; 30]
              three_frames_S three_frames_arena)
    as [(d' & Hflat & _ & Hfr & _) (m' & Harena & _ & _ & _ & _ & Hpx & _)].
  - exact three_frames_wf.
  - eexists. vm_compute. reflexivity.
  - exact three_frames_arena_wf.
  - exists d', m'. split; [exact Hflat|]. split.
    + destruct (Hfr 0) as (fr & -> & Hfr2); [simpl; lia|]. by rewrite <- Hfr2.
    + split; [exact Harena|].
      destruct (Hpx 0 0) as (px & -> & Hpx2); [simpl; lia..|]. by rewrite <- Hpx2.
Defined.

(** ** Integers as bytes *)

Lemma le_bytes_length n z : length (le_bytes n z) = n.
Proof. revert z. induction n as [|n IH]; intros z; simpl; [done|]. by rewrite IH. Qed.

Lemma le_value_bytes n z : le_value (le_bytes n z) = z mod 256 ^ Z.of_nat n.
Proof.
  revert z. induction n as [|n IH]; intros z.
  { simpl. by rewrite Z.mod_1_r. }
  cbn [le_bytes le_value]. rewrite IH.
  rewrite Nat2Z.inj_succ, Z.pow_succ_r by lia.
  rewrite Z.rem_mul_r by lia. done.
Qed.

Lemma le_value_ptr p : 0 ≤ p < 2 ^ 64 → le_value (le_bytes 8 p) = p.
Proof. intros. rewrite le_value_bytes. by apply Z.mod_small. Qed.

Lemma le_value_uchar c : 0 ≤ c < 256 → le_value (le_bytes 1 c) = c.
Proof. intros. rewrite le_value_bytes. by apply Z.mod_small. Qed.

Lemma to_long_bytes n : - 2 ^ 63 ≤ n < 2 ^ 63 → to_long (le_value (le_bytes 8 n)) = n.
Proof.
  intros Hn. rewrite le_value_bytes. unfold to_long.
  change (256 ^ Z.of_nat 8) with (2 ^ 64).
  destruct (Z.ltb_spec n 0).
  - rewrite <- (Z.mod_add n 1) by lia. rewrite Z.mod_small by lia.
    destruct (Z.ltb_spec (n + 1 * 2 ^ 64) (2 ^ 63)); lia.
  - rewrite Z.mod_small by lia. destruct (Z.ltb_spec n (2 ^ 63)); lia.
Qed.

Lemma fread_app A B :
  fread (A ++ B) (Z.of_nat (length A)) = Some (A, B).
Proof.
  unfold fread. rewrite bool_decide_true by (rewrite length_app; lia).
  by rewrite Nat2Z.id, take_app_length, drop_app_length.
Qed.

Lemma fread_le_bytes n z B :
  fread (le_bytes n z ++ B) (Z.of_nat n) = Some (le_bytes n z, B).
Proof. rewrite <- (le_bytes_length n z) at 2. apply fread_app. Qed.

(** Reading back a header that was written. *)
Lemma read_write_header h rest :
  - 2 ^ 63 ≤ num_frames h < 2 ^ 63 →
  0 ≤ channels h < 256 → 0 ≤ height h < 256 → 0 ≤ width h < 256 →
  read_header (write_header h ++ rest) = Some (h, rest).
Proof.
  intros Hn Hc Hh Hw. unfold read_header, write_header.
  rewrite <- !app_assoc.
  rewrite (fread_le_bytes 8). cbn [mbind option_bind].
  rewrite (fread_le_bytes 1). cbn [mbind option_bind].
  rewrite (fread_le_bytes 1). cbn [mbind option_bind].
  rewrite (fread_le_bytes 1). cbn [mbind option_bind].
  rewrite to_long_bytes, !le_value_uchar by done. by destruct h.
Qed.

(** ** The codec on the flat layout *)

Lemma load_range_all d : load_range d 0 (Z.of_nat (length d)) = Some d.
Proof.
  unfold load_range. rewrite bool_decide_true by lia.
  by rewrite Nat2Z.id, drop_0, firstn_all.
Qed.

Lemma wf_video_payload_size v d :
  wf_video v d → payload_size (hdr v) = Z.of_nat (length d).
Proof.
  intros [_ _ _ _ _ Hlen Hfits]. unfold payload_size.
  rewrite wrap64_small; lia.
Qed.

Lemma encode_flat v d :
  wf_video v d → encode true (Some v) = Ok (write_header (hdr v) ++ d).
Proof.
  intros Hwf. unfold encode. simpl. rewrite (wf_data _ _ Hwf). simpl.
  fold (payload_size (hdr v)). rewrite (wf_video_payload_size v d Hwf).
  by rewrite load_range_all.
Qed.

Lemma decode_encode_flat al v d :
  wf_video v d →
  is_Some (malloc al 24) → is_Some (malloc al (payload_size (hdr v))) →
  decode al (Some (write_header (hdr v) ++ d)) = Ok v.
Proof.
  intros Hwf [sv Hsv] [buf Hbuf].
  pose proof (wf_video_payload_size v d Hwf) as Hsize.
  unfold decode. rewrite Hsv, read_write_header by (destruct Hwf; lia).
  cbv zeta. fold (payload_size (hdr v)). rewrite Hbuf, Hsize.
  rewrite <- (app_nil_r d) at 1. rewrite fread_app.
  rewrite store_range_all.
  - destruct Hwf as [Hd _ _ _ _ _ _]. destruct v. simpl in *. by rewrite Hd.
  - rewrite (malloc_length _ _ _ Hbuf), Hsize. lia.
Qed.

(** ** [encode_S] writes the payload read through the descriptors *)

Lemma foldM_append {A} (f : A → option (list Z)) out (l : list A) :
  foldM (λ out x, px ← f x; Some (out ++ px)) out l
  = pxs ← mapM f l; Some (out ++ concat pxs).
Proof.
  revert out. induction l as [|x l IH]; intros out; simpl.
  { by rewrite app_nil_r. }
  destruct (f x) as [px|]; simpl; [|done]. rewrite IH.
  destruct (mapM f l) as [pxs|]; simpl; [|done]. by rewrite app_assoc.
Qed.

Lemma encode_S_closed_form s m :
  encode_S true (Some s) m
  = run (P ← payload_S m s; Some (write_header (shdr s) ++ P)).
Proof.
  unfold encode_S, payload_S. cbn [negb]. f_equal.
  transitivity (pxs ← mapM (λ ic, channel_pixels m s ic.1 ic.2) (slots (shdr s));
                Some (write_header (shdr s) ++ concat pxs)).
  2:{ by destruct (mapM _ _). }
  rewrite <- (foldM_append (λ ic, channel_pixels m s ic.1 ic.2)).
  unfold slots. rewrite foldM_bind. apply foldM_ext. intros out i _.
  rewrite foldM_fmap. apply foldM_ext. intros out' c _. simpl.
  unfold channel_pixels, channel_data.
  destruct (channel_at m (frame_at s i) c) as [ch|]; simpl; [|done].
  by destruct (load_ptr m ch).
Qed.

(** ** Reading and writing the three regions of an arena *)

Section regions.
Context (s : SVideo).
Local Notation "'n'" := (num_frames (shdr s)).
Local Notation "'C'" := (channels (shdr s)).
Local Notation "'fs'" := (height (shdr s) * width (shdr s)).

Lemma regions_load_frame m FD CD PX i c :
  regions s m FD CD PX → 0 ≤ i → FD !! Z.to_nat i = Some c →
  mload_range m (frame_at s i) 8 = Some c.
Proof.
  intros [Hfr Hb HFD _ _ _ _ _] Hi Hc. unfold mload_range, frame_at.
  rewrite Hfr, Hb.
  pose proof (load_chunk 8 [] FD (concat CD ++ concat PX) _ c HFD Hc) as Hload.
  simpl in Hload. rewrite <- Hload. f_equal. lia.
Qed.

Lemma regions_load_channel m FD CD PX j c :
  regions s m FD CD PX → 0 ≤ j → CD !! Z.to_nat j = Some c →
  mload_range m (base m + n * 8 + j * 8) 8 = Some c.
Proof.
  intros [Hfr Hb HFD HnFD HCD _ _ _] Hj Hc. unfold mload_range. rewrite Hb.
  pose proof (load_chunk 8 (concat FD) CD (concat PX) _ c HCD Hc) as Hload.
  rewrite <- Hload. f_equal. rewrite (chunked_length 8 FD HFD). lia.
Qed.

Lemma regions_load_pixels m FD CD PX k px :
  regions s m FD CD PX → 0 ≤ k → PX !! Z.to_nat k = Some px →
  mload_range m (base m + n * 8 + n * C * 8 + k * fs) fs = Some px.
Proof.
  intros [Hfr Hb HFD HnFD HCD HnCD HPX _] Hk Hpx. unfold mload_range. rewrite Hb.
  pose proof (load_chunk fs (concat FD ++ concat CD) PX [] _ px HPX Hpx) as Hload.
  rewrite app_nil_r, <- app_assoc in Hload.
  rewrite <- Hload. f_equal. rewrite length_app, Nat2Z.inj_add.
  rewrite (chunked_length 8 FD HFD), (chunked_length 8 CD HCD).
  rewrite Z2Nat.id by lia. lia.
Qed.

Lemma regions_store_frame m FD CD PX i c :
  regions s m FD CD PX → 0 ≤ i < n → Z.of_nat (length c) = 8 →
  ∃ m', mstore_range m (frame_at s i) c = Some m' ∧ base m' = base m ∧
        regions s m' (<[Z.to_nat i:=c]> FD) CD PX.
Proof.
  intros [Hfr Hb HFD HnFD HCD HnCD HPX HnPX] Hi Hc.
  destruct (lookup_lt_is_Some_2 FD (Z.to_nat i)) as [c0 Hc0]; [lia|].
  pose proof (store_chunk 8 [] FD (concat CD ++ concat PX) _ c0 c HFD Hc0 Hc)
    as Hstore.
  simpl in Hstore.
  exists (with_bytes m (concat (<[Z.to_nat i:=c]> FD) ++ concat CD ++ concat PX)).
  split; [|split; [done|]].
  - unfold mstore_range, frame_at. rewrite Hfr, Hb.
    replace (base m + i * 8 - base m)
      with (Z.of_nat 0 + Z.of_nat (Z.to_nat i) * 8) by lia.
    by rewrite Hstore.
  - split; simpl; try done; [by apply chunked_insert|by rewrite length_insert].
Qed.

Lemma regions_store_channel m FD CD PX j c :
  regions s m FD CD PX → 0 ≤ j < n * C → Z.of_nat (length c) = 8 →
  ∃ m', mstore_range m (base m + n * 8 + j * 8) c = Some m' ∧ base m' = base m ∧
        regions s m' FD (<[Z.to_nat j:=c]> CD) PX.
Proof.
  intros [Hfr Hb HFD HnFD HCD HnCD HPX HnPX] Hj Hc.
  destruct (lookup_lt_is_Some_2 CD (Z.to_nat j)) as [c0 Hc0]; [lia|].
  pose proof (store_chunk 8 (concat FD) CD (concat PX) _ c0 c HCD Hc0 Hc)
    as Hstore.
  exists (with_bytes m (concat FD ++ concat (<[Z.to_nat j:=c]> CD) ++ concat PX)).
  split; [|split; [done|]].
  - unfold mstore_range. rewrite Hb.
    replace (base m + n * 8 + j * 8 - base m)
      with (Z.of_nat (length (concat FD)) + Z.of_nat (Z.to_nat j) * 8)
      by (rewrite (chunked_length 8 FD HFD); lia).
    by rewrite Hstore.
  - split; simpl; try done; [by apply chunked_insert|by rewrite length_insert].
Qed.

(** [fread] into the payload region replaces all of it. *)
Lemma regions_store_payload m FD CD PX PX' :
  regions s m FD CD PX → chunked fs PX' → length PX' = length PX →
  ∃ m', mstore_range m (base m + n * 8 + n * C * 8) (concat PX') = Some m' ∧
        base m' = base m ∧ regions s m' FD CD PX'.
Proof.
  intros [Hfr Hb HFD HnFD HCD HnCD HPX HnPX] HPX' Hlen.
  exists (with_bytes m (concat FD ++ concat CD ++ concat PX')).
  split; [|split; [done|]].
  - unfold mstore_range. rewrite Hb.
    replace (base m + n * 8 + n * C * 8 - base m)
      with (Z.of_nat (length (concat FD ++ concat CD))).
    2:{ rewrite length_app, Nat2Z.inj_add.
        rewrite (chunked_length 8 FD HFD), (chunked_length 8 CD HCD). lia. }
    pose proof (store_range_app (concat FD ++ concat CD) (concat PX) (concat PX') [])
      as Hstore.
    rewrite !app_nil_r, <- !app_assoc in Hstore. rewrite Hstore; [done|].
    apply Nat2Z.inj. rewrite (chunked_length fs PX'), (chunked_length fs PX) by done.
    by rewrite Hlen.
  - split; simpl; try done. by rewrite Hlen.
Qed.

End regions.

(** ** Loops with an invariant *)

Lemma foldM_invariant {S} (Inv : Z → S → Prop) (body : S → Z → option S) s N :
  0 ≤ N → Inv 0 s →
  (∀ k s, 0 ≤ k < N → Inv k s → ∃ s', body s k = Some s' ∧ Inv (k + 1) s') →
  ∃ s', foldM body s (seqZ 0 N) = Some s' ∧ Inv N s'.
Proof.
  intros HN H0. revert N HN.
  apply (natlike_ind (λ N, (∀ k s, 0 ≤ k < N → Inv k s →
                                   ∃ s', body s k = Some s' ∧ Inv (k + 1) s') →
                           ∃ s', foldM body s (seqZ 0 N) = Some s' ∧ Inv N s')).
  - intros _. exists s. by split.
  - intros N HN IH Hstep.
    destruct IH as (s1 & Hs1 & Hinv1).
    { intros k s0 Hk. apply Hstep. lia. }
    destruct (Hstep N s1) as (s2 & Hs2 & Hinv2); [lia|done|].
    exists s2. split; [|done].
    rewrite <- Z.add_1_r, seqZ_app, foldM_app by lia. rewrite Hs1. simpl.
    replace (Z.of_nat 0 + (0 + N)) with N by lia. by rewrite Hs2.
Qed.

(** ** [decode_S] builds the arena *)

Section construction.
Context (s : SVideo).
Local Notation "'n'" := (num_frames (shdr s)).
Local Notation "'C'" := (channels (shdr s)).
Local Notation "'fs'" := (height (shdr s) * width (shdr s)).
Context (Hn : 0 ≤ n) (HC : 0 ≤ C) (Hfs : 0 ≤ fs).
Context (Hbase : 0 < frames s).
Context (Hfit : frames s + arena_size (shdr s) < 2 ^ 64).

(** [frame->channels = ...] for frame [k]. *)
Lemma set_frame_desc k m :
  built s k (k * C) m → 0 ≤ k < n →
  ∃ m', store_ptr m (frame_at s k)
          (frames s + wrap64 (n * 8) + wrap64 (k * C * 8)) = Some m' ∧
        built s (k + 1) (k * C) m'.
Proof.
  intros (FD & CD & PX & Hrg & HFD & HCD) Hk.
  unfold arena_size in Hfit.
  assert (0 ≤ k * C ∧ k * C + C ≤ n * C) as [??] by nia.
  assert (0 ≤ n * C * fs) by nia.
  rewrite !wrap64_small by nia.
  destruct (regions_store_frame s m FD CD PX k (frame_desc s k) Hrg Hk)
    as (m' & Hst & _ & Hrg').
  { unfold frame_desc. by rewrite le_bytes_length. }
  exists m'. split; [exact Hst|].
  exists (<[Z.to_nat k:=frame_desc s k]> FD), CD, PX.
  split; [done|]. split; [|done].
  intros i Hi. destruct (decide (i = k)) as [->|Hne].
  - apply list_lookup_insert_eq. destruct Hrg. lia.
  - rewrite list_lookup_insert_ne by lia. apply HFD. lia.
Qed.

(** [frame->channels[c].data = ...] for channel [c] of frame [k]. *)
Lemma set_channel_desc k c m :
  built s (k + 1) (k * C + c) m → 0 ≤ k < n → 0 ≤ c < C →
  ∃ m', (ch ← channel_at m (frame_at s k) c;
         store_ptr m ch
           (frames s + wrap64 (n * 8) + wrap64 (n * C * 8)
            + wrap64 (k * C * fs) + wrap64 (c * fs))) = Some m' ∧
        built s (k + 1) (k * C + (c + 1)) m'.
Proof.
  intros (FD & CD & PX & Hrg & HFD & HCD) Hk Hc.
  unfold arena_size in Hfit.
  assert (0 ≤ k * C ∧ k * C + C ≤ n * C) as [??] by nia.
  assert (0 ≤ k * C * fs ∧ k * C * fs + C * fs ≤ n * C * fs) as [??] by nia.
  assert (0 ≤ c * fs ∧ c * fs + fs ≤ C * fs) as [??] by nia.
  rewrite !wrap64_small by nia.
  unfold channel_at, load_ptr.
  rewrite (regions_load_frame s m FD CD PX k (frame_desc s k) Hrg) by (try apply HFD; lia).
  cbn [fmap option_fmap option_map mbind option_bind].
  unfold frame_desc at 1. rewrite le_value_ptr by nia.
  pose proof (rg_frames s m FD CD PX Hrg) as Hfr.
  set (j := k * C + c).
  destruct (regions_store_channel s m FD CD PX j (channel_desc s j) Hrg)
    as (m' & Hst & _ & Hrg');
    [unfold j; lia|unfold channel_desc; by rewrite le_bytes_length|].
  exists m'. split.
  - unfold store_ptr. rewrite <- Hst. f_equal; [unfold j; lia|].
    unfold channel_desc. f_equal. unfold j. lia.
  - exists FD, (<[Z.to_nat j:=channel_desc s j]> CD), PX.
    split; [done|]. split; [done|].
    intros j' Hj'. destruct (decide (j' = j)) as [->|Hne].
    + apply list_lookup_insert_eq. destruct Hrg. lia.
    + rewrite list_lookup_insert_ne by lia. apply HCD. lia.
Qed.

(** The two nested loops of [decode_S]. *)
Lemma build_descriptors m :
  built s 0 0 m →
  ∃ m',
    foldM (λ m frame_idx,
        let frame := frame_at s frame_idx in
        m ← store_ptr m frame
              (frames s + wrap64 (n * 8) + wrap64 (frame_idx * C * 8));
        foldM (λ m channel_idx,
            ch ← channel_at m frame channel_idx;
            store_ptr m ch
              (frames s + wrap64 (n * 8) + wrap64 (n * C * 8)
               + wrap64 (frame_idx * C * fs) + wrap64 (channel_idx * fs)))
          m (seqZ 0 C))
      m (seqZ 0 n) = Some m' ∧
    built s n (n * C) m'.
Proof.
  intros H0.
  apply (foldM_invariant (λ k m, built s k (k * C) m)); [done|done|].
  intros k m1 Hk Hinv. simpl.
  destruct (set_frame_desc k m1 Hinv Hk) as (m2 & -> & Hinv2). simpl.
  replace ((k + 1) * C) with (k * C + C) by lia.
  apply (foldM_invariant (λ c m, built s (k + 1) (k * C + c) m)); [done| |].
  - by rewrite Z.add_0_r.
  - intros c m3 Hc Hinv3. by apply set_channel_desc.
Qed.

End construction.

Lemma split_regions (nf nc : nat) sz d :
  0 ≤ sz →
  Z.of_nat (length d) = Z.of_nat nf * 8 + Z.of_nat nc * 8 + Z.of_nat nc * sz →
  ∃ FD CD PX,
    d = concat FD ++ concat CD ++ concat PX ∧
    chunked 8 FD ∧ length FD = nf ∧ chunked 8 CD ∧ length CD = nc ∧
    chunked sz PX ∧ length PX = nc.
Proof.
  intros Hsz Hlen.
  assert (0 ≤ Z.of_nat nc * sz) by nia.
  destruct (chunks_exist 8 nf (take (nf * 8) d)) as (FD & HFD & ? & ?); [lia| |].
  { rewrite length_take. lia. }
  destruct (chunks_exist 8 nc (take (nc * 8) (drop (nf * 8) d)))
    as (CD & HCD & ? & ?); [lia| |].
  { rewrite length_take, length_drop. lia. }
  destruct (chunks_exist sz nc (drop (nc * 8) (drop (nf * 8) d)))
    as (PX & HPX & ? & ?); [lia| |].
  { rewrite !length_drop. lia. }
  exists FD, CD, PX. split; [|done].
  by rewrite <- HFD, <- HCD, <- HPX, !take_drop.
Qed.

Lemma regions_length s m FD CD PX :
  regions s m FD CD PX → Z.of_nat (length (bytes m)) = arena_size (shdr s).
Proof.
  intros [_ -> HFD HnFD HCD HnCD HPX HnPX]. rewrite !length_app, !Nat2Z.inj_add.
  rewrite (chunked_length _ _ HFD), (chunked_length _ _ HCD), (chunked_length _ _ HPX).
  unfold arena_size. lia.
Qed.

(** An arena whose descriptors are all set as [decode_S] sets them is
    well formed, and channel [c] of frame [i] is slice [i * C + c] of
    the payload. *)
Lemma built_arena s m FD CD PX :
  regions s m FD CD PX →
  (∀ i, 0 ≤ i < num_frames (shdr s) → FD !! Z.to_nat i = Some (frame_desc s i)) →
  (∀ j, 0 ≤ j < num_frames (shdr s) * channels (shdr s) →
        CD !! Z.to_nat j = Some (channel_desc s j)) →
  0 ≤ num_frames (shdr s) < 2 ^ 63 → 0 ≤ channels (shdr s) < 256 →
  0 ≤ height (shdr s) < 256 → 0 ≤ width (shdr s) < 256 →
  0 < frames s → frames s + arena_size (shdr s) < 2 ^ 64 →
  wf_arena s m ∧
  ∀ i c, 0 ≤ i < num_frames (shdr s) → 0 ≤ c < channels (shdr s) →
         channel_pixels m s i c = PX !! Z.to_nat (i * channels (shdr s) + c).
Proof.
  intros Hrg HFD HCD Hn HC Hh Hw Hbase Hfit.
  pose proof (rg_frames _ _ _ _ _ Hrg) as Hfr.
  pose proof (regions_length _ _ _ _ _ Hrg) as Hlen.
  set (n := num_frames (shdr s)) in *. set (C := channels (shdr s)) in *.
  set (fs := height (shdr s) * width (shdr s)) in *.
  assert (0 ≤ fs) by (unfold fs; nia).
  assert (0 ≤ n * C) by nia.
  assert (0 ≤ n * C * fs) by nia.
  unfold arena_size in *. fold n C fs in Hfit, Hlen.
  assert (∀ i, 0 ≤ i < n →
            load_ptr m (frame_at s i) = Some (base m + n * 8 + i * C * 8)) as Hlf.
  { intros i Hi. unfold load_ptr.
    rewrite (regions_load_frame s m FD CD PX i (frame_desc s i) Hrg)
      by (try apply HFD; lia).
    cbn [fmap option_fmap option_map]. unfold frame_desc. fold n C.
    assert (0 ≤ i * C ∧ i * C + C ≤ n * C) by nia.
    rewrite le_value_ptr, Hfr; [done|]. lia. }
  assert (∀ j, 0 ≤ j < n * C →
            load_ptr m (base m + n * 8 + j * 8)
            = Some (base m + n * 8 + n * C * 8 + j * fs)) as Hlc.
  { intros j Hj. unfold load_ptr.
    pose proof (regions_load_channel s m FD CD PX j (channel_desc s j) Hrg) as Hl.
    fold n in Hl. rewrite Hl by (try apply HCD; lia).
    cbn [fmap option_fmap option_map]. unfold channel_desc. fold n C fs.
    assert (0 ≤ j * fs ∧ j * fs + fs ≤ n * C * fs) by nia.
    rewrite le_value_ptr, Hfr; [done|]. lia. }
  split.
  - split; try (fold n C fs; first [done | lia]).
    + intros i Hi. exists i. split; [done|]. by apply Hlf.
    + intros j Hj. exists j. split; [done|]. by apply Hlc.
  - intros i c Hi Hc. assert (0 ≤ i * C + c < n * C) as Hj by nia.
    unfold channel_pixels, channel_data, channel_at. rewrite Hlf by done.
    cbn [mbind option_bind].
    replace (base m + n * 8 + i * C * 8 + c * 8)
      with (base m + n * 8 + (i * C + c) * 8) by lia.
    rewrite Hlc by done. cbn [mbind option_bind].
    destruct (lookup_lt_is_Some_2 PX (Z.to_nat (i * C + c))) as [px Hpx].
    { destruct Hrg. fold n C in rg_PX_length0. lia. }
    rewrite Hpx.
    pose proof (regions_load_pixels s m FD CD PX (i * C + c) px Hrg) as Hl.
    fold n C fs in Hl. apply Hl; [lia|done].
Qed.

Lemma decode_S_builds al h PX m0 :
  0 ≤ num_frames h < 2 ^ 63 → 0 ≤ channels h < 256 →
  0 ≤ height h < 256 → 0 ≤ width h < 256 →
  chunked (height h * width h) PX →
  Z.of_nat (length PX) = num_frames h * channels h →
  is_Some (malloc al 24) → malloc al (arena_size h) = Some m0 →
  let s := {| shdr := h; frames := base m0 |} in
  ∃ m, decode_S al (Some (write_header h ++ concat PX)) = Ok (s, m) ∧
       wf_arena s m ∧
       ∀ i c, 0 ≤ i < num_frames h → 0 ≤ c < channels h →
              channel_pixels m s i c = PX !! Z.to_nat (i * channels h + c).
Proof.
  intros Hn HC Hh Hw HPX HnPX [sv Hsv] Hm0 s.
  destruct (malloc_range _ _ _ Hm0) as [Hbase Hfit].
  pose proof (malloc_length _ _ _ Hm0) as Hlen0.
  set (fs := height h * width h) in *.
  assert (0 ≤ fs) by (unfold fs; nia).
  assert (0 ≤ num_frames h * channels h) by nia.
  assert (0 ≤ num_frames h * channels h * fs) by nia.
  assert (0 ≤ arena_size h) as Hsize by (unfold arena_size; fold fs; lia).
  (* the fresh block as three regions *)
  destruct (split_regions (Z.to_nat (num_frames h))
              (Z.to_nat (num_frames h * channels h)) fs (bytes m0))
    as (FD0 & CD0 & PX0 & Hb0 & ? & ? & ? & ? & ? & ?); [done| |].
  { rewrite Hlen0. unfold arena_size in *. fold fs in Hsize |- *. lia. }
  assert (built s 0 0 m0) as Hbuilt0.
  { exists FD0, CD0, PX0. split; [split; simpl; try done; lia|]. split; intros; lia. }
  destruct (build_descriptors s) with (m := m0) as (m1 & Hloop & Hbuilt1);
    [simpl; lia..|done|].
  destruct Hbuilt1 as (FD & CD & PX1 & Hrg1 & HFD & HCD).
  destruct (regions_store_payload s m1 FD CD PX1 PX Hrg1) as (m2 & Hst & _ & Hrg2).
  { done. }
  { destruct Hrg1. simpl in *. lia. }
  destruct (built_arena s m2 FD CD PX Hrg2 HFD HCD) as [Hwf Hpx]; [done..|].
  exists m2. split; [|by split].
  unfold decode_S. rewrite Hsv, read_write_header by lia. cbv zeta.
  fold fs. rewrite (wrap64_small (num_frames h * channels h * fs)) by
    (unfold arena_size in Hfit; fold fs in Hfit; lia).
  replace (wrap64 (num_frames h * 8 + num_frames h * channels h * 8
                   + num_frames h * channels h * fs)) with (arena_size h)
    by (symmetry; apply wrap64_small; lia).
  rewrite Hm0. unfold s in Hloop. cbn [shdr frames] in Hloop. fold fs in Hloop.
  rewrite Hloop.
  replace (num_frames h * channels h * fs) with (Z.of_nat (length (concat PX)))
    by (rewrite (chunked_length fs PX HPX); lia).
  rewrite <- (app_nil_r (concat PX)) at 1. rewrite fread_app.
  pose proof (rg_frames _ _ _ _ _ Hrg1) as Hfr. simpl in Hfr, Hst.
  rewrite !wrap64_small by (unfold arena_size in Hfit; fold fs in Hfit; lia).
  rewrite <- Hfr in Hst. rewrite Hst. done.
Qed.

(** ** The payload in codec order *)

(** The (frame, channel) pairs are the quotients and remainders of the
    slice numbers. *)
Lemma slots_flat h :
  0 ≤ num_frames h → 0 ≤ channels h →
  slots h = (λ j, (j `div` channels h, j `mod` channels h))
              <$> seqZ 0 (num_frames h * channels h).
Proof.
  intros Hn HC. unfold slots. generalize (num_frames h) Hn. clear Hn.
  apply natlike_ind; [done|]. intros n Hn IH.
  rewrite <- Z.add_1_r, seqZ_app, bind_app, IH by lia.
  replace ((n + 1) * channels h) with (n * channels h + channels h) by lia.
  rewrite seqZ_app, fmap_app by nia. f_equal.
  simpl. rewrite app_nil_r.
  replace (seqZ (0 + n * channels h) (channels h))
    with (Z.add (n * channels h) <$> seqZ 0 (channels h))
    by (rewrite fmap_add_seqZ; f_equal; lia).
  rewrite <- list_fmap_compose.
  apply list_fmap_ext. intros k c Hc%lookup_seqZ. simpl.
  rewrite (Z.add_comm (n * channels h)), Z.div_add, Z.mod_add by lia.
  rewrite Z.div_small, Z.mod_small by lia. f_equal.
Qed.

Lemma lookup_slots h (j : nat) :
  0 ≤ num_frames h → 0 ≤ channels h →
  Z.of_nat j < num_frames h * channels h →
  slots h !! j = Some (Z.of_nat j `div` channels h, Z.of_nat j `mod` channels h) ∧
  0 ≤ Z.of_nat j `div` channels h < num_frames h ∧
  0 ≤ Z.of_nat j `mod` channels h < channels h.
Proof.
  intros Hn HC Hj. assert (0 < channels h) by nia.
  split; [|split].
  - rewrite slots_flat, list_lookup_fmap, lookup_seqZ_lt by done.
    simpl. by rewrite Z.add_0_l.
  - split; [apply Z.div_pos; lia|]. apply Z.div_lt_upper_bound; lia.
  - apply Z.mod_pos_bound. lia.
Qed.

Lemma length_slots h :
  0 ≤ num_frames h → 0 ≤ channels h →
  length (slots h) = Z.to_nat (num_frames h * channels h).
Proof. intros. by rewrite slots_flat, length_fmap, length_seqZ. Qed.

(** If channel [c] of frame [i] is slice [i * C + c] of [PX], the
    payload read through the descriptors is [PX] in order. *)
Lemma payload_S_slices s m PX :
  0 ≤ num_frames (shdr s) → 0 ≤ channels (shdr s) →
  Z.of_nat (length PX) = num_frames (shdr s) * channels (shdr s) →
  (∀ i c, 0 ≤ i < num_frames (shdr s) → 0 ≤ c < channels (shdr s) →
          channel_pixels m s i c = PX !! Z.to_nat (i * channels (shdr s) + c)) →
  payload_S m s = Some (concat PX).
Proof.
  intros Hn HC Hlen Hpx. unfold payload_S.
  rewrite (mapM_Some_2 _ _ PX); [done|].
  apply Forall2_same_length_lookup_2.
  { rewrite length_slots by done. lia. }
  intros j [i c] px Hj Hpxj.
  assert (Z.of_nat j < num_frames (shdr s) * channels (shdr s)) as Hlt.
  { apply lookup_lt_Some in Hpxj. lia. }
  destruct (lookup_slots (shdr s) j Hn HC Hlt) as (Hj' & Hi & Hc).
  rewrite Hj' in Hj. injection Hj as <- <-. simpl.
  rewrite Hpx by done. rewrite <- Hpxj. f_equal.
  rewrite Z.mul_comm, <- Z.div_mod by lia. lia.
Qed.

Lemma load_range_length d off len px :
  load_range d off len = Some px → Z.of_nat (length px) = len.
Proof.
  unfold load_range. case_bool_decide as H; [|done]. intros [= <-].
  rewrite length_take, length_drop. lia.
Qed.

(** The payload of a well-formed arena: its slices, one per
    (frame, channel) pair. *)
Lemma payload_S_wf s m :
  wf_arena s m →
  ∃ PX, payload_S m s = Some (concat PX) ∧
        chunked (height (shdr s) * width (shdr s)) PX ∧
        Z.of_nat (length PX) = num_frames (shdr s) * channels (shdr s) ∧
        ∀ i c, 0 ≤ i < num_frames (shdr s) → 0 ≤ c < channels (shdr s) →
               channel_pixels m s i c = PX !! Z.to_nat (i * channels (shdr s) + c).
Proof.
  intros Hwf.
  pose proof (wfa_num_frames _ _ Hwf) as Hn. pose proof (wfa_channels _ _ Hwf) as HC.
  assert (0 ≤ num_frames (shdr s) * channels (shdr s)) by nia.
  destruct (mapM_is_Some_2 (λ ic, channel_pixels m s ic.1 ic.2) (slots (shdr s)))
    as [PX HPX].
  { apply Forall_forall. intros [i c] Hic. simpl.
    apply list_elem_of_lookup in Hic as [j Hj].
    assert (Z.of_nat j < num_frames (shdr s) * channels (shdr s)) as Hlt.
    { apply lookup_lt_Some in Hj. rewrite length_slots in Hj; lia. }
    destruct (lookup_slots (shdr s) j) as (Hj' & Hi & Hc); [lia..|].
    rewrite Hj' in Hj. injection Hj as <- <-.
    destruct (channel_pixels_wf s m _ _ Hwf Hi Hc) as (? & ? & px & _ & _ & _ & _ & _ & ->).
    by eexists. }
  pose proof (mapM_Some_1 _ _ _ HPX) as HF2.
  pose proof (Forall2_length _ _ _ HF2) as Hlen. rewrite length_slots in Hlen by lia.
  assert (∀ i c, 0 ≤ i < num_frames (shdr s) → 0 ≤ c < channels (shdr s) →
            channel_pixels m s i c = PX !! Z.to_nat (i * channels (shdr s) + c)) as Hpx.
  { intros i c Hi Hc.
    assert (0 ≤ i * channels (shdr s) + c < num_frames (shdr s) * channels (shdr s))
      as Hj by nia.
    destruct (lookup_slots (shdr s) (Z.to_nat (i * channels (shdr s) + c)))
      as (Hj' & _); [lia..|].
    rewrite Z2Nat.id in Hj' by lia.
    assert ((i * channels (shdr s) + c) `div` channels (shdr s) = i) as Hdiv.
    { rewrite Z.add_comm, Z.div_add, Z.div_small; lia. }
    assert ((i * channels (shdr s) + c) `mod` channels (shdr s) = c) as Hmod.
    { rewrite Z.add_comm, Z.mod_add, Z.mod_small; lia. }
    rewrite Hdiv, Hmod in Hj'.
    destruct (Forall2_lookup_l _ _ _ _ _ HF2 Hj') as (px & -> & Hpx). done. }
  exists PX. split; [|split; [|split; [lia|done]]].
  - unfold payload_S. by rewrite HPX.
  - apply Forall_forall. intros px Hin.
    apply list_elem_of_lookup in Hin as [j Hj].
    destruct (Forall2_lookup_r _ _ _ _ _ HF2 Hj) as ([i c] & _ & Hic). simpl in Hic.
    unfold channel_pixels in Hic.
    destruct (channel_data m s i c); simpl in Hic; [|done].
    by apply load_range_length in Hic.
Qed.

(** ** C4: round trip through the custom binary format *)

(** C4: for a flat store and for an arena store, encoding and decoding
    the result returns a store with the same header and the same pixel
    payload: the flat store itself, and an arena whose payload, read
    through its descriptors in frame-major, channel-major order, is
    byte for byte the payload of the original. *)
Theorem codec_round_trip al v d s m :
  wf_video v d → wf_arena s m →
  is_Some (malloc al 24) →
  is_Some (malloc al (payload_size (hdr v))) →
  is_Some (malloc al (arena_size (shdr s))) →
  (∃ file, encode true (Some v) = Ok file ∧ decode al (Some file) = Ok v) ∧
  (∃ file s' m' P,
      encode_S true (Some s) m = Ok file ∧
      decode_S al (Some file) = Ok (s', m') ∧
      shdr s' = shdr s ∧ wf_arena s' m' ∧
      payload_S m s = Some P ∧ payload_S m' s' = Some P ∧
      ∀ i c, 0 ≤ i < num_frames (shdr s) → 0 ≤ c < channels (shdr s) →
             channel_pixels m' s' i c = channel_pixels m s i c).
Proof.
  intros Hwf Hwfa Hsv Hbuf [m0 Hm0]. split.
  - exists (write_header (hdr v) ++ d). split; [by apply encode_flat|].
    by apply decode_encode_flat.
  - destruct (payload_S_wf s m Hwfa) as (PX & HP & HPX & Hlen & Hpx).
    destruct (decode_S_builds al (shdr s) PX m0) as (m' & Hdec & Hwf' & Hpx');
      [by destruct Hwfa..|done|done|done|done|].
    exists (write_header (shdr s) ++ concat PX),
      {| shdr := shdr s; frames := base m0 |}, m', (concat PX).
    split; [by rewrite encode_S_closed_form, HP|].
    split; [done|]. split; [done|]. split; [done|]. split; [done|]. split.
    + apply payload_S_slices; simpl; [destruct Hwfa; lia..|done|done].
    + intros i c Hi Hc. rewrite Hpx, Hpx' by done. done.
Qed.

Lemma codec_round_trip_witness :
  (∃ file, encode true (Some three_frames) = Ok file ∧
           decode moving_allocator (Some file) = Ok three_frames) ∧
  (∃ file s' m',
      encode_S true (Some three_frames_S) three_frames_arena = Ok file ∧
      decode_S moving_allocator (Some file) = Ok (s', m') ∧
      payload_S m' s' = payload_S three_frames_arena three_frames_S).
Proof.
  destruct (codec_round_trip moving_allocator three_frames [10; 20; 30]
              three_frames_S three_frames_arena)
    as [Hflat (file & s' & m' & P & Henc & Hdec & _ & _ & HP & HP' & _)].
  - exact three_frames_wf.
  - exact three_frames_arena_wf.
  - eexists. vm_compute. reflexivity.
  - eexists. vm_compute. reflexivity.
  - eexists. vm_compute. reflexivity.
  - split; [exact Hflat|]. exists file, s', m'.
    split; [exact Henc|]. split; [exact Hdec|]. by rewrite HP, HP'.
Defined.

(** ** C5: both layouts serialize to the same bytes *)

(** C5: a flat store and an arena store with the same header and the
    same payload in frame-major, channel-major order are written as the
    same file; and building both from one header and one sample
    sequence, the way [decode] and [decode_S] build them, gives two
    stores that are written back as that same file. *)
Theorem layouts_serialize_alike al h P v d s m :
  wf_video v d → hdr v = shdr s → payload_S m s = Some d →
  0 ≤ num_frames h < 2 ^ 63 → 0 ≤ channels h < 256 →
  0 ≤ height h < 256 → 0 ≤ width h < 256 →
  Z.of_nat (length P) = num_frames h * channels h * (height h * width h) →
  is_Some (malloc al 24) →
  is_Some (malloc al (payload_size h)) →
  is_Some (malloc al (arena_size h)) →
  (encode true (Some v) = Ok (write_header (hdr v) ++ d) ∧
   encode_S true (Some s) m = Ok (write_header (hdr v) ++ d)) ∧
  (∃ v' s' m',
      decode al (Some (write_header h ++ P)) = Ok v' ∧
      decode_S al (Some (write_header h ++ P)) = Ok (s', m') ∧
      hdr v' = h ∧ shdr s' = h ∧
      data v' = Some P ∧ payload_S m' s' = Some P ∧
      encode true (Some v') = Ok (write_header h ++ P) ∧
      encode_S true (Some s') m' = Ok (write_header h ++ P)).
Proof.
  intros Hwf Hhdr Hpay Hn HC Hh Hw HlenP Hsv Hbuf [m0 Hm0]. split.
  - split; [by apply encode_flat|].
    by rewrite encode_S_closed_form, Hpay, Hhdr.
  - set (fs := height h * width h) in *.
    assert (0 ≤ fs) by (unfold fs; nia).
    assert (0 ≤ num_frames h * channels h) by nia.
    destruct (malloc_range _ _ _ Hm0) as [Hbase Hfit].
    assert (0 ≤ num_frames h * channels h * fs) by nia.
    assert (wf_video {| hdr := h; data := Some P |} P) as Hwf'.
    { split; simpl; try done; [fold fs; lia|].
      unfold arena_size in Hfit. fold fs in Hfit. lia. }
    destruct (chunks_exist fs (Z.to_nat (num_frames h * channels h)) P)
      as (PX & -> & HPX & HlenPX); [done|lia|].
    destruct (decode_S_builds al h PX m0) as (m' & Hdec & Hwfa & Hpx);
      [done..|lia|done|done|].
    assert (payload_S m' {| shdr := h; frames := base m0 |} = Some (concat PX))
      as Hpay'.
    { apply payload_S_slices; simpl; [lia..|done]. }
    exists {| hdr := h; data := Some (concat PX) |},
      {| shdr := h; frames := base m0 |}, m'.
    split.
    { by apply (decode_encode_flat al {| hdr := h; data := Some (concat PX) |}
                  (concat PX)). }
    split; [done|]. split; [done|]. split; [done|]. split; [done|]. split; [done|].
    split.
    { by apply (encode_flat {| hdr := h; data := Some (concat PX) |} (concat PX)). }
    by rewrite encode_S_closed_form, Hpay'.
Qed.

Lemma layouts_serialize_alike_witness :
  encode true (Some three_frames)
  = encode_S true (Some three_frames_S) three_frames_arena ∧
  ∃ v' s' m',
    decode moving_allocator (Some (write_header (hdr three_frames) ++ [10; 20; 30]))
    = Ok v' ∧
    decode_S moving_allocator (Some (write_header (hdr three_frames) ++ [10; 20; 30]))
    = Ok (s', m') ∧
    encode true (Some v') = encode_S true (Some s') m'.
Proof.
  destruct (layouts_serialize_alike moving_allocator (hdr three_frames) [10; 20; 30]
              three_frames [10; 20; 30] three_frames_S three_frames_arena)
    as [[Hflat Harena] (v' & s' & m' & Hdec & HdecS & _ & _ & _ & _ & Henc & HencS)].
  - exact three_frames_wf.
  - reflexivity.
  - vm_compute. reflexivity.
  - simpl. lia.
  - simpl. lia.
  - simpl. lia.
  - simpl. lia.
  - reflexivity.
  - eexists. vm_compute. reflexivity.
  - eexists. vm_compute. reflexivity.
  - eexists. vm_compute. reflexivity.
  - split; [by rewrite Hflat, Harena|]. exists v', s', m'.
    split; [exact Hdec|]. split; [exact HdecS|]. by rewrite Henc, HencS.
Defined.

(** ** [clip_channel_S]: vector batches and scalar tail *)

Lemma lane_clip_CLAMP lo hi x : lo ≤ hi → lane_clip lo hi x = CLAMP x lo hi.
Proof.
  intros Hle. unfold lane_clip, CLAMP.
  destruct (Z.ltb_spec x lo); [lia|].
  destruct (Z.gtb_spec x hi); lia.
Qed.

(** Vector min and max against a broadcast bound, lane by lane. *)
Lemma vector_clip lo hi (B : list Z) :
  length B = 32%nat →
  _mm256_min_epu8 (_mm256_max_epu8 B (_mm256_set1_epi8 lo)) (_mm256_set1_epi8 hi)
  = lane_clip lo hi <$> B.
Proof.
  intros Hlen. unfold _mm256_min_epu8, _mm256_max_epu8, _mm256_set1_epi8.
  rewrite (zip_with_replicate_r_eq Z.max 32 lo B) by done.
  rewrite (zip_with_replicate_r_eq Z.min 32 hi) by (by rewrite length_fmap).
  by rewrite <- list_fmap_compose.
Qed.

Lemma with_bytes_with_bytes m d d' : with_bytes (with_bytes m d) d' = with_bytes m d'.
Proof. done. Qed.

(** The vector loop, started at the end of [X1], clips whole batches of
    what follows and stops with fewer than 32 bytes left. *)
Lemma clip_batches lo hi P R dat cs fuel : ∀ m X1 X2,
  bytes m = P ++ X1 ++ X2 ++ R →
  dat - base m = Z.of_nat (length P) →
  cs = Z.of_nat (length X1) + Z.of_nat (length X2) →
  (length X2 ≤ fuel)%nat →
  ∃ Y T,
    X2 = Y ++ T ∧ (length T < 32)%nat ∧
    for_step fuel (λ i, bool_decide (i + 31 < cs)) 32
      (λ m i,
         pixels ← mload_range m (dat + i) 32;
         mstore_range m (dat + i)
           (_mm256_min_epu8 (_mm256_max_epu8 pixels (_mm256_set1_epi8 lo))
              (_mm256_set1_epi8 hi)))
      m (Z.of_nat (length X1))
    = Some (with_bytes m (P ++ X1 ++ (lane_clip lo hi <$> Y) ++ T ++ R),
            Z.of_nat (length X1) + Z.of_nat (length Y)).
Proof.
  assert (∀ m X1 X2, bytes m = P ++ X1 ++ X2 ++ R →
            with_bytes m (P ++ X1 ++ (lane_clip lo hi <$> []) ++ X2 ++ R) = m) as Hid.
  { intros m X1 X2 Hm. simpl. rewrite <- Hm. apply with_bytes_bytes. }
  induction fuel as [|fuel IH]; intros m X1 X2 Hm Hdat Hcs Hfuel.
  - exists [], X2. destruct X2; [|simpl in Hfuel; lia].
    split; [done|]. split; [simpl; lia|]. cbn [for_step].
    rewrite bool_decide_false by (simpl in Hcs; lia).
    rewrite Hid by done. f_equal. f_equal. simpl. lia.
  - cbn [for_step]. case_bool_decide as Hcond.
    + set (B := take 32 X2). set (X2' := drop 32 X2).
      assert (X2 = B ++ X2') as HX2 by (symmetry; apply take_drop).
      assert (length B = 32%nat) as HB by (unfold B; rewrite length_take; lia).
      assert (bytes m = (P ++ X1) ++ B ++ (X2' ++ R)) as Hm'.
      { rewrite Hm, HX2. by rewrite <- !app_assoc. }
      assert (dat + Z.of_nat (length X1) - base m = Z.of_nat (length (P ++ X1)))
        as Hoff by (rewrite length_app; lia).
      set (B' := lane_clip lo hi <$> B).
      assert ((pixels ← mload_range m (dat + Z.of_nat (length X1)) 32;
               mstore_range m (dat + Z.of_nat (length X1))
                 (_mm256_min_epu8 (_mm256_max_epu8 pixels (_mm256_set1_epi8 lo))
                    (_mm256_set1_epi8 hi)))
              = Some (with_bytes m ((P ++ X1) ++ B' ++ X2' ++ R))) as Hstep.
      { unfold mload_range. rewrite Hoff, Hm'.
        replace 32 with (Z.of_nat (length B)) at 1 by lia.
        rewrite load_range_app. cbn [mbind option_bind].
        rewrite vector_clip by done.
        unfold mstore_range. rewrite Hoff, Hm'.
        by rewrite store_range_app by (by rewrite length_fmap). }
      destruct (IH (with_bytes m ((P ++ X1) ++ B' ++ X2' ++ R)) (X1 ++ B') X2')
        as (Y & Z & HYZ & HZ & Hrun).
      { simpl. by rewrite <- !app_assoc. }
      { done. }
      { rewrite length_app. unfold B'. rewrite length_fmap.
        rewrite HX2, length_app in Hcs. lia. }
      { rewrite HX2, length_app in Hfuel. lia. }
      exists (B ++ Y), Z. split; [by rewrite HX2, HYZ, <- app_assoc|].
      split; [done|]. rewrite Hstep. cbn [mbind option_bind].
      replace (Z.of_nat (length X1) + 32) with (Z.of_nat (length (X1 ++ B')))
        by (rewrite length_app; unfold B'; rewrite length_fmap; lia).
      rewrite Hrun. rewrite with_bytes_with_bytes. f_equal. f_equal.
      * f_equal. rewrite fmap_app. fold B'. by rewrite <- !app_assoc.
      * rewrite !length_app. unfold B'. rewrite length_fmap. lia.
    + exists [], X2. split; [done|]. split; [lia|].
      rewrite Hid by done. f_equal. f_equal. simpl. lia.
Qed.

(** The scalar loop over a run of bytes. *)
Lemma modify_run g Zs : ∀ P R,
  foldM (modify g) (P ++ Zs ++ R) (seqZ (Z.of_nat (length P)) (Z.of_nat (length Zs)))
  = Some (P ++ (g <$> Zs) ++ R).
Proof.
  induction Zs as [|z Zs IH]; intros P R; [done|].
  rewrite seqZ_cons by (simpl; lia). rewrite foldM_cons.
  rewrite (modify_Some g _ _ z); [|lia|].
  2:{ rewrite Nat2Z.id. by rewrite lookup_app_r, Nat.sub_diag. }
  cbn [mbind option_bind]. rewrite Nat2Z.id.
  replace (<[length P:=g z]> (P ++ (z :: Zs) ++ R)) with ((P ++ [g z]) ++ Zs ++ R).
  2:{ rewrite <- (Nat.add_0_r (length P)), insert_app_r. simpl.
      by rewrite <- app_assoc. }
  replace (Z.succ (Z.of_nat (length P))) with (Z.of_nat (length (P ++ [g z])))
    by (rewrite length_app; simpl; lia).
  replace (Z.pred (Z.of_nat (length (z :: Zs)))) with (Z.of_nat (length Zs))
    by (simpl; lia).
  rewrite IH. by rewrite <- app_assoc.
Qed.

(** One frame of [clip_channel_S] on the slice [X]: whole batches [Y]
    through the vector lanes, the tail [T] through [CLAMP]. *)
Lemma clip_frame_S_slice lo hi m P X R dat :
  bytes m = P ++ X ++ R →
  dat - base m = Z.of_nat (length P) →
  ∃ Y T,
    X = Y ++ T ∧ (length T < 32)%nat ∧
    clip_frame_S m dat (Z.of_nat (length X)) lo hi
    = Some (with_bytes m
              (P ++ (lane_clip lo hi <$> Y) ++ ((λ x, CLAMP x lo hi) <$> T) ++ R)).
Proof.
  intros Hm Hdat.
  destruct (clip_batches lo hi P R dat (Z.of_nat (length X)) (length X) m [] X)
    as (Y & T & HX & HT & Hrun); [done|done|simpl; lia|done|].
  exists Y, T. split; [done|]. split; [done|].
  unfold clip_frame_S. cbv zeta. rewrite Nat2Z.id.
  change (Z.of_nat (length (@nil Z))) with 0 in Hrun.
  rewrite Hrun. cbn [mbind option_bind app]. rewrite Z.add_0_l.
  set (m1 := with_bytes m (P ++ (lane_clip lo hi <$> Y) ++ T ++ R)).
  rewrite (foldM_with_bytes
             (λ b d i, modify (λ x, CLAMP x lo hi) d (dat + i - b))).
  change (base m1) with (base m). change (bytes m1) with
    (P ++ (lane_clip lo hi <$> Y) ++ T ++ R).
  pose proof (modify_run (λ x, CLAMP x lo hi) T (P ++ (lane_clip lo hi <$> Y)) R)
    as Htail.
  rewrite <- !app_assoc in Htail.
  replace (Z.of_nat (length X) - Z.of_nat (length Y)) with (Z.of_nat (length T))
    by (rewrite HX, length_app; lia).
  erewrite foldM_ext.
  - rewrite <- (foldM_fmap (Z.add (Z.of_nat (length P)))
                  (modify (λ x, CLAMP x lo hi))).
    rewrite fmap_add_seqZ.
    replace (Z.of_nat (length P) + Z.of_nat (length Y))
      with (Z.of_nat (length (P ++ (lane_clip lo hi <$> Y))))
      by (rewrite length_app, length_fmap; lia).
    rewrite Htail. done.
  - intros d i _. simpl. f_equal. lia.
Qed.

(** One frame of [clip_channel_S] on slice [k] of the payload. *)
Lemma clip_frame_S_chunk lo hi s m FD CD PX k X :
  regions s m FD CD PX → 0 ≤ k → PX !! Z.to_nat k = Some X →
  ∃ Y T m',
    X = Y ++ T ∧ (length T < 32)%nat ∧
    clip_frame_S m
      (base m + num_frames (shdr s) * 8
       + num_frames (shdr s) * channels (shdr s) * 8
       + k * (height (shdr s) * width (shdr s)))
      (height (shdr s) * width (shdr s)) lo hi = Some m' ∧
    regions s m' FD CD
      (<[Z.to_nat k:=(lane_clip lo hi <$> Y) ++ ((λ x, CLAMP x lo hi) <$> T)]> PX).
Proof.
  intros Hrg Hk HX. destruct Hrg as [Hfr Hb HFD HnFD HCD HnCD HPX HnPX].
  set (fs := height (shdr s) * width (shdr s)) in *.
  pose proof (chunked_lookup fs PX _ X HPX HX) as HlenX.
  destruct (chunk_position fs (concat FD ++ concat CD) PX [] _ X HPX HX)
    as [Hsplit Hpos].
  set (P := (concat FD ++ concat CD) ++ concat (take (Z.to_nat k) PX)) in *.
  set (R := concat (drop (S (Z.to_nat k)) PX) ++ []) in *.
  assert (bytes m = P ++ X ++ R) as Hm.
  { rewrite Hb, <- Hsplit. by rewrite app_nil_r, <- app_assoc. }
  destruct (clip_frame_S_slice lo hi m P X R
              (base m + num_frames (shdr s) * 8
               + num_frames (shdr s) * channels (shdr s) * 8 + k * fs) Hm)
    as (Y & T & HYT & HT & Hrun).
  { rewrite Hpos, length_app, Nat2Z.inj_add.
    rewrite (chunked_length 8 FD HFD), (chunked_length 8 CD HCD).
    rewrite Z2Nat.id by lia. lia. }
  rewrite HlenX in Hrun.
  set (X' := (lane_clip lo hi <$> Y) ++ ((λ x, CLAMP x lo hi) <$> T)).
  exists Y, T, (with_bytes m (P ++ X' ++ R)).
  split; [done|]. split; [done|]. split.
  { rewrite Hrun. unfold X'. by rewrite <- !app_assoc. }
  assert (Z.of_nat (length X') = fs) as HlenX'.
  { unfold X'. rewrite length_app, !length_fmap, <- length_app, <- HYT. done. }
  split; simpl; try done.
  - unfold P, R. rewrite insert_take_drop by (by apply lookup_lt_Some in HX).
    fold X'. rewrite concat_app, concat_cons, app_nil_r.
    by repeat rewrite <- app_assoc.
  - by apply chunked_insert.
  - by rewrite length_insert.
Qed.

(** A well-formed arena as its regions, with the slice each channel
    refers to. *)
Lemma wf_regions s m :
  wf_arena s m →
  ∃ FD CD PX,
    regions s m FD CD PX ∧
    ∀ i c, 0 ≤ i < num_frames (shdr s) → 0 ≤ c < channels (shdr s) →
           ∃ k, slot_of s FD CD i c k.
Proof.
  intros Hwf.
  pose proof (wfa_num_frames _ _ Hwf) as Hn. pose proof (wfa_channels _ _ Hwf) as HC.
  pose proof (wfa_frames _ _ Hwf) as Hfr.
  set (fs := height (shdr s) * width (shdr s)).
  assert (0 ≤ fs) by (destruct Hwf; unfold fs; nia).
  assert (0 ≤ num_frames (shdr s) * channels (shdr s)) by nia.
  destruct (split_regions (Z.to_nat (num_frames (shdr s)))
              (Z.to_nat (num_frames (shdr s) * channels (shdr s))) fs (bytes m))
    as (FD & CD & PX & Hb & ? & ? & ? & ? & ? & ?); [done| |].
  { rewrite (wfa_length _ _ Hwf). fold fs. lia. }
  assert (regions s m FD CD PX) as Hrg by (split; try done; lia).
  exists FD, CD, PX. split; [done|]. intros i c Hi Hc.
  destruct (wfa_frame_desc _ _ Hwf i Hi) as (j & Hj & Hfd).
  assert (0 ≤ j * channels (shdr s) + c
          < num_frames (shdr s) * channels (shdr s)) as Hjc by nia.
  destruct (wfa_channel_desc _ _ Hwf _ Hjc) as (k & Hk & Hcd).
  destruct (lookup_lt_is_Some_2 FD (Z.to_nat i)) as [fd Hfdi]; [lia|].
  destruct (lookup_lt_is_Some_2 CD (Z.to_nat (j * channels (shdr s) + c)))
    as [cd Hcdi]; [lia|].
  exists k, fd, j, cd. split; [done|]. split; [done|].
  unfold load_ptr in Hfd, Hcd.
  rewrite (regions_load_frame s m FD CD PX i fd Hrg) in Hfd by (done || lia).
  rewrite (regions_load_channel s m FD CD PX _ cd Hrg) in Hcd by (done || lia).
  simpl in Hfd, Hcd. injection Hfd as Hfd. injection Hcd as Hcd.
  rewrite Hfr. by fold fs.
Qed.

(** Reading a channel through the descriptor records. *)
Lemma slot_channel_pixels s m FD CD PX i c k :
  regions s m FD CD PX → 0 ≤ i → 0 ≤ c → slot_of s FD CD i c k →
  channel_data m s i c
  = Some (base m + num_frames (shdr s) * 8
          + num_frames (shdr s) * channels (shdr s) * 8
          + k * (height (shdr s) * width (shdr s))) ∧
  channel_pixels m s i c = PX !! Z.to_nat k.
Proof.
  intros Hrg Hi Hc (fd & j & cd & Hfd & Hj & Hfdv & Hcd & Hk & Hcdv).
  pose proof (rg_frames _ _ _ _ _ Hrg) as Hfr.
  assert (channel_data m s i c
          = Some (base m + num_frames (shdr s) * 8
                  + num_frames (shdr s) * channels (shdr s) * 8
                  + k * (height (shdr s) * width (shdr s)))) as Hdat.
  { unfold channel_data, channel_at, load_ptr.
    rewrite (regions_load_frame s m FD CD PX i fd Hrg) by done.
    cbn [fmap option_fmap option_map mbind option_bind]. rewrite Hfdv, Hfr.
    replace (base m + num_frames (shdr s) * 8 + j * channels (shdr s) * 8 + c * 8)
      with (base m + num_frames (shdr s) * 8 + (j * channels (shdr s) + c) * 8)
      by lia.
    rewrite (regions_load_channel s m FD CD PX _ cd Hrg) by (done || nia).
    cbn [fmap option_fmap option_map]. by rewrite Hcdv, Hfr. }
  split; [done|]. unfold channel_pixels. rewrite Hdat. cbn [mbind option_bind].
  destruct (lookup_lt_is_Some_2 PX (Z.to_nat k)) as [px Hpx].
  { destruct Hrg. lia. }
  rewrite Hpx. by apply (regions_load_pixels s m FD CD PX); [|lia|].
Qed.

Lemma CLAMP_idem lo hi x : lo ≤ hi → CLAMP (CLAMP x lo hi) lo hi = CLAMP x lo hi.
Proof. intros. apply CLAMP_fixed. by apply CLAMP_bounds. Qed.

(** ** C2: the vector path of [clip_channel_S] against scalar [CLAMP] *)

(** C2 (as amended): for an arena store, a channel index
    [c < channels] and bounds with [min_value ≤ max_value],
    [clip_channel_S] completes and every element of channel [c] of every
    frame, whether in a 32-byte batch or in the tail, is the scalar
    [CLAMP] of the element it replaces. *)
Theorem clip_channel_S_matches_scalar s m c min_value max_value :
  wf_arena s m → 0 ≤ c < channels (shdr s) → min_value ≤ max_value →
  clip_S_is_scalar s m c min_value max_value.
Proof.
  intros Hwf Hc Hle. unfold clip_S_is_scalar.
  destruct (wf_regions s m Hwf) as (FD & CD & PX & Hrg & Hslot).
  pose proof (wfa_num_frames _ _ Hwf) as Hn.
  set (g := λ x, CLAMP x min_value max_value).
  assert (∀ px : list Z, g <$> (g <$> px) = g <$> px) as Hidem.
  { intros px. rewrite <- list_fmap_compose. apply list_fmap_ext.
    intros _ x _. by apply CLAMP_idem. }
  destruct (foldM_invariant
              (λ k mk, ∃ PXk,
                   regions s mk FD CD PXk ∧
                   (∀ j px, PX !! j = Some px →
                            PXk !! j = Some px ∨ PXk !! j = Some (g <$> px)) ∧
                   (∀ i, 0 ≤ i < k →
                         ∃ ks px, slot_of s FD CD i c ks ∧
                                  PX !! Z.to_nat ks = Some px ∧
                                  PXk !! Z.to_nat ks = Some (g <$> px)))
              (λ m frame_idx,
                 dat ← channel_data m s frame_idx c;
                 clip_frame_S m dat (height (shdr s) * width (shdr s))
                   min_value max_value)
              m (num_frames (shdr s)))
    as (m' & Hrun & PXn & Hrgn & _ & Hdone); [lia| |  |].
  - exists PX. split; [done|]. split; [by left|]. intros; lia.
  - intros k mk Hk (PXk & Hrgk & Hsome & Hprev).
    destruct (Hslot k c) as [ks Hks]; [lia..|].
    destruct (slot_channel_pixels s mk FD CD PXk k c ks Hrgk) as [Hdat _];
      [lia..|done|].
    assert (0 ≤ ks < num_frames (shdr s) * channels (shdr s)) as Hksr.
    { by destruct Hks as (? & ? & ? & _ & _ & _ & _ & ? & _). }
    destruct (lookup_lt_is_Some_2 PX (Z.to_nat ks)) as [px Hpx].
    { destruct Hrg. lia. }
    assert (∃ X, PXk !! Z.to_nat ks = Some X ∧ g <$> X = g <$> px) as (X & HX & HgX).
    { destruct (Hsome _ _ Hpx) as [HX|HX]; eexists; (split; [exact HX|done]). }
    destruct (clip_frame_S_chunk min_value max_value s mk FD CD PXk ks X Hrgk)
      as (Y & T & mk' & HYT & _ & Hclip & Hrgk'); [lia|done|].
    assert ((lane_clip min_value max_value <$> Y) ++ (g <$> T) = g <$> px) as HX'.
    { rewrite <- HgX, HYT, fmap_app. f_equal. apply list_fmap_ext.
      intros _ x _. by apply lane_clip_CLAMP. }
    fold g in Hrgk'. rewrite HX' in Hrgk'.
    exists mk'. split; [by rewrite Hdat|].
    exists (<[Z.to_nat ks:=g <$> px]> PXk). split; [done|].
    assert (Z.to_nat ks < length PXk)%nat as Hlt by (by apply lookup_lt_Some in HX).
    split.
    + intros j px' Hj. destruct (decide (j = Z.to_nat ks)) as [->|Hne].
      * right. rewrite list_lookup_insert_eq by done. congruence.
      * rewrite list_lookup_insert_ne by done. by apply Hsome.
    + intros i Hi. destruct (decide (i = k)) as [->|Hne].
      * exists ks, px. split; [done|]. split; [done|].
        by apply list_lookup_insert_eq.
      * destruct (Hprev i) as (ks' & px' & Hks' & Hpx' & HPXk'); [lia|].
        exists ks', px'. split; [done|]. split; [done|].
        destruct (decide (Z.to_nat ks' = Z.to_nat ks)) as [Heq|Hneq].
        -- rewrite Heq in *. rewrite list_lookup_insert_eq by done. congruence.
        -- by rewrite list_lookup_insert_ne.
  - exists m'. split.
    { unfold clip_channel_S. rewrite bool_decide_false by lia. cbv zeta.
      by rewrite Hrun. }
    intros i Hi. destruct (Hdone i Hi) as (ks & px & Hks & Hpx & HPXn).
    exists px.
    destruct (slot_channel_pixels s m FD CD PX i c ks Hrg) as [_ ->]; [lia..|done|].
    destruct (slot_channel_pixels s m' FD CD PXn i c ks Hrgn) as [_ ->]; [lia..|done|].
    done.
Qed.

Lemma batch_and_tail_wf :
  wf_arena batch_and_tail_S (batch_and_tail_arena (replicate 33 50)).
Proof.
  split; simpl; try first [reflexivity | lia].
  - intros i Hi. assert (i = 0) as -> by lia.
    exists 0. split; [lia|]. vm_compute. reflexivity.
  - intros j Hj. assert (j = 0) as -> by lia.
    exists 0. split; [lia|]. vm_compute. reflexivity.
Qed.

Lemma clip_channel_S_matches_scalar_witness :
  clip_S_is_scalar batch_and_tail_S (batch_and_tail_arena (replicate 33 50)) 0 100 200.
Proof.
  apply (clip_channel_S_matches_scalar batch_and_tail_S
           (batch_and_tail_arena (replicate 33 50)) 0 100 200).
  - exact batch_and_tail_wf.
  - simpl. lia.
  - lia.
Defined.

(** With inverted bounds, on a channel of 33 pixels of value 50: the 32
    pixels of the vector batch become [min (max 50 200) 100 = 100], the
    pixel of the tail becomes [CLAMP 50 200 100 = 200], which is what
    the scalar rule gives for all 33. *)
Lemma clip_channel_S_inverted_bounds :
  wf_arena batch_and_tail_S (batch_and_tail_arena (replicate 33 50)) ∧
  clip_channel_S (Some batch_and_tail_S) (batch_and_tail_arena (replicate 33 50))
    0 200 100
  = Ok (batch_and_tail_arena (replicate 32 100 ++ [200])) ∧
  (λ x, CLAMP x 200 100) <$> replicate 33 50 = replicate 33 200 ∧
  ¬ clip_S_is_scalar batch_and_tail_S (batch_and_tail_arena (replicate 33 50))
      0 200 100.
Proof.
  split; [exact batch_and_tail_wf|].
  assert (clip_channel_S (Some batch_and_tail_S)
            (batch_and_tail_arena (replicate 33 50)) 0 200 100
          = Ok (batch_and_tail_arena (replicate 32 100 ++ [200]))) as Hrun
    by (vm_compute; reflexivity).
  split; [exact Hrun|]. split; [reflexivity|].
  intros (m' & Hm' & Hpx). rewrite Hrun in Hm'. injection Hm' as <-.
  destruct (Hpx 0) as (px & Hbefore & Hafter); [simpl; lia|].
  vm_compute in Hbefore. injection Hbefore as <-.
  vm_compute in Hafter. discriminate.
Qed.

(** ** The bulk-export reverse and swap against the arena transforms *)

Lemma chunk_frames_last chunk_start CHUNK_SIZE total :
  total < chunk_start + CHUNK_SIZE →
  chunk_frames chunk_start CHUNK_SIZE total = seqZ chunk_start (total - chunk_start).
Proof. intros. unfold chunk_frames. rewrite bool_decide_true by lia. done. Qed.

Lemma chunk_frames_full chunk_start CHUNK_SIZE total :
  chunk_start + CHUNK_SIZE ≤ total →
  chunk_frames chunk_start CHUNK_SIZE total = seqZ chunk_start CHUNK_SIZE.
Proof.
  intros. unfold chunk_frames. rewrite bool_decide_false by lia.
  f_equal. lia.
Qed.

Lemma seqZ_nil m n : n ≤ 0 → seqZ m n = [].
Proof. intros. apply length_zero_iff_nil. rewrite length_seqZ. lia. Qed.

Lemma for_step_chunks {S} (body : S → Z → option S) CHUNK_SIZE total fuel : ∀ s k,
  0 < CHUNK_SIZE → (Z.to_nat (total - k) ≤ fuel)%nat →
  fst <$> for_step fuel (λ chunk_start, bool_decide (chunk_start < total)) CHUNK_SIZE
            (λ s chunk_start, foldM body s (chunk_frames chunk_start CHUNK_SIZE total))
            s k
  = foldM body s (seqZ k (total - k)).
Proof.
  induction fuel as [|fuel IH]; intros s k HC Hfuel.
  - cbn [for_step]. rewrite bool_decide_false by lia.
    rewrite seqZ_nil by lia. done.
  - cbn [for_step]. destruct (decide (k < total)) as [Hk|Hk].
    + rewrite bool_decide_true by done.
      destruct (decide (total < k + CHUNK_SIZE)).
      * rewrite chunk_frames_last by done.
        destruct (foldM body s (seqZ k (total - k))) as [s'|] eqn:Hs; [|done].
        cbn [mbind option_bind].
        destruct fuel; cbn [for_step]; rewrite bool_decide_false by lia; done.
      * rewrite chunk_frames_full by lia.
        replace (total - k) with (CHUNK_SIZE + (total - (k + CHUNK_SIZE))) by lia.
        rewrite seqZ_app by lia. rewrite foldM_app.
        destruct (foldM body s (seqZ k CHUNK_SIZE)) as [s'|]; [|done].
        cbn [mbind option_bind]. rewrite IH by lia. done.
    + rewrite bool_decide_false by done. rewrite seqZ_nil by lia. done.
Qed.

Lemma for_step_chunks_0 {S} (body : S → Z → option S) CHUNK_SIZE total fuel s :
  0 < CHUNK_SIZE → (Z.to_nat total ≤ fuel)%nat →
  ('(s, _) ← for_step fuel (λ chunk_start, bool_decide (chunk_start < total)) CHUNK_SIZE
            (λ s chunk_start, foldM body s (chunk_frames chunk_start CHUNK_SIZE total))
            s 0; Some (0, s))
  = (λ s, (0, s)) <$> foldM body s (seqZ 0 total).
Proof.
  intros HC Hf.
  pose proof (for_step_chunks body CHUNK_SIZE total fuel s 0 HC) as H.
  rewrite Z.sub_0_r in H. rewrite <- H by lia.
  destruct for_step as [[s' i]|]; done.
Qed.

(** X1: the bulk-export reverse, which walks the frames in chunks of 50,
    leaves the arena exactly as [reverse_S] does, and returns -1 exactly
    when [reverse_S] reports an error. *)
Theorem reverse_S_wasm_is_reverse_S video m :
  reverse_S_wasm video m = exit_code m (reverse_S video m).
Proof.
  destruct video as [s|]; [|done].
  unfold reverse_S_wasm, reverse_S. case_bool_decide; [done|]. cbv zeta.
  rewrite for_step_chunks_0; [| lia |].
  - destruct foldM; done.
  - destruct (decide (0 ≤ num_frames (shdr s))).
    + apply Z2Nat.inj_le; [apply Z.quot_pos; lia | lia |].
      apply Z.quot_le_upper_bound; lia.
    + assert (num_frames (shdr s) `quot` 2 ≤ 0); [|lia].
      rewrite <- (Z.opp_involutive (num_frames (shdr s))), Z.quot_opp_l by lia.
      assert (0 ≤ (- num_frames (shdr s)) `quot` 2) by (apply Z.quot_pos; lia).
      lia.
Qed.

(** X2: on a store that is not [NULL], the bulk-export swap, which walks
    the frames in chunks of 100, leaves the arena exactly as
    [swap_channels_S] does, and returns -1 exactly when [swap_channels_S]
    reports an error. *)
Theorem swap_channels_S_wasm_is_swap_channels_S s m channel1 channel2 :
  swap_channels_S_wasm (Some s) m channel1 channel2
  = exit_code m (swap_channels_S (Some s) m channel1 channel2).
Proof.
  unfold swap_channels_S_wasm, swap_channels_S.
  repeat case_bool_decide; try done. cbv zeta.
  rewrite for_step_chunks_0 by lia.
  destruct foldM; done.
Qed.

(** ** The flat transforms, channel by channel *)

Lemma insert_middle {A} (l1 l2 : list A) x y :
  <[length l1 := y]> (l1 ++ x :: l2) = l1 ++ y :: l2.
Proof. by rewrite <- (Nat.add_0_r (length l1)), insert_app_r. Qed.

(** Where record [i] lies, and what replacing it gives. *)
Lemma chunk_replace sz P0 L R0 i X :
  chunked sz L → L !! i = Some X →
  ∃ P R,
    P0 ++ concat L ++ R0 = P ++ X ++ R ∧
    Z.of_nat (length P) = Z.of_nat (length P0) + Z.of_nat i * sz ∧
    ∀ X', P ++ X' ++ R = P0 ++ concat (<[i:=X']> L) ++ R0.
Proof.
  intros HL Hi. destruct (chunk_position sz P0 L R0 i X HL Hi) as [Heq Hlen].
  exists (P0 ++ concat (take i L)), (concat (drop (S i) L) ++ R0).
  split; [done|]. split; [done|]. intros X'.
  rewrite insert_take_drop by (by apply lookup_lt_Some in Hi).
  rewrite concat_app. simpl. by rewrite <- !app_assoc.
Qed.

(** A loop of partial updates over a run of bytes. *)
Lemma update_run g g' Zs : ∀ P R,
  (∀ x, x ∈ Zs → g x = Some (g' x)) →
  foldM (update g) (P ++ Zs ++ R) (seqZ (Z.of_nat (length P)) (Z.of_nat (length Zs)))
  = Some (P ++ (g' <$> Zs) ++ R).
Proof.
  intros P R Hg. rewrite <- (modify_run g' Zs P R).
  revert P Hg. induction Zs as [|z Zs IH]; intros P Hg; [done|].
  rewrite seqZ_cons by (simpl; lia). rewrite !foldM_cons.
  assert (update g (P ++ (z :: Zs) ++ R) (Z.of_nat (length P))
          = modify g' (P ++ (z :: Zs) ++ R) (Z.of_nat (length P))) as ->.
  { unfold update, modify.
    assert (load (P ++ (z :: Zs) ++ R) (Z.of_nat (length P)) = Some z) as ->.
    { rewrite load_lookup. by apply list_lookup_middle. }
    cbn [mbind option_bind]. rewrite Hg by left. done. }
  rewrite (modify_Some g' _ _ z); [|lia|].
  2:{ rewrite Nat2Z.id. by apply list_lookup_middle. }
  cbn [mbind option_bind]. rewrite Nat2Z.id.
  change ((z :: Zs) ++ R) with (z :: (Zs ++ R)). rewrite insert_middle.
  replace (P ++ g' z :: Zs ++ R) with ((P ++ [g' z]) ++ Zs ++ R)
    by (by rewrite <- app_assoc).
  replace (Z.succ (Z.of_nat (length P))) with (Z.of_nat (length (P ++ [g' z])))
    by (rewrite length_app; simpl; lia).
  replace (Z.pred (Z.of_nat (length (z :: Zs)))) with (Z.of_nat (length Zs))
    by (simpl; lia).
  apply IH. intros x Hx. apply Hg. by right.
Qed.

(** The loop [for (i = 0; i < n; i++) upd(base + i)] visits a run. *)
Lemma foldM_shift {S} (upd : S → Z → option S) s off n :
  foldM (λ s i, upd s (off + i)) s (seqZ 0 n) = foldM upd s (seqZ off n).
Proof.
  rewrite <- (foldM_fmap (Z.add off) upd). by rewrite fmap_add_seqZ, Z.add_0_r.
Qed.

(** ** The flat buffer as a sequence of channel slices *)

Lemma flat_slices_exist v d :
  wf_video v d →
  ∃ L, d = concat L ∧ chunked (height (hdr v) * width (hdr v)) L ∧
       Z.of_nat (length L) = num_frames (hdr v) * channels (hdr v).
Proof.
  intros [].
  destruct (chunks_exist (height (hdr v) * width (hdr v))
              (Z.to_nat (num_frames (hdr v) * channels (hdr v))) d)
    as (L & ? & ? & ?); [nia|nia|].
  exists L. split; [done|]. split; [done|]. nia.
Qed.

Lemma channel_of_slice v L f c :
  data v = Some (concat L) → chunked (height (hdr v) * width (hdr v)) L →
  0 ≤ f * channels (hdr v) + c < Z.of_nat (length L) →
  channel_of v f c = L !! Z.to_nat (f * channels (hdr v) + c).
Proof.
  intros Hd HL Hk. unfold channel_of. rewrite Hd. cbn [mbind option_bind].
  destruct (lookup_lt_is_Some_2 L (Z.to_nat (f * channels (hdr v) + c)))
    as [X HX]; [lia|].
  rewrite HX. pose proof (load_chunk _ [] L [] _ X HL HX) as Hld.
  rewrite app_nil_l, app_nil_r in Hld. rewrite <- Hld. f_equal.
  unfold offset. rewrite Z2Nat.id by lia. simpl. lia.
Qed.

Lemma slot_in_range n C f c : 0 ≤ f < n → 0 ≤ c < C → 0 ≤ f * C + c < n * C.
Proof. nia. Qed.

Lemma slot_inj C f c f' c' :
  0 ≤ c < C → 0 ≤ c' < C → f * C + c = f' * C + c' → f = f' ∧ c = c'.
Proof. intros. assert (f = f') by nia. subst. lia. Qed.

Lemma slot_offset v d f c :
  wf_video v d →
  0 ≤ f < num_frames (hdr v) → 0 ≤ c < channels (hdr v) →
  wrap64 (f * (channels (hdr v) * height (hdr v) * width (hdr v))
          + c * (height (hdr v) * width (hdr v)))
  = (f * channels (hdr v) + c) * (height (hdr v) * width (hdr v)).
Proof.
  intros Hwf Hf Hc. pose proof (slot_in_range _ _ f c Hf Hc).
  assert (0 ≤ height (hdr v) * width (hdr v)) by (destruct Hwf; nia).
  assert (Z.of_nat (length d)
          = num_frames (hdr v) * channels (hdr v) * (height (hdr v) * width (hdr v)))
    by (destruct Hwf; lia).
  assert (Z.of_nat (length d) < 2 ^ 64) by (by destruct Hwf).
  rewrite wrap64_small; [lia|]. nia.
Qed.

Section flat_slices.
Context (v : Video) (d : list Z) (L : list (list Z)).
Local Notation "'n'" := (num_frames (hdr v)).
Local Notation "'C'" := (channels (hdr v)).
Local Notation "'cs'" := (height (hdr v) * width (hdr v)).
Context (Hwf : wf_video v d) (HdL : d = concat L) (HL : chunked cs L).
Context (HLn : Z.of_nat (length L) = n * C).

(** A per-channel transform: the two nested loops rewrite slice
    [(f, c)] of every frame [f] and nothing else. *)
Lemma flat_channel_slices (upd : list Z → Z → option (list Z)) G c :
  0 ≤ c < C →
  (∀ P X R, X ∈ L →
     foldM upd (P ++ X ++ R) (seqZ (Z.of_nat (length P)) (Z.of_nat (length X)))
     = Some (P ++ G X ++ R)) →
  (∀ X, length (G X) = length X) →
  ∃ L',
    foldM (λ d frame_idx,
        foldM (λ d i,
            upd d (wrap64 (frame_idx * (C * height (hdr v) * width (hdr v))
                           + c * cs) + i))
          d (seqZ 0 cs))
      d (seqZ 0 n) = Some (concat L') ∧
    chunked cs L' ∧ length L' = length L ∧
    ∀ f c', 0 ≤ f < n → 0 ≤ c' < C →
      L' !! Z.to_nat (f * C + c')
      = if decide (c' = c) then G <$> L !! Z.to_nat (f * C + c')
        else L !! Z.to_nat (f * C + c').
Proof.
  intros Hc Hupd HG.
  destruct (foldM_invariant
              (λ k dk, ∃ Lk, dk = concat Lk ∧ chunked cs Lk ∧ length Lk = length L ∧
                 ∀ f c', 0 ≤ f < n → 0 ≤ c' < C →
                   Lk !! Z.to_nat (f * C + c')
                   = if decide (f < k ∧ c' = c)
                     then G <$> L !! Z.to_nat (f * C + c')
                     else L !! Z.to_nat (f * C + c'))
              (λ d frame_idx,
                 foldM (λ d i,
                     upd d (wrap64 (frame_idx * (C * height (hdr v) * width (hdr v))
                                    + c * cs) + i))
                   d (seqZ 0 cs))
              d n) as (d' & Hrun & L' & -> & HL' & Hlen & Hall).
  - destruct Hwf; lia.
  - exists L. split; [done|]. split; [done|]. split; [done|].
    intros f c' Hf Hc'. rewrite decide_False; [done|lia].
  - intros k dk Hk (Lk & -> & HLk & Hlen & Hall).
    pose proof (slot_in_range _ _ k c Hk Hc) as Hi.
    destruct (lookup_lt_is_Some_2 L (Z.to_nat (k * C + c))) as [X HX]; [lia|].
    assert (Lk !! Z.to_nat (k * C + c) = Some X) as HXk.
    { rewrite Hall by done. rewrite decide_False; [done|lia]. }
    destruct (chunk_replace cs [] Lk [] _ X HLk HXk) as (P & R & Heq & HP & Hrep).
    rewrite app_nil_l, app_nil_r in Heq.
    rewrite foldM_shift, (slot_offset v d) by done.
    rewrite Heq. replace ((k * C + c) * cs) with (Z.of_nat (length P)).
    2:{ rewrite HP. simpl. rewrite Z2Nat.id by lia. lia. }
    pose proof (chunked_lookup cs Lk _ X HLk HXk) as HlenX.
    replace (seqZ (Z.of_nat (length P)) cs)
      with (seqZ (Z.of_nat (length P)) (Z.of_nat (length X))) by (by rewrite HlenX).
    rewrite Hupd by (by eapply list_elem_of_lookup_2).
    eexists. split; [done|].
    exists (<[Z.to_nat (k * C + c):=G X]> Lk).
    split. { rewrite Hrep. by rewrite app_nil_l, app_nil_r. }
    split. { apply chunked_insert; [done|]. by rewrite HG. }
    split. { by rewrite length_insert. }
    intros f c' Hf Hc'.
    destruct (decide (f * C + c' = k * C + c)) as [Heq'|Hne].
    + apply slot_inj in Heq' as [-> ->]; [|done..].
      rewrite list_lookup_insert_eq by lia.
      rewrite decide_True by lia. by rewrite HX.
    + pose proof (slot_in_range _ _ f c' Hf Hc').
      rewrite list_lookup_insert_ne by lia. rewrite Hall by done.
      destruct (decide (f < k ∧ c' = c)), (decide (f < k + 1 ∧ c' = c));
        try done; try lia.
      assert (f = k) by lia. subst. lia.
  - exists L'. split; [done|]. split; [done|]. split; [done|].
    intros f c' Hf Hc'. rewrite Hall by done.
    destruct (decide (f < n ∧ c' = c)), (decide (c' = c)); try done; lia.
Qed.

End flat_slices.

Lemma with_data_same v d : data v = Some d → with_data v d = v.
Proof. destruct v as [h dat]. simpl. intros ->. done. Qed.

Lemma wf_video_slices v d L' L :
  wf_video v d → d = concat L →
  chunked (height (hdr v) * width (hdr v)) L →
  chunked (height (hdr v) * width (hdr v)) L' → length L' = length L →
  wf_video (with_data v (concat L')) (concat L').
Proof.
  intros Hwf -> HL HL' Hlen. apply (wf_video_with_data v (concat L)); [done|].
  apply Nat2Z.inj. rewrite (chunked_length _ _ HL), (chunked_length _ _ HL').
  by rewrite Hlen.
Qed.

Lemma elem_of_concat {A} (x : A) X (L : list (list A)) :
  x ∈ X → X ∈ L → x ∈ concat L.
Proof.
  intros Hx. induction 1; simpl; apply elem_of_app; auto.
Qed.

(** A per-channel transform of the flat layout, on slices. *)
Lemma flat_channel_transform (upd : list Z → Z → option (list Z)) G v d c :
  wf_video v d → 0 ≤ c < channels (hdr v) →
  (∀ P X R, (∀ x, x ∈ X → x ∈ d) →
     foldM upd (P ++ X ++ R) (seqZ (Z.of_nat (length P)) (Z.of_nat (length X)))
     = Some (P ++ (G <$> X) ++ R)) →
  ∃ d',
    foldM (λ d frame_idx,
        foldM (λ d i,
            upd d (wrap64 (frame_idx * (channels (hdr v) * height (hdr v) * width (hdr v))
                           + c * (height (hdr v) * width (hdr v))) + i))
          d (seqZ 0 (height (hdr v) * width (hdr v))))
      d (seqZ 0 (num_frames (hdr v))) = Some d' ∧
    wf_video (with_data v d') d' ∧
    ∀ f c', 0 ≤ f < num_frames (hdr v) → 0 ≤ c' < channels (hdr v) →
      channel_of (with_data v d') f c'
      = if decide (c' = c)
        then (λ px : list Z, G <$> px) <$> channel_of v f c'
        else channel_of v f c'.
Proof.
  intros Hwf Hc Hupd. destruct (flat_slices_exist v d Hwf) as (L & HdL & HL & HLn).
  destruct (flat_channel_slices v d L Hwf HdL HL HLn upd (fmap G) c Hc)
    as (L' & Hrun & HL' & Hlen & Hall).
  { intros P X R HX. apply Hupd. intros x Hx. rewrite HdL.
    by apply (elem_of_concat x X). }
  { intros X. apply length_fmap. }
  exists (concat L'). split; [done|].
  split; [by apply (wf_video_slices v d L' L)|].
  intros f c' Hf Hc'.
  assert (0 ≤ f * channels (hdr v) + c' < Z.of_nat (length L)) by nia.
  rewrite (channel_of_slice (with_data v (concat L')) L'); [|done|done|simpl; lia].
  rewrite (channel_of_slice v L); [|by rewrite (wf_data _ _ Hwf), HdL|done|done].
  by apply Hall.
Qed.

(** X3: [clip_channel] rewrites channel [c] of every frame through
    [CLAMP], whatever the bounds, and leaves every other channel as it
    was. *)
Theorem clip_channel_rewrites_one_channel v d c lo hi :
  wf_video v d → 0 ≤ c < channels (hdr v) →
  ∃ v' d',
    clip_channel (Some v) c lo hi = Ok v' ∧ hdr v' = hdr v ∧ wf_video v' d' ∧
    ∀ f c', 0 ≤ f < num_frames (hdr v) → 0 ≤ c' < channels (hdr v) →
      channel_of v' f c'
      = if decide (c' = c)
        then (λ px : list Z, (λ x, CLAMP x lo hi) <$> px) <$> channel_of v f c'
        else channel_of v f c'.
Proof.
  intros Hwf Hc.
  destruct (flat_channel_transform (modify (λ x, CLAMP x lo hi))
              (λ x, CLAMP x lo hi) v d c Hwf Hc) as (d' & Hrun & Hwf' & Hall).
  { intros P X R _. apply modify_run. }
  exists (with_data v d'), d'. split; [|done].
  unfold clip_channel. rewrite (wf_data _ _ Hwf).
  rewrite bool_decide_false by lia. cbv zeta. by rewrite Hrun.
Qed.

(** ** [scale_channel] by an integer factor *)

Lemma float_to_uchar_defined nw x y :
  float_to_uchar IsoC x = Some y → float_to_uchar nw x = Some y.
Proof.
  unfold float_to_uchar. destruct (f32_trunc x) as [t|]; [|done]. simpl.
  by case_bool_decide.
Qed.

Lemma scale_sample_table :
  Forall (λ k, Forall (λ x, scale_sample IsoC (f32_of_int k) x
                            = Some (Z.min (k * x) 255))
                 (seqZ 0 256)) (seqZ 0 256).
Proof. apply (bool_decide_unpack _). vm_compute. exact I. Qed.

Lemma scale_sample_integer nw k x :
  0 ≤ k < 256 → 0 ≤ x < 256 →
  scale_sample nw (f32_of_int k) x = Some (Z.min (k * x) 255).
Proof.
  intros Hk Hx. apply float_to_uchar_defined.
  pose proof scale_sample_table as Htab.
  rewrite Forall_forall in Htab. specialize (Htab k).
  rewrite Forall_forall in Htab. apply Htab; apply elem_of_seqZ; lia.
Qed.

(** X4: [scale_channel] by an integer factor [k] multiplies every sample
    of channel [c] by [k], saturating at 255, and leaves every other
    channel as it was. *)
Theorem scale_channel_integer_factor nw v d c k :
  wf_video v d → Forall (λ x, 0 ≤ x < 256) d →
  0 ≤ c < channels (hdr v) → 0 ≤ k < 256 →
  ∃ v' d',
    scale_channel nw (Some v) c (f32_of_int k) = Ok v' ∧
    hdr v' = hdr v ∧ wf_video v' d' ∧
    ∀ f c', 0 ≤ f < num_frames (hdr v) → 0 ≤ c' < channels (hdr v) →
      channel_of v' f c'
      = if decide (c' = c)
        then (λ px : list Z, (λ x, Z.min (k * x) 255) <$> px) <$> channel_of v f c'
        else channel_of v f c'.
Proof.
  intros Hwf Hbytes Hc Hk.
  destruct (flat_channel_transform (update (scale_sample nw (f32_of_int k)))
              (λ x, Z.min (k * x) 255) v d c Hwf Hc) as (d' & Hrun & Hwf' & Hall).
  { intros P X R HX. apply update_run. intros x Hx.
    apply scale_sample_integer; [done|].
    rewrite Forall_forall in Hbytes. apply Hbytes. by apply HX. }
  exists (with_data v d'), d'. split; [|done].
  unfold scale_channel. rewrite (wf_data _ _ Hwf).
  rewrite bool_decide_false by lia. cbv zeta. by rewrite Hrun.
Qed.

(** ** [swap_channels] on the flat layout *)

(** The body of the inner loop of [swap_channels] at offsets [a], [b]. *)
Lemma swap_two A x B y C :
  (temp ← load (A ++ x :: B ++ y :: C) (Z.of_nat (length A));
   v ← load (A ++ x :: B ++ y :: C) (Z.of_nat (length A) + 1 + Z.of_nat (length B));
   d ← store (A ++ x :: B ++ y :: C) (Z.of_nat (length A)) v;
   store d (Z.of_nat (length A) + 1 + Z.of_nat (length B)) temp)
  = Some (A ++ y :: B ++ x :: C).
Proof.
  assert (Z.of_nat (length A) + 1 + Z.of_nat (length B)
          = Z.of_nat (length (A ++ x :: B))) as ->.
  { rewrite length_app. simpl. lia. }
  rewrite !load_lookup.
  rewrite (list_lookup_middle A (B ++ y :: C) x (length A)) by done.
  cbn [mbind option_bind].
  assert ((A ++ x :: B ++ y :: C) !! length (A ++ x :: B) = Some y) as ->.
  { replace (A ++ x :: B ++ y :: C) with ((A ++ x :: B) ++ y :: C)
      by (by rewrite <- app_assoc).
    by apply list_lookup_middle. }
  cbn [mbind option_bind].
  unfold store. rewrite bool_decide_true.
  2:{ rewrite !length_app. simpl. rewrite length_app. simpl. lia. }
  cbn [mbind option_bind]. rewrite Nat2Z.id, insert_middle.
  rewrite bool_decide_true.
  2:{ rewrite !length_app. simpl. rewrite !length_app. simpl. lia. }
  rewrite Nat2Z.id. f_equal.
  replace (A ++ y :: B ++ y :: C) with ((A ++ y :: B) ++ y :: C)
    by (by rewrite <- app_assoc).
  replace (length (A ++ x :: B)) with (length (A ++ y :: B))
    by (rewrite !length_app; done).
  rewrite insert_middle. by rewrite <- app_assoc.
Qed.

(** Exchanging two runs of equal length one byte at a time. *)
Lemma swap_run P X M Y R (p : nat) :
  length X = length Y → (p ≤ length X)%nat →
  foldM (λ d i,
      temp ← load d (Z.of_nat (length P) + i);
      v ← load d (Z.of_nat (length P) + Z.of_nat (length X) + Z.of_nat (length M) + i);
      d ← store d (Z.of_nat (length P) + i) v;
      store d (Z.of_nat (length P) + Z.of_nat (length X) + Z.of_nat (length M) + i) temp)
    (P ++ X ++ M ++ Y ++ R) (seqZ 0 (Z.of_nat p))
  = Some (P ++ (take p Y ++ drop p X) ++ M ++ (take p X ++ drop p Y) ++ R).
Proof.
  intros Hlen. induction p as [|p IH]; intros Hp.
  { simpl. by rewrite !drop_0. }
  rewrite Nat2Z.inj_succ, <- Z.add_1_r, seqZ_app by lia.
  rewrite foldM_app, IH by lia. cbn [mbind option_bind].
  change (seqZ (0 + Z.of_nat p) 1) with [0 + Z.of_nat p]. rewrite foldM_cons.
  destruct (lookup_lt_is_Some_2 X p) as [x Hx]; [lia|].
  destruct (lookup_lt_is_Some_2 Y p) as [y Hy]; [lia|].
  rewrite (drop_S X x p Hx), (drop_S Y y p Hy).
  rewrite (take_S_r X p x Hx), (take_S_r Y p y Hy).
  set (A := P ++ take p Y).
  set (B := drop (S p) X ++ M ++ take p X).
  set (C := drop (S p) Y ++ R).
  replace (P ++ (take p Y ++ x :: drop (S p) X) ++ M ++ (take p X ++ y :: drop (S p) Y) ++ R)
    with (A ++ x :: B ++ y :: C).
  2:{ unfold A, B, C. by repeat (rewrite <- ?app_assoc; simpl). }
  replace (P ++ ((take p Y ++ [y]) ++ drop (S p) X) ++ M ++ ((take p X ++ [x]) ++ drop (S p) Y) ++ R)
    with (A ++ y :: B ++ x :: C).
  2:{ unfold A, B, C. by repeat (rewrite <- ?app_assoc; simpl). }
  assert (Z.of_nat (length P) + (0 + Z.of_nat p) = Z.of_nat (length A)) as ->.
  { unfold A. rewrite length_app, length_take. lia. }
  assert (Z.of_nat (length P) + Z.of_nat (length X) + Z.of_nat (length M) + (0 + Z.of_nat p)
          = Z.of_nat (length A) + 1 + Z.of_nat (length B)) as ->.
  { unfold A, B. rewrite !length_app, !length_take, length_drop. lia. }
  rewrite swap_two. done.
Qed.

Lemma swap_body_sym d a b :
  (temp ← load d a; v ← load d b; d' ← store d a v; store d' b temp)
  = (temp ← load d b; v ← load d a; d' ← store d b v; store d' a temp).
Proof.
  destruct (load d a) as [x|] eqn:Ha, (load d b) as [y|] eqn:Hb;
    cbn [mbind option_bind]; try done.
  apply load_Some in Ha as [Ha0 Ha]. apply load_Some in Hb as [Hb0 Hb].
  pose proof (lookup_lt_Some _ _ _ Ha). pose proof (lookup_lt_Some _ _ _ Hb).
  unfold store. rewrite !bool_decide_true by lia. cbn [mbind option_bind].
  rewrite !bool_decide_true by (rewrite length_insert; lia). f_equal.
  destruct (decide (a = b)) as [->|Hne].
  - congruence.
  - apply list_insert_insert_ne. lia.
Qed.

Lemma foldM_fixed {S A} (body : S → A → option S) s (l : list A) :
  (∀ x, x ∈ l → body s x = Some s) → foldM body s l = Some s.
Proof.
  induction l as [|x l IH]; intros H; [done|].
  rewrite foldM_cons, H by left. cbn [mbind option_bind].
  apply IH. intros y Hy. apply H. by right.
Qed.

Lemma swap_slices_ordered sz P0 L R0 (i j : nat) ci cj :
  chunked sz L → L !! i = Some ci → L !! j = Some cj → (i < j)%nat →
  foldM (λ d p,
      temp ← load d (Z.of_nat (length P0) + Z.of_nat i * sz + p);
      v ← load d (Z.of_nat (length P0) + Z.of_nat j * sz + p);
      d ← store d (Z.of_nat (length P0) + Z.of_nat i * sz + p) v;
      store d (Z.of_nat (length P0) + Z.of_nat j * sz + p) temp)
    (P0 ++ concat L ++ R0) (seqZ 0 sz)
  = Some (P0 ++ concat (<[j:=ci]> (<[i:=cj]> L)) ++ R0).
Proof.
  intros HL Hi Hj Hij.
  pose proof (chunked_lookup sz L i ci HL Hi) as Hci.
  pose proof (chunked_lookup sz L j cj HL Hj) as Hcj.
  set (A1 := take i L). set (T1 := drop (S i) L).
  assert (L = A1 ++ ci :: T1) as HL1 by (symmetry; by apply take_drop_middle).
  assert (T1 !! (j - S i)%nat = Some cj) as Hj1.
  { unfold T1. rewrite lookup_drop. rewrite <- Hj. f_equal. lia. }
  set (A2 := take (j - S i) T1). set (T2 := drop (S (j - S i)) T1).
  assert (T1 = A2 ++ cj :: T2) as HT1 by (symmetry; by apply take_drop_middle).
  assert (length A1 = i) as HA1.
  { unfold A1. apply length_take_le. apply lookup_lt_Some in Hi. lia. }
  assert (length A2 = (j - S i)%nat) as HA2.
  { unfold A2. apply length_take_le. apply lookup_lt_Some in Hj1. lia. }
  assert (chunked sz A1) as HcA1 by (by apply Forall_take).
  assert (chunked sz A2) as HcA2 by (by apply Forall_take, Forall_drop).
  assert (<[j:=ci]> (<[i:=cj]> L) = A1 ++ cj :: A2 ++ ci :: T2) as ->.
  { rewrite HL1, HT1. rewrite <- HA1 at 1. rewrite insert_middle.
    replace j with (length (A1 ++ cj :: A2)).
    2:{ rewrite length_app. simpl. lia. }
    replace (A1 ++ cj :: A2 ++ cj :: T2) with ((A1 ++ cj :: A2) ++ cj :: T2)
      by (by rewrite <- app_assoc).
    rewrite insert_middle. by rewrite <- app_assoc. }
  rewrite HL1, HT1. rewrite !concat_app. simpl. rewrite !concat_app. simpl.
  pose proof (swap_run (P0 ++ concat A1) ci (concat A2) cj (concat T2 ++ R0)
                (length ci)) as Hrun.
  rewrite (take_ge cj), (drop_ge ci), (take_ge ci), (drop_ge cj) in Hrun by lia.
  rewrite !app_nil_r in Hrun.
  repeat rewrite <- app_assoc in Hrun. repeat rewrite <- app_assoc.
  rewrite <- Hrun by lia. rewrite Hci.
  apply foldM_ext. intros d p _.
  assert (Z.of_nat (length (P0 ++ concat A1))
          = Z.of_nat (length P0) + Z.of_nat i * sz) as HP.
  { rewrite length_app, Nat2Z.inj_add, (chunked_length sz A1 HcA1), HA1. done. }
  assert (Z.of_nat (length (P0 ++ concat A1)) + sz
          + Z.of_nat (length (concat A2))
          = Z.of_nat (length P0) + Z.of_nat j * sz) as HQ.
  { rewrite HP, (chunked_length sz A2 HcA2), HA2. nia. }
  rewrite HQ, HP. done.
Qed.

(** The inner loop of [swap_channels] exchanges two slices. *)
Lemma swap_slices sz P0 L R0 (i j : nat) ci cj :
  chunked sz L → L !! i = Some ci → L !! j = Some cj →
  foldM (λ d p,
      temp ← load d (Z.of_nat (length P0) + Z.of_nat i * sz + p);
      v ← load d (Z.of_nat (length P0) + Z.of_nat j * sz + p);
      d ← store d (Z.of_nat (length P0) + Z.of_nat i * sz + p) v;
      store d (Z.of_nat (length P0) + Z.of_nat j * sz + p) temp)
    (P0 ++ concat L ++ R0) (seqZ 0 sz)
  = Some (P0 ++ concat (<[j:=ci]> (<[i:=cj]> L)) ++ R0).
Proof.
  intros HL Hi Hj.
  destruct (lt_eq_lt_dec i j) as [[Hlt| ->]|Hgt].
  - by apply swap_slices_ordered.
  - assert (ci = cj) as -> by congruence.
    rewrite list_insert_insert_eq, list_insert_id by done.
    apply foldM_fixed. intros p Hp%elem_of_seqZ.
    destruct (chunk_replace sz P0 L R0 j cj HL Hj) as (P & R & Heq & HP & _).
    pose proof (chunked_lookup sz L j cj HL Hj) as Hlen.
    destruct (lookup_lt_is_Some_2 cj (Z.to_nat p)) as [x Hx]; [lia|].
    assert (load (P0 ++ concat L ++ R0)
              (Z.of_nat (length P0) + Z.of_nat j * sz + p) = Some x) as Hld.
    { apply load_Some. split; [lia|].
      rewrite Heq, <- HP.
      replace (Z.to_nat (Z.of_nat (length P) + p)) with (length P + Z.to_nat p)%nat
        by lia.
      rewrite lookup_app_r by lia.
      replace (length P + Z.to_nat p - length P)%nat with (Z.to_nat p) by lia.
      by rewrite lookup_app_l by lia. }
    rewrite Hld. cbn [mbind option_bind].
    apply load_Some in Hld as [? Hld]. pose proof (lookup_lt_Some _ _ _ Hld).
    unfold store. rewrite bool_decide_true by lia. cbn [mbind option_bind].
    rewrite bool_decide_true by (rewrite length_insert; lia).
    by rewrite list_insert_insert_eq, list_insert_id.
  - rewrite list_insert_insert_ne by lia.
    rewrite <- (swap_slices_ordered sz P0 L R0 j i cj ci) by done.
    apply foldM_ext. intros d p _. apply swap_body_sym.
Qed.

Lemma exchanged_range c1 c2 c C :
  0 ≤ c1 < C → 0 ≤ c2 < C → 0 ≤ c < C → 0 ≤ exchanged c1 c2 c < C.
Proof. intros. unfold exchanged. repeat case_decide; lia. Qed.

Lemma exchanged_involutive c1 c2 c : exchanged c1 c2 (exchanged c1 c2 c) = c.
Proof. unfold exchanged. repeat case_decide; lia. Qed.

(** The two nested loops of [swap_channels] on the slices of a flat
    buffer. *)
Lemma flat_swap_slices v d L c1 c2 :
  wf_video v d → d = concat L →
  chunked (height (hdr v) * width (hdr v)) L →
  Z.of_nat (length L) = num_frames (hdr v) * channels (hdr v) →
  0 ≤ c1 < channels (hdr v) → 0 ≤ c2 < channels (hdr v) →
  ∃ L',
    swap_channels (Some v) c1 c2 = Ok (with_data v (concat L')) ∧
    chunked (height (hdr v) * width (hdr v)) L' ∧ length L' = length L ∧
    ∀ f c, 0 ≤ f < num_frames (hdr v) → 0 ≤ c < channels (hdr v) →
      L' !! Z.to_nat (f * channels (hdr v) + c)
      = L !! Z.to_nat (f * channels (hdr v) + exchanged c1 c2 c).
Proof.
  intros Hwf HdL HL HLn Hc1 Hc2.
  set (n := num_frames (hdr v)) in *. set (C := channels (hdr v)) in *.
  set (cs := height (hdr v) * width (hdr v)) in *.
  destruct (foldM_invariant
              (λ k dk, ∃ Lk, dk = concat Lk ∧ chunked cs Lk ∧ length Lk = length L ∧
                 ∀ f c, 0 ≤ f < n → 0 ≤ c < C →
                   Lk !! Z.to_nat (f * C + c)
                   = L !! Z.to_nat (f * C + if decide (f < k) then exchanged c1 c2 c
                                            else c))
              (λ d frame_idx,
                 foldM (λ d i,
                     temp ← load d (wrap64 (frame_idx * (C * height (hdr v) * width (hdr v))
                                            + c1 * cs) + i);
                     x ← load d (wrap64 (frame_idx * (C * height (hdr v) * width (hdr v))
                                         + c2 * cs) + i);
                     d ← store d (wrap64 (frame_idx * (C * height (hdr v) * width (hdr v))
                                          + c1 * cs) + i) x;
                     store d (wrap64 (frame_idx * (C * height (hdr v) * width (hdr v))
                                      + c2 * cs) + i) temp)
                   d (seqZ 0 cs))
              d n) as (d' & Hrun & L' & -> & HL' & Hlen & Hall).
  - destruct Hwf; lia.
  - exists L. split; [done|]. split; [done|]. split; [done|].
    intros f c Hf Hc. rewrite decide_False; [done|lia].
  - intros k dk Hk (Lk & -> & HLk & Hlen & Hall).
    pose proof (slot_in_range _ _ k c1 Hk Hc1) as Hi1.
    pose proof (slot_in_range _ _ k c2 Hk Hc2) as Hi2.
    destruct (lookup_lt_is_Some_2 L (Z.to_nat (k * C + c1))) as [X1 HX1]; [lia|].
    destruct (lookup_lt_is_Some_2 L (Z.to_nat (k * C + c2))) as [X2 HX2]; [lia|].
    assert (Lk !! Z.to_nat (k * C + c1) = Some X1) as HX1k.
    { rewrite Hall by done. rewrite decide_False; [done|lia]. }
    assert (Lk !! Z.to_nat (k * C + c2) = Some X2) as HX2k.
    { rewrite Hall by done. rewrite decide_False; [done|lia]. }
    pose proof (swap_slices cs [] Lk [] _ _ X1 X2 HLk HX1k HX2k) as Hswap.
    rewrite app_nil_l, !app_nil_r in Hswap.
    eexists. split.
    { rewrite <- Hswap. apply foldM_ext. intros d1 p _.
      rewrite !(slot_offset v d) by done. fold C cs. simpl.
      rewrite !Z2Nat.id by lia. done. }
    eexists. split; [done|].
    split. { apply chunked_insert; [by apply chunked_insert; [|eapply chunked_lookup]|].
             by eapply chunked_lookup. }
    split. { by rewrite !length_insert. }
    intros f c Hf Hc.
    pose proof (slot_in_range _ _ f c Hf Hc) as Hfc.
    destruct (decide (f = k)) as [->|Hne].
    + rewrite decide_True by lia. unfold exchanged.
      destruct (decide (c = c1)) as [->|Hn1]; [|destruct (decide (c = c2)) as [->|Hn2]].
      * destruct (decide (c1 = c2)) as [->|Hn12].
        -- rewrite list_lookup_insert_eq by (rewrite length_insert; lia). done.
        -- rewrite list_lookup_insert_ne by lia.
           rewrite list_lookup_insert_eq by lia. done.
      * rewrite list_lookup_insert_eq by (rewrite length_insert; lia). done.
      * rewrite !list_lookup_insert_ne by lia. rewrite Hall by done.
        rewrite decide_False; [done|lia].
    + assert (f * C + c ≠ k * C + c1).
      { intros Heq. apply slot_inj in Heq; [lia|done..]. }
      assert (f * C + c ≠ k * C + c2).
      { intros Heq. apply slot_inj in Heq; [lia|done..]. }
      rewrite !list_lookup_insert_ne by lia. rewrite Hall by done.
      destruct (decide (f < k)), (decide (f < k + 1)); try done; lia.
  - exists L'. split.
    { unfold swap_channels. rewrite (wf_data _ _ Hwf).
      rewrite bool_decide_false by (fold C; lia). cbv zeta.
      fold C cs n. by rewrite Hrun. }
    split; [done|]. split; [done|].
    intros f c Hf Hc. rewrite Hall by done. rewrite decide_True; [done|lia].
Qed.

Lemma slices_eq C (L L' : list (list Z)) n :
  0 < C → 0 ≤ n → Z.of_nat (length L) = n * C → length L' = length L →
  (∀ f c, 0 ≤ f < n → 0 ≤ c < C →
          L' !! Z.to_nat (f * C + c) = L !! Z.to_nat (f * C + c)) →
  L' = L.
Proof.
  intros HC Hn HL Hlen Hall. apply list_eq. intros j.
  destruct (decide (j < length L)%nat) as [Hj|Hj].
  - pose proof (Z.div_mod (Z.of_nat j) C ltac:(lia)) as Hdm.
    pose proof (Z.mod_pos_bound (Z.of_nat j) C HC) as Hm.
    assert (0 ≤ Z.of_nat j `div` C < n) as Hd.
    { split; [apply Z.div_pos; lia|]. apply Z.div_lt_upper_bound; lia. }
    specialize (Hall _ _ Hd Hm).
    replace (Z.to_nat (Z.of_nat j `div` C * C + Z.of_nat j `mod` C)) with j in Hall
      by lia.
    done.
  - rewrite !lookup_ge_None_2 by lia. done.
Qed.

(** X5: [swap_channels] exchanges the two channels in every frame and
    leaves the others as they were; applied twice it restores the
    store. *)
Theorem swap_channels_exchanges v d c1 c2 :
  wf_video v d → 0 ≤ c1 < channels (hdr v) → 0 ≤ c2 < channels (hdr v) →
  ∃ v' d',
    swap_channels (Some v) c1 c2 = Ok v' ∧ hdr v' = hdr v ∧ wf_video v' d' ∧
    (∀ f c, 0 ≤ f < num_frames (hdr v) → 0 ≤ c < channels (hdr v) →
            channel_of v' f c = channel_of v f (exchanged c1 c2 c)) ∧
    swap_channels (Some v') c1 c2 = Ok v.
Proof.
  intros Hwf Hc1 Hc2.
  destruct (flat_slices_exist v d Hwf) as (L & HdL & HL & HLn).
  destruct (flat_swap_slices v d L c1 c2 Hwf HdL HL HLn Hc1 Hc2)
    as (L' & Hrun & HL' & Hlen & Hall).
  assert (wf_video (with_data v (concat L')) (concat L')) as Hwf'
    by (by apply (wf_video_slices v d L' L)).
  exists (with_data v (concat L')), (concat L').
  split; [done|]. split; [done|]. split; [done|]. split.
  - intros f c Hf Hc.
    pose proof (exchanged_range c1 c2 c _ Hc1 Hc2 Hc).
    rewrite (channel_of_slice (with_data v (concat L')) L'); [|done|done|simpl; nia].
    rewrite (channel_of_slice v L); [|by rewrite (wf_data _ _ Hwf), HdL|done|nia].
    by apply Hall.
  - destruct (flat_swap_slices (with_data v (concat L')) (concat L') L' c1 c2)
      as (L'' & Hrun' & HL'' & Hlen' & Hall'); try done.
    { simpl. lia. }
    rewrite Hrun'. f_equal.
    assert (L'' = L) as ->.
    { apply (slices_eq (channels (hdr v)) _ _ (num_frames (hdr v)));
        [lia|destruct Hwf; lia|done|congruence|].
      intros f c Hf Hc. simpl in Hall'. rewrite Hall' by done.
      rewrite Hall by (done || by apply exchanged_range).
      by rewrite exchanged_involutive. }
    unfold with_data. simpl. rewrite <- HdL. destruct v as [h dat].
    simpl. f_equal. by destruct Hwf.
Qed.

(** ** Reversing twice *)

(** X6: reversing twice restores the store, in both layouts. *)
Theorem reverse_twice al v d s m :
  wf_video v d →
  is_Some (malloc al (channels (hdr v) * height (hdr v) * width (hdr v))) →
  wf_arena s m →
  (∃ v', reverse al (Some v) = Ok v' ∧ reverse al (Some v') = Ok v) ∧
  (∃ m', reverse_S (Some s) m = Ok m' ∧ reverse_S (Some s) m' = Ok m).
Proof.
  intros Hwf Hal Hwfa. split.
  - destruct (chunks_exist (channels (hdr v) * height (hdr v) * width (hdr v))
                (Z.to_nat (num_frames (hdr v))) d) as (L & HdL & HL & HLn).
    { destruct Hwf. nia. }
    { destruct Hwf. lia. }
    assert (Z.of_nat (length L) = num_frames (hdr v)) as HLn'.
    { destruct Hwf. lia. }
    set (d' := concat (list.reverse L)).
    assert (length d' = length d) as Hlen.
    { apply Nat2Z.inj. unfold d'. rewrite HdL.
      rewrite (chunked_length _ _ HL).
      rewrite (chunked_length (channels (hdr v) * height (hdr v) * width (hdr v)))
        by (by apply Forall_reverse).
      by rewrite length_reverse. }
    exists (with_data v d'). split; [by apply (reverse_flat al v d L)|].
    rewrite (reverse_flat al (with_data v d') d' (list.reverse L)); try done.
    + rewrite reverse_involutive, <- HdL. f_equal.
      destruct v as [h dat]. unfold with_data. simpl. f_equal.
      symmetry. by destruct Hwf.
    + by apply (wf_video_with_data v d).
    + by apply Forall_reverse.
    + by rewrite length_reverse.
  - destruct (frame_region s m Hwfa) as (FD & rest & Hb & HFD & Hn).
    pose proof (wfa_frames _ _ Hwfa) as Hfr. pose proof (wfa_base _ _ Hwfa) as Hbase.
    eexists. split; [apply (reverse_S_regions s m FD rest); (done || lia)|].
    rewrite (reverse_S_regions s _ (list.reverse FD) rest); try done.
    + rewrite reverse_involutive, with_bytes_with_bytes, <- Hb.
      by rewrite with_bytes_bytes.
    + simpl. lia.
    + by apply Forall_reverse.
    + by rewrite length_reverse.
Qed.

(** ** Loops over one channel of an arena *)

(** A 32-fold unrolled loop with its tail is the plain loop. *)
Lemma for_step_unrolled {S} (body : S → Z → option S) cs fuel : ∀ s i,
  (Z.to_nat (cs - i) ≤ fuel)%nat →
  ('(s, i) ← for_step fuel (λ i, bool_decide (i + 31 < cs)) 32
               (λ s i, foldM (λ s j, body s (i + j)) s (seqZ 0 32)) s i;
   foldM body s (seqZ i (cs - i)))
  = foldM body s (seqZ i (cs - i)).
Proof.
  induction fuel as [|fuel IH]; intros s i Hfuel.
  - cbn [for_step]. rewrite bool_decide_false by lia. done.
  - cbn [for_step]. case_bool_decide as Hi; [|done].
    rewrite foldM_shift.
    assert (seqZ i (cs - i) = seqZ i 32 ++ seqZ (i + 32) (cs - (i + 32))) as ->.
    { rewrite <- seqZ_app by lia. f_equal. lia. }
    rewrite foldM_app.
    destruct (foldM body s (seqZ i 32)) as [s'|]; [|done].
    cbn [mbind option_bind]. apply IH. lia.
Qed.

Lemma regions_replace_slice s m FD CD PX k X :
  regions s m FD CD PX → 0 ≤ k → PX !! Z.to_nat k = Some X →
  ∃ P R,
    bytes m = P ++ X ++ R ∧
    Z.of_nat (length P)
    = num_frames (shdr s) * 8 + num_frames (shdr s) * channels (shdr s) * 8
      + k * (height (shdr s) * width (shdr s)) ∧
    ∀ X', length X' = length X →
          regions s (with_bytes m (P ++ X' ++ R)) FD CD (<[Z.to_nat k:=X']> PX).
Proof.
  intros [Hfr Hb HFD HnFD HCD HnCD HPX HnPX] Hk HX.
  destruct (chunk_replace _ (concat FD ++ concat CD) PX [] _ X HPX HX)
    as (P & R & Heq & HP & Hrep).
  exists P, R. split; [|split].
  - rewrite Hb, <- Heq. by rewrite app_nil_r, <- app_assoc.
  - rewrite HP, length_app, Nat2Z.inj_add.
    rewrite (chunked_length 8 FD HFD), (chunked_length 8 CD HCD).
    rewrite Z2Nat.id by lia. lia.
  - intros X' HX'. split; simpl; try done.
    + rewrite Hrep. by rewrite app_nil_r, <- app_assoc.
    + apply chunked_insert; [done|]. rewrite HX'. by eapply chunked_lookup.
    + by rewrite length_insert.
Qed.

(** A byte-wise loop over the slice a pointer refers to. *)
Lemma arena_run (upd : list Z → Z → option (list Z)) G m P X R dat :
  bytes m = P ++ X ++ R → dat - base m = Z.of_nat (length P) →
  foldM upd (P ++ X ++ R) (seqZ (Z.of_nat (length P)) (Z.of_nat (length X)))
  = Some (P ++ G ++ R) →
  foldM (λ m i, with_bytes m <$> upd (bytes m) (dat + i - base m))
    m (seqZ 0 (Z.of_nat (length X)))
  = Some (with_bytes m (P ++ G ++ R)).
Proof.
  intros Hm Hdat Hrun.
  rewrite (foldM_with_bytes (λ b d i, upd d (dat + i - b))).
  rewrite Hm. erewrite foldM_ext.
  - rewrite (foldM_shift upd), Hrun. done.
  - intros d i _. simpl. f_equal. lia.
Qed.

(** The descriptors of an arena stay valid when only the payload
    changes. *)
Lemma wf_arena_same_descriptors s m m' FD CD PX PX' :
  wf_arena s m → regions s m FD CD PX → regions s m' FD CD PX' → wf_arena s m'.
Proof.
  intros Hwf Hrg Hrg'.
  pose proof (regions_length _ _ _ _ _ Hrg) as Hlen.
  pose proof (regions_length _ _ _ _ _ Hrg') as Hlen'.
  assert (base m' = base m) as Hbase.
  { by rewrite <- (rg_frames _ _ _ _ _ Hrg), <- (rg_frames _ _ _ _ _ Hrg'). }
  destruct Hwf as [? ? ? ? ? ? ? ? Hfd Hcd].
  split; try done; try congruence.
  - intros i Hi. destruct (Hfd i Hi) as (j & Hj & Hld). exists j. split; [done|].
    rewrite Hbase, <- Hld. unfold load_ptr.
    destruct (lookup_lt_is_Some_2 FD (Z.to_nat i)) as [fd Hfdi].
    { destruct Hrg. lia. }
    rewrite (regions_load_frame s m' FD CD PX' i fd) by (done || lia).
    by rewrite (regions_load_frame s m FD CD PX i fd) by (done || lia).
  - intros j Hj. destruct (Hcd j Hj) as (k & Hk & Hld). exists k. split; [done|].
    rewrite Hbase, <- Hld. unfold load_ptr.
    destruct (lookup_lt_is_Some_2 CD (Z.to_nat j)) as [cd Hcdj].
    { destruct Hrg. lia. }
    rewrite <- Hbase at 1.
    rewrite (regions_load_channel s m' FD CD PX' j cd) by (done || lia).
    by rewrite (regions_load_channel s m FD CD PX j cd) by (done || lia).
Qed.

Lemma slot_range s FD CD i c k : slot_of s FD CD i c k →
  0 ≤ k < num_frames (shdr s) * channels (shdr s).
Proof. by intros (? & ? & ? & _ & _ & _ & _ & ? & _). Qed.

(** A per-channel transform of the arena layout: the loop over the
    frames applies [F] once to the slice of channel [c] of every frame
    and touches nothing else. *)
Lemma arena_channel_loop s m FD CD PX c (F F' : block → Z → option block)
    (Good : list Z → Prop) (Rel : list Z → list Z → Prop) :
  regions s m FD CD PX →
  0 ≤ num_frames (shdr s) → 0 ≤ c < channels (shdr s) →
  (∀ i c', 0 ≤ i < num_frames (shdr s) → 0 ≤ c' < channels (shdr s) →
           ∃ k, slot_of s FD CD i c' k) →
  no_alias s m →
  (∀ i X, 0 ≤ i < num_frames (shdr s) → channel_pixels m s i c = Some X → Good X) →
  (∀ mt PXt k X,
     regions s mt FD CD PXt → 0 ≤ k → PXt !! Z.to_nat k = Some X → Good X →
     ∃ X' mt',
       F mt (base mt + num_frames (shdr s) * 8
             + num_frames (shdr s) * channels (shdr s) * 8
             + k * (height (shdr s) * width (shdr s))) = Some mt' ∧
       F' mt (base mt + num_frames (shdr s) * 8
              + num_frames (shdr s) * channels (shdr s) * 8
              + k * (height (shdr s) * width (shdr s))) = Some mt' ∧
       Rel X X' ∧ regions s mt' FD CD (<[Z.to_nat k:=X']> PXt)) →
  ∃ m' PX',
    foldM (λ m frame_idx, dat ← channel_data m s frame_idx c; F m dat)
      m (seqZ 0 (num_frames (shdr s))) = Some m' ∧
    foldM (λ m frame_idx, dat ← channel_data m s frame_idx c; F' m dat)
      m (seqZ 0 (num_frames (shdr s))) = Some m' ∧
    regions s m' FD CD PX' ∧
    ∀ i c', 0 ≤ i < num_frames (shdr s) → 0 ≤ c' < channels (shdr s) →
      ∃ X, channel_pixels m s i c' = Some X ∧
           if decide (c' = c)
           then ∃ X', channel_pixels m' s i c' = Some X' ∧ Rel X X'
           else channel_pixels m' s i c' = Some X.
Proof.
  intros Hrg Hn Hc Hslot Hna HGood HF.
  assert (∀ i c', 0 ≤ i < num_frames (shdr s) → 0 ≤ c' < channels (shdr s) →
                  is_Some (channel_pixels m s i c')) as Hsome.
  { intros i c' Hi Hc'. destruct (Hslot i c' Hi Hc') as [k Hk].
    destruct (slot_channel_pixels s m FD CD PX i c' k Hrg) as [_ ->]; [lia..|done|].
    apply lookup_lt_is_Some_2. pose proof (slot_range _ _ _ _ _ _ Hk).
    destruct Hrg. lia. }
  destruct (foldM_invariant
              (λ t mt, ∃ PXt, regions s mt FD CD PXt ∧
                 foldM (λ m frame_idx, dat ← channel_data m s frame_idx c; F' m dat)
                   m (seqZ 0 t) = Some mt ∧
                 ∀ i c', 0 ≤ i < num_frames (shdr s) → 0 ≤ c' < channels (shdr s) →
                   ∃ X, channel_pixels m s i c' = Some X ∧
                        if decide (c' = c ∧ i < t)
                        then ∃ X', channel_pixels mt s i c' = Some X' ∧ Rel X X'
                        else channel_pixels mt s i c' = Some X)
              (λ m frame_idx, dat ← channel_data m s frame_idx c; F m dat)
              m (num_frames (shdr s)))
    as (m' & Hrun & PX' & Hrg' & Hrun' & Hall); [done| | |].
  - exists PX. split; [done|]. split; [done|]. intros i c' Hi Hc'.
    destruct (Hsome i c' Hi Hc') as [X HX]. exists X. split; [done|].
    rewrite decide_False; [done|lia].
  - intros t mt Ht (PXt & Hrgt & Hrunt & Hall).
    destruct (Hslot t c) as [kt Hkt]; [lia..|].
    pose proof (slot_range _ _ _ _ _ _ Hkt) as Hktr.
    destruct (slot_channel_pixels s mt FD CD PXt t c kt Hrgt) as [Hdat Hpx];
      [lia..|done|].
    destruct (Hall t c) as (X & HX & HXt); [lia..|].
    rewrite decide_False in HXt by lia.
    assert (PXt !! Z.to_nat kt = Some X) as HXk by congruence.
    destruct (HF mt PXt kt X Hrgt) as (X' & mt' & HFt & HFt' & HRel & Hrgt');
      [lia|done|by eapply HGood|].
    exists mt'. split; [by rewrite Hdat|].
    exists (<[Z.to_nat kt:=X']> PXt). split; [done|].
    split.
    { rewrite seqZ_app by lia. rewrite foldM_app, Hrunt. cbn [mbind option_bind].
      change (seqZ (0 + t) 1) with [0 + t]. rewrite foldM_cons, Z.add_0_l, Hdat.
      cbn [mbind option_bind]. by rewrite HFt'. }
    intros i c' Hi Hc'.
    destruct (Hall i c' Hi Hc') as (Y & HY & HYt). exists Y. split; [done|].
    destruct (decide (i = t ∧ c' = c)) as [[-> ->]|Hne].
    + rewrite decide_True by lia. exists X'. split; [|congruence].
      destruct (slot_channel_pixels s mt' FD CD _ t c kt Hrgt') as [_ ->];
        [lia..|done|].
      apply list_lookup_insert_eq. by apply lookup_lt_Some in HXk.
    + destruct (Hslot i c' Hi Hc') as [k Hk].
      pose proof (slot_range _ _ _ _ _ _ Hk) as Hkr.
      assert (k ≠ kt) as Hkne.
      { intros ->. apply Hne.
        destruct (slot_channel_pixels s m FD CD PX i c' kt Hrg) as [Hd1 _];
          [lia..|done|].
        destruct (slot_channel_pixels s m FD CD PX t c kt Hrg) as [Hd2 _];
          [lia..|done|].
        destruct (Hna i c' t c) as [-> ->]; [lia..|congruence|done]. }
      assert (channel_pixels mt' s i c' = channel_pixels mt s i c') as ->.
      { destruct (slot_channel_pixels s mt' FD CD _ i c' k Hrgt') as [_ ->];
          [lia..|done|].
        destruct (slot_channel_pixels s mt FD CD _ i c' k Hrgt) as [_ ->];
          [lia..|done|].
        apply list_lookup_insert_ne. lia. }
      destruct (decide (c' = c ∧ i < t)), (decide (c' = c ∧ i < t + 1));
        try done; lia.
  - exists m', PX'. split; [done|]. split; [done|]. split; [done|].
    intros i c' Hi Hc'. destruct (Hall i c' Hi Hc') as (X & HX & HX').
    exists X. split; [done|].
    destruct (decide (c' = c ∧ i < num_frames (shdr s))), (decide (c' = c));
      try done; lia.
Qed.

(** The pointers of an arena depend on its descriptors only. *)
Lemma channel_data_same_descriptors s m m' FD CD PX PX' i c :
  regions s m FD CD PX → regions s m' FD CD PX' →
  0 ≤ i → 0 ≤ c → (∃ k, slot_of s FD CD i c k) →
  channel_data m' s i c = channel_data m s i c.
Proof.
  intros Hrg Hrg' Hi Hc [k Hk].
  destruct (slot_channel_pixels s m FD CD PX i c k Hrg) as [-> _]; [done..|].
  destruct (slot_channel_pixels s m' FD CD PX' i c k Hrg') as [-> _]; [done..|].
  by rewrite <- (rg_frames _ _ _ _ _ Hrg), <- (rg_frames _ _ _ _ _ Hrg').
Qed.

Lemma no_alias_same_descriptors s m m' FD CD PX PX' :
  regions s m FD CD PX → regions s m' FD CD PX' →
  (∀ i c, 0 ≤ i < num_frames (shdr s) → 0 ≤ c < channels (shdr s) →
          ∃ k, slot_of s FD CD i c k) →
  no_alias s m → no_alias s m'.
Proof.
  intros Hrg Hrg' Hslot Hna i c i' c' Hi Hc Hi' Hc' Heq.
  apply Hna; try done.
  rewrite <- (channel_data_same_descriptors s m m' FD CD PX PX' i c);
    [|done|done|lia|lia|by apply Hslot].
  rewrite <- (channel_data_same_descriptors s m m' FD CD PX PX' i' c');
    [done|done|done|lia|lia|by apply Hslot].
Qed.

(** ** [clip_channel_S] and [scale_channel_S], channel by channel *)

Lemma regions_determines s m m' FD CD PX :
  regions s m FD CD PX → regions s m' FD CD PX → m = m'.
Proof.
  intros [Hf Hb _ _ _ _ _ _] [Hf' Hb' _ _ _ _ _ _].
  destruct m, m'. simpl in *. congruence.
Qed.

(** A byte-wise loop over slice [k] of the payload. *)
Lemma arena_slice_loop (upd : list Z → Z → option (list Z)) G s mt FD CD PXt k X :
  regions s mt FD CD PXt → 0 ≤ k → PXt !! Z.to_nat k = Some X →
  length G = length X →
  (∀ P R, foldM upd (P ++ X ++ R) (seqZ (Z.of_nat (length P)) (Z.of_nat (length X)))
          = Some (P ++ G ++ R)) →
  ∃ mt',
    foldM (λ m i,
        with_bytes m <$>
          upd (bytes m)
            (base mt + num_frames (shdr s) * 8
             + num_frames (shdr s) * channels (shdr s) * 8
             + k * (height (shdr s) * width (shdr s)) + i - base m))
      mt (seqZ 0 (height (shdr s) * width (shdr s))) = Some mt' ∧
    regions s mt' FD CD (<[Z.to_nat k:=G]> PXt).
Proof.
  intros Hrg Hk HX HG Hupd.
  destruct (regions_replace_slice s mt FD CD PXt k X Hrg Hk HX)
    as (P & R & Hb & HP & Hrep).
  exists (with_bytes mt (P ++ G ++ R)). split; [|by apply Hrep].
  pose proof (chunked_lookup _ PXt _ X (rg_PX _ _ _ _ _ Hrg) HX) as HlenX.
  replace (seqZ 0 (height (shdr s) * width (shdr s)))
    with (seqZ 0 (Z.of_nat (length X))) by (by rewrite HlenX).
  apply (arena_run upd G mt P X R); [done|lia|apply Hupd].
Qed.

(** X7: [clip_channel_S] changes the pixels of channel [c] only: every
    other channel, every descriptor and the well-formedness of the arena
    are kept, whatever the bounds. *)
Theorem clip_channel_S_keeps_the_rest s m c min_value max_value :
  wf_arena s m → no_alias s m → 0 ≤ c < channels (shdr s) →
  ∃ m',
    clip_channel_S (Some s) m c min_value max_value = Ok m' ∧
    wf_arena s m' ∧ no_alias s m' ∧
    (∀ i c', 0 ≤ i < num_frames (shdr s) → 0 ≤ c' < channels (shdr s) →
             channel_data m' s i c' = channel_data m s i c') ∧
    (∀ i c', 0 ≤ i < num_frames (shdr s) → 0 ≤ c' < channels (shdr s) →
             c' ≠ c → channel_pixels m' s i c' = channel_pixels m s i c').
Proof.
  intros Hwf Hna Hc.
  destruct (wf_regions s m Hwf) as (FD & CD & PX & Hrg & Hslot).
  destruct (arena_channel_loop s m FD CD PX c
              (λ m dat, clip_frame_S m dat (height (shdr s) * width (shdr s))
                          min_value max_value)
              (λ m dat, clip_frame_S m dat (height (shdr s) * width (shdr s))
                          min_value max_value)
              (λ _, True) (λ _ _, True) Hrg)
    as (m' & PX' & Hrun & _ & Hrg' & Hall); try done.
  { destruct Hwf; lia. }
  { intros mt PXt k X Hrgt Hk HX _.
    destruct (clip_frame_S_chunk min_value max_value s mt FD CD PXt k X Hrgt Hk HX)
      as (Y & T & mt' & _ & _ & Hclip & Hrgt').
    by eexists _, mt'. }
  exists m'. split.
  { unfold clip_channel_S. rewrite bool_decide_false by lia. cbv zeta.
    by rewrite Hrun. }
  split; [by apply (wf_arena_same_descriptors s m m' FD CD PX PX')|].
  split; [by apply (no_alias_same_descriptors s m m' FD CD PX PX')|].
  split.
  - intros i c' Hi Hc'.
    apply (channel_data_same_descriptors s m m' FD CD PX PX'); [done|done|lia|lia|].
    by apply Hslot.
  - intros i c' Hi Hc' Hne. destruct (Hall i c' Hi Hc') as (X & HX & HX').
    rewrite decide_False in HX' by done. congruence.
Qed.

Lemma clamp_slice lo hi (Y T : list Z) :
  lo ≤ hi →
  (lane_clip lo hi <$> Y) ++ ((λ x, CLAMP x lo hi) <$> T)
  = (λ x, CLAMP x lo hi) <$> (Y ++ T).
Proof.
  intros. rewrite fmap_app. f_equal. apply list_fmap_ext.
  intros _ x _. by apply lane_clip_CLAMP.
Qed.

(** X8: for ordered bounds the bulk-export clip, all scalar, leaves the
    arena exactly as [clip_channel_S] with its vector batches does, and
    both reject the same channel indices. *)
Theorem clip_channel_S_wasm_is_clip_channel_S s m c min_value max_value :
  wf_arena s m → 0 ≤ c → min_value ≤ max_value →
  clip_channel_S_wasm (Some s) m c min_value max_value
  = exit_code m (clip_channel_S (Some s) m c min_value max_value).
Proof.
  intros Hwf Hc Hle. unfold clip_channel_S_wasm, clip_channel_S.
  case_bool_decide as Hch; [done|]. cbv zeta.
  rewrite for_step_chunks_0 by lia.
  destruct (wf_regions s m Hwf) as (FD & CD & PX & Hrg & Hslot).
  set (g := λ x, CLAMP x min_value max_value).
  destruct (foldM_invariant
              (λ t mt, (∃ PXt, regions s mt FD CD PXt) ∧
                 foldM (λ m frame_idx,
                     channel_data ← channel_data m s frame_idx c;
                     foldM (λ m i,
                         with_bytes m <$>
                           modify g (bytes m) (channel_data + i - base m))
                       m (seqZ 0 (height (shdr s) * width (shdr s))))
                   m (seqZ 0 t) = Some mt)
              (λ m frame_idx,
                 dat ← channel_data m s frame_idx c;
                 clip_frame_S m dat (height (shdr s) * width (shdr s))
                   min_value max_value)
              m (num_frames (shdr s))) as (m' & Hrun & _ & Hrun').
  - destruct Hwf; lia.
  - split; [by exists PX|done].
  - intros t mt Ht [[PXt Hrgt] Hrunt].
    destruct (Hslot t c) as [kt Hkt]; [lia..|].
    pose proof (slot_range _ _ _ _ _ _ Hkt) as Hktr.
    destruct (slot_channel_pixels s mt FD CD PXt t c kt Hrgt) as [Hdat _];
      [lia..|done|].
    destruct (lookup_lt_is_Some_2 PXt (Z.to_nat kt)) as [X HX].
    { destruct Hrgt. lia. }
    destruct (clip_frame_S_chunk min_value max_value s mt FD CD PXt kt X Hrgt)
      as (Y & T & mt' & HYT & _ & Hclip & Hrgt'); [lia|done|].
    rewrite clamp_slice, <- HYT in Hrgt' by done.
    destruct (arena_slice_loop (modify g) (g <$> X) s mt FD CD PXt kt X Hrgt)
      as (mt'' & Hscalar & Hrgt''); [lia|done|by rewrite length_fmap| |].
    { intros P R. apply modify_run. }
    assert (mt'' = mt') as -> by (by eapply regions_determines).
    exists mt'. split; [by rewrite Hdat|]. split; [by eexists|].
    rewrite seqZ_app by lia. rewrite foldM_app, Hrunt. cbn [mbind option_bind].
    change (seqZ (0 + t) 1) with [0 + t]. rewrite foldM_cons, Z.add_0_l, Hdat.
    cbn [mbind option_bind]. by rewrite Hscalar.
  - fold g. rewrite Hrun, Hrun'. done.
Qed.

(** ** [scale_channel_S] and [scale_channel_S_wasm] *)

Lemma scale_channel_S_frames nw s m c scale_factor :
  c < channels (shdr s) →
  scale_channel_S nw (Some s) m c scale_factor
  = run (foldM (λ m frame_idx,
             dat ← channel_data m s frame_idx c;
             foldM (λ m i,
                 with_bytes m <$>
                   update (scale_sample nw scale_factor) (bytes m) (dat + i - base m))
               m (seqZ 0 (height (shdr s) * width (shdr s))))
           m (seqZ 0 (num_frames (shdr s)))).
Proof.
  intros Hc. unfold scale_channel_S. rewrite bool_decide_false by lia. cbv zeta.
  f_equal. apply foldM_ext. intros mt i _. unfold channel_data.
  destruct (channel_at mt (frame_at s i) c) as [chan|]; [|done].
  cbn [mbind option_bind].
  destruct (load_ptr mt chan) as [dat|]; [|done]. cbn [mbind option_bind].
  pose proof (for_step_unrolled
                (λ m x, with_bytes m <$>
                          update (scale_sample nw scale_factor) (bytes m)
                            (dat + x - base m))
                (height (shdr s) * width (shdr s))
                (Z.to_nat (height (shdr s) * width (shdr s))) mt 0) as Hun.
  rewrite Z.sub_0_r in Hun. rewrite <- Hun by lia.
  destruct for_step as [[m1 i1]|]; done.
Qed.

Lemma mload_range_elem m a len X x :
  mload_range m a len = Some X → x ∈ X → x ∈ bytes m.
Proof.
  unfold mload_range, load_range. case_bool_decide; [|done].
  intros [= <-] Hx. by apply subseteq_take, subseteq_drop in Hx.
Qed.

Lemma channel_pixels_elem m s i c X x :
  channel_pixels m s i c = Some X → x ∈ X → x ∈ bytes m.
Proof.
  unfold channel_pixels. destruct (channel_data m s i c); [|done]. simpl.
  apply mload_range_elem.
Qed.

Lemma list_fmap_ext_in {A B} (f g : A → B) (l : list A) :
  (∀ x, x ∈ l → f x = g x) → f <$> l = g <$> l.
Proof.
  intros H. apply list_fmap_ext. intros i x Hx. apply H.
  by eapply list_elem_of_lookup_2.
Qed.

(** A per-channel scaling of the arena layout, with a scalar rule [g]
    that is defined on the samples it meets. *)
Lemma arena_scale_loop (g1 g2 : Z → option Z) (g' : Z → Z) (Good : Z → Prop)
    s m c :
  wf_arena s m → no_alias s m → 0 ≤ c < channels (shdr s) →
  (∀ i X x, 0 ≤ i < num_frames (shdr s) →
            channel_pixels m s i c = Some X → x ∈ X → Good x) →
  (∀ x, Good x → g1 x = Some (g' x) ∧ g2 x = Some (g' x)) →
  ∃ m',
    foldM (λ m frame_idx,
        dat ← channel_data m s frame_idx c;
        foldM (λ m i, with_bytes m <$> update g1 (bytes m) (dat + i - base m))
          m (seqZ 0 (height (shdr s) * width (shdr s))))
      m (seqZ 0 (num_frames (shdr s))) = Some m' ∧
    foldM (λ m frame_idx,
        dat ← channel_data m s frame_idx c;
        foldM (λ m i, with_bytes m <$> update g2 (bytes m) (dat + i - base m))
          m (seqZ 0 (height (shdr s) * width (shdr s))))
      m (seqZ 0 (num_frames (shdr s))) = Some m' ∧
    wf_arena s m' ∧ no_alias s m' ∧
    ∀ i c', 0 ≤ i < num_frames (shdr s) → 0 ≤ c' < channels (shdr s) →
      channel_pixels m' s i c'
      = if decide (c' = c)
        then (λ px : list Z, g' <$> px) <$> channel_pixels m s i c'
        else channel_pixels m s i c'.
Proof.
  intros Hwf Hna Hc HGood Hg.
  destruct (wf_regions s m Hwf) as (FD & CD & PX & Hrg & Hslot).
  destruct (arena_channel_loop s m FD CD PX c
              (λ m dat,
                 foldM (λ m i, with_bytes m <$> update g1 (bytes m) (dat + i - base m))
                   m (seqZ 0 (height (shdr s) * width (shdr s))))
              (λ m dat,
                 foldM (λ m i, with_bytes m <$> update g2 (bytes m) (dat + i - base m))
                   m (seqZ 0 (height (shdr s) * width (shdr s))))
              (λ X, ∀ x, x ∈ X → Good x) (λ X X', X' = g' <$> X) Hrg)
    as (m' & PX' & Hrun & Hrun' & Hrg' & Hall); try done.
  { destruct Hwf; lia. }
  { intros i X Hi HX x Hx. by eapply HGood. }
  { intros mt PXt k X Hrgt Hk HX HXG.
    destruct (arena_slice_loop (update g1) (g' <$> X) s mt FD CD PXt k X Hrgt)
      as (mt' & Hr1 & Hrgt'); [lia|done|by rewrite length_fmap| |].
    { intros P R. apply update_run. intros x Hx. by apply Hg, HXG. }
    destruct (arena_slice_loop (update g2) (g' <$> X) s mt FD CD PXt k X Hrgt)
      as (mt'' & Hr2 & Hrgt''); [lia|done|by rewrite length_fmap| |].
    { intros P R. apply update_run. intros x Hx. by apply Hg, HXG. }
    assert (mt'' = mt') as -> by (by eapply regions_determines).
    by exists (g' <$> X), mt'. }
  exists m'. split; [done|]. split; [done|].
  split; [by apply (wf_arena_same_descriptors s m m' FD CD PX PX')|].
  split; [by apply (no_alias_same_descriptors s m m' FD CD PX PX')|].
  intros i c' Hi Hc'. destruct (Hall i c' Hi Hc') as (X & HX & HX').
  rewrite HX. destruct (decide (c' = c)).
  - destruct HX' as (X' & -> & ->). done.
  - done.
Qed.

(** X9: [scale_channel_S] by an integer factor [k] multiplies every
    sample of channel [c] by [k], saturating at 255, leaves every other
    channel as it was and keeps the arena well formed. *)
Theorem scale_channel_S_integer_factor nw s m c k :
  wf_arena s m → no_alias s m → Forall (λ x, 0 ≤ x < 256) (bytes m) →
  0 ≤ c < channels (shdr s) → 0 ≤ k < 256 →
  ∃ m',
    scale_channel_S nw (Some s) m c (f32_of_int k) = Ok m' ∧
    wf_arena s m' ∧ no_alias s m' ∧
    ∀ i c', 0 ≤ i < num_frames (shdr s) → 0 ≤ c' < channels (shdr s) →
      channel_pixels m' s i c'
      = if decide (c' = c)
        then (λ px : list Z, (λ x, Z.min (k * x) 255) <$> px)
               <$> channel_pixels m s i c'
        else channel_pixels m s i c'.
Proof.
  intros Hwf Hna Hbytes Hc Hk.
  destruct (arena_scale_loop (scale_sample nw (f32_of_int k))
              (scale_sample nw (f32_of_int k)) (λ x, Z.min (k * x) 255)
              (λ x, 0 ≤ x < 256) s m c Hwf Hna Hc)
    as (m' & Hrun & _ & Hwf' & Hna' & Hall).
  { intros i X x Hi HX Hx. rewrite Forall_forall in Hbytes. apply Hbytes.
    by eapply channel_pixels_elem. }
  { intros x Hx. by split; apply scale_sample_integer. }
  exists m'. split; [|done].
  rewrite scale_channel_S_frames by lia. by rewrite Hrun.
Qed.

Lemma scale_sample_wasm_table :
  Forall (λ k, Forall (λ x, scale_sample_wasm IsoC (f32_of_int k) x
                            = if bool_decide (k * x ≤ 255) then Some (k * x)
                              else None)
                 (seqZ 0 256)) (seqZ 0 256).
Proof. apply (bool_decide_unpack _). vm_compute. exact I. Qed.

Lemma scale_sample_wasm_small nw k x :
  0 ≤ k < 256 → 0 ≤ x < 256 → k * x ≤ 255 →
  scale_sample_wasm nw (f32_of_int k) x = Some (k * x).
Proof.
  intros Hk Hx Hkx.
  pose proof scale_sample_wasm_table as Htab.
  rewrite Forall_forall in Htab. specialize (Htab k).
  rewrite Forall_forall in Htab. specialize (Htab ltac:(apply elem_of_seqZ; lia) x).
  rewrite bool_decide_true in Htab by done.
  specialize (Htab ltac:(apply elem_of_seqZ; lia)).
  unfold scale_sample_wasm in *.
  destruct (float_to_uchar IsoC (f32_mul (f32_of_int x) (f32_of_int k)))
    as [y|] eqn:Hy; [|done].
  by rewrite (float_to_uchar_defined nw _ y Hy).
Qed.

(** X10: with an integer factor [k] and a channel none of whose samples
    exceeds 255 when multiplied by [k], the bulk-export scale leaves the
    arena exactly as [scale_channel_S] does. *)
Theorem scale_channel_S_wasm_without_overflow nw s m c k :
  wf_arena s m → no_alias s m →
  0 ≤ c < channels (shdr s) → 0 ≤ k < 256 →
  (∀ i X x, 0 ≤ i < num_frames (shdr s) →
            channel_pixels m s i c = Some X → x ∈ X → 0 ≤ x < 256 ∧ k * x ≤ 255) →
  scale_channel_S_wasm nw (Some s) m c (f32_of_int k)
  = exit_code m (scale_channel_S nw (Some s) m c (f32_of_int k)).
Proof.
  intros Hwf Hna Hc Hk Hsmall.
  destruct (arena_scale_loop (scale_sample nw (f32_of_int k))
              (scale_sample_wasm nw (f32_of_int k)) (λ x, k * x)
              (λ x, 0 ≤ x < 256 ∧ k * x ≤ 255) s m c Hwf Hna Hc)
    as (m' & Hrun & Hrun' & _); [done| |].
  { intros x [Hx Hkx]. split.
    - rewrite scale_sample_integer by done. f_equal. lia.
    - by apply scale_sample_wasm_small. }
  rewrite scale_channel_S_frames by lia. rewrite Hrun.
  unfold scale_channel_S_wasm. rewrite bool_decide_false by lia. cbv zeta.
  rewrite for_step_chunks_0 by lia. by rewrite Hrun'.
Qed.

(** ** [swap_channels_S] on descriptors *)

Lemma wf_arena_described s m FD CD PX :
  wf_arena s m → regions s m FD CD PX → described s FD CD.
Proof.
  intros Hwf Hrg. pose proof (rg_frames _ _ _ _ _ Hrg) as Hfr. split.
  - intros i Hi. destruct (wfa_frame_desc _ _ Hwf i Hi) as (j & Hj & Hld).
    destruct (lookup_lt_is_Some_2 FD (Z.to_nat i)) as [fd Hfd].
    { destruct Hrg. lia. }
    exists fd, j. split; [done|]. split; [done|].
    unfold load_ptr in Hld.
    rewrite (regions_load_frame s m FD CD PX i fd Hrg) in Hld by (done || lia).
    simpl in Hld. injection Hld as Hld. by rewrite Hfr.
  - intros idx Hidx. destruct (wfa_channel_desc _ _ Hwf idx Hidx) as (k & Hk & Hld).
    destruct (lookup_lt_is_Some_2 CD (Z.to_nat idx)) as [cd Hcd].
    { destruct Hrg. lia. }
    exists cd, k. split; [done|]. split; [done|].
    unfold load_ptr in Hld.
    rewrite (regions_load_channel s m FD CD PX idx cd Hrg) in Hld by (done || lia).
    simpl in Hld. injection Hld as Hld. by rewrite Hfr.
Qed.

Lemma described_wf_arena s m m' FD CD PX :
  wf_arena s m → base m' = base m →
  regions s m' FD CD PX → described s FD CD → wf_arena s m'.
Proof.
  intros Hwf Hbase Hrg [HFD HCD].
  pose proof (regions_length _ _ _ _ _ Hrg) as Hlen. unfold arena_size in Hlen.
  pose proof (rg_frames _ _ _ _ _ Hrg) as Hfr.
  destruct Hwf as [? ? ? ? ? ? ? Hlen0 _ _].
  split; try done; try congruence; try lia.
  - intros i Hi. destruct (HFD i Hi) as (fd & j & Hfd & Hj & Hv).
    exists j. split; [done|]. unfold load_ptr.
    rewrite (regions_load_frame s m' FD CD PX i fd Hrg) by (done || lia).
    simpl. by rewrite Hv, Hfr.
  - intros idx Hidx. destruct (HCD idx Hidx) as (cd & k & Hcd & Hk & Hv).
    exists k. split; [done|]. unfold load_ptr.
    rewrite (regions_load_channel s m' FD CD PX idx cd Hrg) by (done || lia).
    simpl. by rewrite Hv, Hfr.
Qed.

(** The slot a channel refers to, from the descriptor records. *)
Lemma described_slot s FD CD i c :
  described s FD CD →
  0 ≤ i < num_frames (shdr s) → 0 ≤ c < channels (shdr s) →
  ∃ k, slot_of s FD CD i c k.
Proof.
  intros [HFD HCD] Hi Hc. destruct (HFD i Hi) as (fd & j & Hfd & Hj & Hv).
  destruct (HCD (j * channels (shdr s) + c)) as (cd & k & Hcd & Hk & Hvc); [nia|].
  by exists k, fd, j, cd.
Qed.

Lemma channel_at_regions s m FD CD PX i c fd :
  regions s m FD CD PX → 0 ≤ i → FD !! Z.to_nat i = Some fd →
  channel_at m (frame_at s i) c = Some (le_value fd + c * 8).
Proof.
  intros Hrg Hi Hfd. unfold channel_at, load_ptr.
  by rewrite (regions_load_frame s m FD CD PX i fd Hrg).
Qed.

(** Distinct frames of an alias-free arena have distinct runs of
    Channel Descriptors. *)
Lemma run_inj s m FD CD PX i i' fd fd' j c :
  regions s m FD CD PX → described s FD CD → no_alias s m →
  0 ≤ i < num_frames (shdr s) → 0 ≤ i' < num_frames (shdr s) →
  0 ≤ c < channels (shdr s) → 0 ≤ j < num_frames (shdr s) →
  FD !! Z.to_nat i = Some fd → FD !! Z.to_nat i' = Some fd' →
  le_value fd = frames s + num_frames (shdr s) * 8 + j * channels (shdr s) * 8 →
  le_value fd' = frames s + num_frames (shdr s) * 8 + j * channels (shdr s) * 8 →
  i = i'.
Proof.
  intros Hrg [_ HCD] Hna Hi Hi' Hc Hj Hfd Hfd' Hv Hv'.
  destruct (HCD (j * channels (shdr s) + c)) as (cd & k & Hcd & Hk & Hvc); [nia|].
  assert (slot_of s FD CD i c k) as Hs by (by exists fd, j, cd).
  assert (slot_of s FD CD i' c k) as Hs' by (by exists fd', j, cd).
  destruct (slot_channel_pixels s m FD CD PX i c k Hrg) as [Hd _]; [lia..|done|].
  destruct (slot_channel_pixels s m FD CD PX i' c k Hrg) as [Hd' _]; [lia..|done|].
  destruct (Hna i c i' c) as [-> _]; [done..|congruence|done].
Qed.

Section swap_channels_S.
Context (s : SVideo).
Local Notation "'n'" := (num_frames (shdr s)).
Local Notation "'C'" := (channels (shdr s)).

(** The loop of [swap_channels_S] on the descriptor records. *)
Lemma swap_channels_S_regions m FD CD PX c1 c2 :
  regions s m FD CD PX → described s FD CD → no_alias s m →
  frames s ≠ 0 → 0 ≤ num_frames (shdr s) →
  0 ≤ c1 < channels (shdr s) → 0 ≤ c2 < channels (shdr s) →
  ∃ m' CD',
    swap_channels_S (Some s) m c1 c2 = Ok m' ∧
    regions s m' FD CD' PX ∧
    (∀ idx cd, CD' !! idx = Some cd → ∃ idx', CD !! idx' = Some cd) ∧
    ∀ i c fd j,
      0 ≤ i < num_frames (shdr s) → 0 ≤ c < channels (shdr s) →
      FD !! Z.to_nat i = Some fd → 0 ≤ j < num_frames (shdr s) →
      le_value fd = frames s + num_frames (shdr s) * 8 + j * channels (shdr s) * 8 →
      CD' !! Z.to_nat (j * channels (shdr s) + c)
      = CD !! Z.to_nat (j * channels (shdr s) + exchanged c1 c2 c).
Proof.
  intros Hrg Hdesc Hna Hnz Hn Hc1 Hc2.
  pose proof (rg_frames _ _ _ _ _ Hrg) as Hfr.
  destruct (foldM_invariant
              (λ t mt, ∃ CDt, regions s mt FD CDt PX ∧
                 (∀ idx cd, CDt !! idx = Some cd → ∃ idx', CD !! idx' = Some cd) ∧
                 ∀ i c fd j, 0 ≤ i < n → 0 ≤ c < C →
                   FD !! Z.to_nat i = Some fd → 0 ≤ j < n →
                   le_value fd = frames s + n * 8 + j * C * 8 →
                   CDt !! Z.to_nat (j * C + c)
                   = CD !! Z.to_nat (j * C + if decide (i < t) then exchanged c1 c2 c
                                            else c))
              (λ m frame,
                 c1' ← channel_at m (frame_at s frame) c1;
                 temp ← mload_range m c1' 8;
                 c2' ← channel_at m (frame_at s frame) c2;
                 src ← mload_range m c2' 8;
                 c1' ← channel_at m (frame_at s frame) c1;
                 m ← mstore_range m c1' src;
                 c2' ← channel_at m (frame_at s frame) c2;
                 mstore_range m c2' temp)
              m n) as (m' & Hrun & CD' & Hrg' & Hfrom & Hall); [done| | |].
  - exists CD. split; [done|]. split; [by eauto|].
    intros i c fd j Hi Hc Hfd Hj Hv. rewrite decide_False; [done|lia].
  - intros t mt Ht (CDt & Hrgt & Hfrom & Hall).
    pose proof (rg_frames _ _ _ _ _ Hrgt) as Hfrt.
    destruct Hdesc as [HFD HCD].
    destruct (HFD t Ht) as (fdt & jt & Hfdt & Hjt & Hvt).
    assert (0 ≤ jt * C) as HjC by nia.
    assert (0 ≤ jt * C + c1 < n * C) as Hi1 by nia.
    assert (0 ≤ jt * C + c2 < n * C) as Hi2 by nia.
    assert (Z.of_nat (length CDt) = n * C) as HlenCDt by (by destruct Hrgt).
    destruct (lookup_lt_is_Some_2 CDt (Z.to_nat (jt * C + c1))) as [cd1 Hcd1]; [lia|].
    destruct (lookup_lt_is_Some_2 CDt (Z.to_nat (jt * C + c2))) as [cd2 Hcd2]; [lia|].
    assert (le_value fdt + c1 * 8 = base mt + n * 8 + (jt * C + c1) * 8) as Ha1
      by (rewrite Hvt, Hfrt; lia).
    assert (le_value fdt + c2 * 8 = base mt + n * 8 + (jt * C + c2) * 8) as Ha2
      by (rewrite Hvt, Hfrt; lia).
    assert (∀ mx CDx c, regions s mx FD CDx PX →
              channel_at mx (frame_at s t) c = Some (le_value fdt + c * 8)) as Hcat.
    { intros mx CDx c Hrgx.
      apply (channel_at_regions s mx FD CDx PX t c fdt Hrgx); [lia|done]. }
    rewrite !(Hcat mt CDt _ Hrgt).
    cbn [mbind option_bind]. rewrite Ha1, Ha2.
    rewrite (regions_load_channel s mt FD CDt PX (jt * C + c1) cd1 Hrgt)
      by (done || lia).
    cbn [mbind option_bind].
    rewrite (regions_load_channel s mt FD CDt PX (jt * C + c2) cd2 Hrgt)
      by (done || lia).
    cbn [mbind option_bind].
    destruct (regions_store_channel s mt FD CDt PX (jt * C + c1) cd2 Hrgt)
      as (mt1 & Hst1 & Hb1 & Hrg1); [done| |].
    { eapply chunked_lookup; [exact (rg_CD _ _ _ _ _ Hrgt)|exact Hcd2]. }
    rewrite Hst1. cbn [mbind option_bind].
    rewrite (Hcat mt1 _ _ Hrg1).
    cbn [mbind option_bind]. rewrite Ha2, <- Hb1.
    destruct (regions_store_channel s mt1 FD _ PX (jt * C + c2) cd1 Hrg1)
      as (mt2 & Hst2 & Hb2 & Hrg2); [done| |].
    { eapply chunked_lookup; [exact (rg_CD _ _ _ _ _ Hrgt)|exact Hcd1]. }
    rewrite Hst2.
    eexists. split; [done|]. eexists. split; [exact Hrg2|].
    assert (∀ c, 0 ≤ c < C →
              <[Z.to_nat (jt * C + c2):=cd1]> (<[Z.to_nat (jt * C + c1):=cd2]> CDt)
                !! Z.to_nat (jt * C + c)
              = CDt !! Z.to_nat (jt * C + exchanged c1 c2 c)) as Hswap.
    { intros c Hc. unfold exchanged.
      destruct (decide (c = c1)) as [->|Hn1]; [|destruct (decide (c = c2)) as [->|Hn2]].
      - destruct (decide (c1 = c2)) as [->|Hn12].
        + rewrite list_lookup_insert_eq by (rewrite length_insert; lia). done.
        + rewrite list_lookup_insert_ne by lia.
          rewrite list_lookup_insert_eq by lia. done.
      - rewrite list_lookup_insert_eq by (rewrite length_insert; lia). done.
      - rewrite !list_lookup_insert_ne by lia. done. }
    split.
    { intros idx cd Hidx.
      destruct (decide (idx = Z.to_nat (jt * C + c2))) as [->|Hne2].
      { rewrite list_lookup_insert_eq in Hidx by (rewrite length_insert; lia).
        injection Hidx as <-. exact (Hfrom _ _ Hcd1). }
      rewrite list_lookup_insert_ne in Hidx by done.
      destruct (decide (idx = Z.to_nat (jt * C + c1))) as [->|Hne1].
      { rewrite list_lookup_insert_eq in Hidx by lia.
        injection Hidx as <-. exact (Hfrom _ _ Hcd2). }
      rewrite list_lookup_insert_ne in Hidx by done. exact (Hfrom _ _ Hidx). }
    intros i c fd j Hi Hc Hfd Hj Hv.
    destruct (decide (j = jt)) as [->|Hjne].
    + assert (i = t) as ->.
      { by apply (run_inj s m FD CD PX i t fd fdt jt c1). }
      rewrite Hswap by done. rewrite decide_True by lia.
      rewrite (Hall t (exchanged c1 c2 c) fdt jt); try done.
      * rewrite decide_False; [done|lia].
      * by apply exchanged_range.
    + assert (i ≠ t) as Hit.
      { intros ->. apply Hjne. rewrite Hfdt in Hfd. injection Hfd as <-.
        nia. }
      assert (j * C + c ≠ jt * C + c1).
      { intros Heq. apply slot_inj in Heq; [lia|done..]. }
      assert (j * C + c ≠ jt * C + c2).
      { intros Heq. apply slot_inj in Heq; [lia|done..]. }
      assert (0 ≤ j * C + c) by nia.
      rewrite !list_lookup_insert_ne by lia.
      rewrite (Hall i c fd j) by done.
      destruct (decide (i < t)), (decide (i < t + 1)); try done; lia.
  - exists m', CD'. split.
    { unfold swap_channels_S. rewrite bool_decide_false by lia.
      rewrite bool_decide_false by done.
      by rewrite Hrun. }
    split; [done|]. split; [done|].
    intros i c fd j Hi Hc Hfd Hj Hv. rewrite (Hall i c fd j) by done.
    rewrite decide_True; [done|lia].
Qed.

End swap_channels_S.

(** X11: [swap_channels_S] exchanges the two channels of every frame by
    exchanging their descriptors; the payload is not moved, the other
    channels are kept and the arena stays well formed. *)
Theorem swap_channels_S_exchanges s m c1 c2 :
  wf_arena s m → no_alias s m →
  0 ≤ c1 < channels (shdr s) → 0 ≤ c2 < channels (shdr s) →
  ∃ m',
    swap_channels_S (Some s) m c1 c2 = Ok m' ∧
    wf_arena s m' ∧ no_alias s m' ∧
    drop (Z.to_nat (num_frames (shdr s) * 8
                    + num_frames (shdr s) * channels (shdr s) * 8)) (bytes m')
    = drop (Z.to_nat (num_frames (shdr s) * 8
                      + num_frames (shdr s) * channels (shdr s) * 8)) (bytes m) ∧
    ∀ i c, 0 ≤ i < num_frames (shdr s) → 0 ≤ c < channels (shdr s) →
      channel_data m' s i c = channel_data m s i (exchanged c1 c2 c) ∧
      channel_pixels m' s i c = channel_pixels m s i (exchanged c1 c2 c).
Proof.
  intros Hwf Hna Hc1 Hc2.
  destruct (wf_regions s m Hwf) as (FD & CD & PX & Hrg & _).
  pose proof (wf_arena_described s m FD CD PX Hwf Hrg) as Hdesc.
  pose proof (wfa_num_frames _ _ Hwf) as Hn.
  destruct (swap_channels_S_regions s m FD CD PX c1 c2 Hrg Hdesc Hna)
    as (m' & CD' & Hrun & Hrg' & Hfrom & Hall); [|lia|done|done|].
  { rewrite (wfa_frames _ _ Hwf). pose proof (wfa_base _ _ Hwf). lia. }
  assert (base m' = base m) as Hbase.
  { by rewrite <- (rg_frames _ _ _ _ _ Hrg), <- (rg_frames _ _ _ _ _ Hrg'). }
  assert (described s FD CD') as Hdesc'.
  { destruct Hdesc as [HFD HCD]. split; [done|]. intros idx Hidx.
    destruct (lookup_lt_is_Some_2 CD' (Z.to_nat idx)) as [cd Hcd].
    { destruct Hrg'. lia. }
    destruct (Hfrom _ _ Hcd) as [idx' Hcd'].
    pose proof (lookup_lt_Some _ _ _ Hcd') as Hlt.
    destruct (HCD (Z.of_nat idx')) as (cd'' & k & Hcd'' & Hk & Hv).
    { destruct Hrg. lia. }
    rewrite Nat2Z.id in Hcd''. exists cd, k. split; [done|]. split; [done|].
    congruence. }
  assert (∀ i c, 0 ≤ i < num_frames (shdr s) → 0 ≤ c < channels (shdr s) →
            channel_data m' s i c = channel_data m s i (exchanged c1 c2 c) ∧
            channel_pixels m' s i c = channel_pixels m s i (exchanged c1 c2 c))
    as Hspec.
  { intros i c Hi Hc.
    pose proof (exchanged_range c1 c2 c _ Hc1 Hc2 Hc) as Hx.
    destruct Hdesc as [HFD HCD].
    destruct (HFD i Hi) as (fd & j & Hfd & Hj & Hv).
    destruct (HCD (j * channels (shdr s) + exchanged c1 c2 c))
      as (cd & k & Hcd & Hk & Hvc); [nia|].
    assert (slot_of s FD CD i (exchanged c1 c2 c) k) as Hs by (by exists fd, j, cd).
    assert (slot_of s FD CD' i c k) as Hs'.
    { exists fd, j, cd. split; [done|]. split; [done|]. split; [done|].
      split; [|done]. by rewrite (Hall i c fd j). }
    destruct (slot_channel_pixels s m FD CD PX i (exchanged c1 c2 c) k Hrg)
      as [-> ->]; [lia..|done|].
    destruct (slot_channel_pixels s m' FD CD' PX i c k Hrg') as [-> ->];
      [lia..|done|].
    by rewrite Hbase. }
  exists m'. split; [done|].
  split; [by apply (described_wf_arena s m m' FD CD' PX)|].
  split.
  { intros i c i' c' Hi Hc Hi' Hc' Heq.
    destruct (Hspec i c Hi Hc) as [Hd _]. destruct (Hspec i' c' Hi' Hc') as [Hd' _].
    rewrite Hd, Hd' in Heq.
    destruct (Hna _ _ _ _ Hi (exchanged_range c1 c2 c _ Hc1 Hc2 Hc)
                Hi' (exchanged_range c1 c2 c' _ Hc1 Hc2 Hc') Heq) as [-> Hcc].
    split; [done|].
    by rewrite <- (exchanged_involutive c1 c2 c), Hcc, exchanged_involutive. }
  split; [|done].
  destruct Hrg as [_ Hb HFD HnFD HCD HnCD _ _], Hrg' as [_ Hb' _ _ HCD' HnCD' _ _].
  rewrite Hb, Hb', !app_assoc.
  assert (length (concat FD ++ concat CD) = length (concat FD ++ concat CD')) as Hl.
  { rewrite !length_app. f_equal. apply Nat2Z.inj.
    rewrite (chunked_length 8 CD), (chunked_length 8 CD') by done. lia. }
  assert (Z.to_nat (num_frames (shdr s) * 8
                    + num_frames (shdr s) * channels (shdr s) * 8)
          = length (concat FD ++ concat CD)) as ->.
  { rewrite length_app. apply Nat2Z.inj. rewrite Nat2Z.inj_add.
    rewrite (chunked_length 8 FD), (chunked_length 8 CD) by done. nia. }
  rewrite drop_app_length. rewrite Hl, drop_app_length. done.
Qed.

(** ** [reverse_S] on descriptors *)

(** X12: [reverse_S] keeps the arena well formed and alias-free: frame [i]
    then refers to the channels frame [n - 1 - i] referred to. *)
Theorem reverse_S_keeps_arena s m :
  wf_arena s m →
  ∃ m',
    reverse_S (Some s) m = Ok m' ∧ wf_arena s m' ∧
    (no_alias s m → no_alias s m') ∧
    ∀ i c, 0 ≤ i < num_frames (shdr s) → 0 ≤ c < channels (shdr s) →
      channel_data m' s i c = channel_data m s (num_frames (shdr s) - 1 - i) c.
Proof.
  intros Hwf.
  destruct (wf_regions s m Hwf) as (FD & CD & PX & Hrg & _).
  pose proof (wf_arena_described s m FD CD PX Hwf Hrg) as [HFD HCD].
  pose proof (wfa_num_frames _ _ Hwf) as Hn.
  pose proof (rg_FD_length _ _ _ _ _ Hrg) as HnFD.
  set (m' := with_bytes m (concat (list.reverse FD) ++ concat CD ++ concat PX)).
  assert (reverse_S (Some s) m = Ok m') as Hrun.
  { apply (reverse_S_regions s m FD (concat CD ++ concat PX)); try by destruct Hrg.
    pose proof (wfa_base _ _ Hwf). lia. }
  assert (regions s m' (list.reverse FD) CD PX) as Hrg'.
  { destruct Hrg. split; simpl; try done.
    - by apply Forall_reverse.
    - by rewrite length_reverse. }
  assert (∀ i, 0 ≤ i < num_frames (shdr s) →
               list.reverse FD !! Z.to_nat i
               = FD !! Z.to_nat (num_frames (shdr s) - 1 - i)) as Hrev.
  { intros i Hi. rewrite reverse_lookup by lia. f_equal. lia. }
  assert (described s (list.reverse FD) CD) as Hdesc'.
  { split; [|done]. intros i Hi.
    destruct (HFD (num_frames (shdr s) - 1 - i)) as (fd & j & Hfd & Hj & Hv); [lia|].
    exists fd, j. by rewrite Hrev. }
  assert (∀ i c, 0 ≤ i < num_frames (shdr s) → 0 ≤ c < channels (shdr s) →
            channel_data m' s i c
            = channel_data m s (num_frames (shdr s) - 1 - i) c) as Hspec.
  { intros i c Hi Hc.
    destruct (HFD (num_frames (shdr s) - 1 - i)) as (fd & j & Hfd & Hj & Hv); [lia|].
    destruct (HCD (j * channels (shdr s) + c)) as (cd & k & Hcd & Hk & Hvc); [nia|].
    assert (slot_of s FD CD (num_frames (shdr s) - 1 - i) c k) as Hs
      by (by exists fd, j, cd).
    assert (slot_of s (list.reverse FD) CD i c k) as Hs'.
    { exists fd, j, cd. by rewrite Hrev. }
    destruct (slot_channel_pixels s m FD CD PX (num_frames (shdr s) - 1 - i) c k Hrg)
      as [-> _]; [lia..|done|].
    destruct (slot_channel_pixels s m' (list.reverse FD) CD PX i c k Hrg')
      as [-> _]; [lia..|done|].
    done. }
  exists m'. split; [done|].
  split; [by apply (described_wf_arena s m m' (list.reverse FD) CD PX)|].
  split; [|done].
  intros Hna i c i' c' Hi Hc Hi' Hc' Heq.
  rewrite !Hspec in Heq by done.
  destruct (Hna (num_frames (shdr s) - 1 - i) c (num_frames (shdr s) - 1 - i') c')
    as [? ->]; [lia|done|lia|done|done|]. split; [lia|done].
Qed.

(** ** What [decode] and [decode_S] build *)


(** ** The arena [decode_S] builds *)

Lemma built_slots s FD CD i c :
  (∀ i, 0 ≤ i < num_frames (shdr s) → FD !! Z.to_nat i = Some (frame_desc s i)) →
  (∀ j, 0 ≤ j < num_frames (shdr s) * channels (shdr s) →
        CD !! Z.to_nat j = Some (channel_desc s j)) →
  0 ≤ height (shdr s) * width (shdr s) →
  0 < frames s → frames s + arena_size (shdr s) < 2 ^ 64 →
  0 ≤ i < num_frames (shdr s) → 0 ≤ c < channels (shdr s) →
  slot_of s FD CD i c (i * channels (shdr s) + c).
Proof.
  intros HFD HCD Hfs Hbase Hfit Hi Hc. unfold arena_size in Hfit.
  assert (0 ≤ i * channels (shdr s) + c < num_frames (shdr s) * channels (shdr s))
    as Hj by nia.
  assert (0 ≤ i * channels (shdr s) ∧
          i * channels (shdr s) + channels (shdr s)
          ≤ num_frames (shdr s) * channels (shdr s)) by nia.
  exists (frame_desc s i), i, (channel_desc s (i * channels (shdr s) + c)).
  split; [by apply HFD|]. split; [done|].
  split. { unfold frame_desc. apply le_value_ptr. nia. }
  split; [by apply HCD|]. split; [done|].
  unfold channel_desc. apply le_value_ptr.
  assert (0 ≤ (i * channels (shdr s) + c) * (height (shdr s) * width (shdr s))
          ∧ (i * channels (shdr s) + c) * (height (shdr s) * width (shdr s))
            + height (shdr s) * width (shdr s)
            ≤ num_frames (shdr s) * channels (shdr s)
              * (height (shdr s) * width (shdr s))) by nia.
  lia.
Qed.

Lemma decode_S_built al h PX trailing m0 :
  0 ≤ num_frames h < 2 ^ 63 → 0 ≤ channels h < 256 →
  0 ≤ height h < 256 → 0 ≤ width h < 256 →
  chunked (height h * width h) PX →
  Z.of_nat (length PX) = num_frames h * channels h →
  is_Some (malloc al 24) → malloc al (arena_size h) = Some m0 →
  let s := {| shdr := h; frames := base m0 |} in
  ∃ m FD CD,
    decode_S al (Some (write_header h ++ concat PX ++ trailing)) = Ok (s, m) ∧
    regions s m FD CD PX ∧
    (∀ i, 0 ≤ i < num_frames h → FD !! Z.to_nat i = Some (frame_desc s i)) ∧
    (∀ j, 0 ≤ j < num_frames h * channels h →
          CD !! Z.to_nat j = Some (channel_desc s j)).
Proof.
  intros Hn HC Hh Hw HPX HnPX [sv Hsv] Hm0 s.
  destruct (malloc_range _ _ _ Hm0) as [Hbase Hfit].
  pose proof (malloc_length _ _ _ Hm0) as Hlen0.
  set (fs := height h * width h) in *.
  assert (0 ≤ fs) by (unfold fs; nia).
  assert (0 ≤ num_frames h * channels h) by nia.
  assert (0 ≤ num_frames h * channels h * fs) by nia.
  assert (0 ≤ arena_size h) as Hsize by (unfold arena_size; fold fs; lia).
  destruct (split_regions (Z.to_nat (num_frames h))
              (Z.to_nat (num_frames h * channels h)) fs (bytes m0))
    as (FD0 & CD0 & PX0 & Hb0 & ? & ? & ? & ? & ? & ?); [done| |].
  { rewrite Hlen0. unfold arena_size in *. fold fs in Hsize |- *. lia. }
  assert (built s 0 0 m0) as Hbuilt0.
  { exists FD0, CD0, PX0. split; [split; simpl; try done; lia|]. split; intros; lia. }
  destruct (build_descriptors s) with (m := m0) as (m1 & Hloop & Hbuilt1);
    [simpl; lia..|done|].
  destruct Hbuilt1 as (FD & CD & PX1 & Hrg1 & HFD & HCD).
  destruct (regions_store_payload s m1 FD CD PX1 PX Hrg1) as (m2 & Hst & _ & Hrg2).
  { done. }
  { destruct Hrg1. simpl in *. lia. }
  exists m2, FD, CD. split; [|by split].
  unfold decode_S. rewrite Hsv, read_write_header by lia. cbv zeta.
  fold fs. rewrite (wrap64_small (num_frames h * channels h * fs)) by
    (unfold arena_size in Hfit; fold fs in Hfit; lia).
  replace (wrap64 (num_frames h * 8 + num_frames h * channels h * 8
                   + num_frames h * channels h * fs)) with (arena_size h)
    by (symmetry; apply wrap64_small; lia).
  rewrite Hm0. unfold s in Hloop. cbn [shdr frames] in Hloop. fold fs in Hloop.
  rewrite Hloop.
  replace (num_frames h * channels h * fs) with (Z.of_nat (length (concat PX)))
    by (rewrite (chunked_length fs PX HPX); lia).
  rewrite fread_app.
  pose proof (rg_frames _ _ _ _ _ Hrg1) as Hfr. simpl in Hfr, Hst.
  rewrite !wrap64_small by (unfold arena_size in Hfit; fold fs in Hfit; lia).
  rewrite <- Hfr in Hst. rewrite Hst. done.
Qed.

(** X14: from a file that holds a header in range and the payload it
    declares, [decode_S] builds a well-formed arena in which channel [c]
    of frame [i] is slice [i * channels + c] of the payload, stored at
    that position of the Pixel Payload region; no two channels share
    pixels, and bytes after the payload are ignored. *)
Theorem decode_S_lays_out_channels al h PX trailing m0 :
  0 ≤ num_frames h < 2 ^ 63 → 0 ≤ channels h < 256 →
  0 < height h < 256 → 0 < width h < 256 →
  chunked (height h * width h) PX →
  Z.of_nat (length PX) = num_frames h * channels h →
  is_Some (malloc al 24) → malloc al (arena_size h) = Some m0 →
  ∃ s m,
    decode_S al (Some (write_header h ++ concat PX ++ trailing)) = Ok (s, m) ∧
    shdr s = h ∧ wf_arena s m ∧ no_alias s m ∧
    ∀ i c, 0 ≤ i < num_frames h → 0 ≤ c < channels h →
      channel_data m s i c
      = Some (base m + num_frames h * 8 + num_frames h * channels h * 8
              + (i * channels h + c) * (height h * width h)) ∧
      channel_pixels m s i c = PX !! Z.to_nat (i * channels h + c).
Proof.
  intros Hn HC Hh Hw HPX HnPX Hsv Hm0.
  destruct (decode_S_built al h PX trailing m0) as (m & FD & CD & Hrun & Hrg & HFD & HCD);
    [done|done|lia|lia|done..|].
  destruct (malloc_range _ _ _ Hm0) as [Hbase Hfit].
  set (s := {| shdr := h; frames := base m0 |}) in *.
  destruct (built_arena s m FD CD PX Hrg HFD HCD) as [Hwf Hpx];
    [done|done|simpl; lia|simpl; lia|done|done|].
  assert (∀ i c, 0 ≤ i < num_frames h → 0 ≤ c < channels h →
            channel_data m s i c
            = Some (base m + num_frames h * 8 + num_frames h * channels h * 8
                    + (i * channels h + c) * (height h * width h))) as Hdat.
  { intros i c Hi Hc.
    assert (slot_of s FD CD i c (i * channels h + c)) as Hs.
    { apply built_slots; simpl; (done || nia). }
    destruct (slot_channel_pixels s m FD CD PX i c (i * channels h + c) Hrg)
      as [Hd _]; [lia|lia|done|]. done. }
  exists s, m. split; [done|]. split; [done|]. split; [done|]. split.
  - intros i c i' c' Hi Hc Hi' Hc'. simpl in Hi, Hc, Hi', Hc'.
    rewrite !Hdat by done. intros [= Heq].
    assert (0 < height h * width h) by nia.
    assert (i * channels h + c = i' * channels h + c') as Heq'.
    { apply (Z.mul_cancel_r _ _ (height h * width h)); lia. }
    by apply slot_inj in Heq'.
  - intros i c Hi Hc. split; [by apply Hdat|by apply Hpx].
Qed.

(** ** [decode_S_wasm] against [decode_S] *)

Lemma read_header_loads file h rest :
  read_header file = Some (h, rest) →
  11 ≤ Z.of_nat (length file) ∧ rest = drop 11 file ∧
  (nf ← load_range file 0 8;
   c ← load file 8;
   hh ← load file 9;
   w ← load file 10;
   Some {| num_frames := to_long (le_value nf); channels := c;
           height := hh; width := w |}) = Some h.
Proof.
  intros Hrd.
  do 11 (destruct file as [|? file]; [by vm_compute in Hrd|]).
  unfold read_header in Hrd.
  rewrite fread_Some in Hrd by (simpl; lia). simpl in Hrd.
  rewrite fread_Some in Hrd by (simpl; lia). simpl in Hrd.
  rewrite fread_Some in Hrd by (simpl; lia). simpl in Hrd.
  rewrite fread_Some in Hrd by (simpl; lia). simpl in Hrd.
  injection Hrd as <- <-. split; [simpl; lia|]. split; [done|].
  unfold load_range. rewrite bool_decide_true by (simpl; lia). simpl.
  unfold load. simpl. repeat f_equal; lia.
Qed.

(** The descriptor loop of [decode_S] completes on a fresh arena. *)
Lemma decode_S_descriptors al h m0 :
  0 ≤ num_frames h → 0 ≤ channels h → 0 ≤ height h * width h →
  malloc al (arena_size h) = Some m0 →
  is_Some
    (foldM (λ m frame_idx,
         m ← store_ptr m (frame_at {| shdr := h; frames := base m0 |} frame_idx)
               (base m0 + wrap64 (num_frames h * 8)
                + wrap64 (frame_idx * channels h * 8));
         foldM (λ m channel_idx,
             ch ← channel_at m (frame_at {| shdr := h; frames := base m0 |} frame_idx)
                     channel_idx;
             store_ptr m ch
               (base m0 + wrap64 (num_frames h * 8)
                + wrap64 (num_frames h * channels h * 8)
                + wrap64 (frame_idx * channels h * (height h * width h))
                + wrap64 (channel_idx * (height h * width h))))
           m (seqZ 0 (channels h)))
       m0 (seqZ 0 (num_frames h))).
Proof.
  intros Hn HC Hfs Hm0.
  destruct (malloc_range _ _ _ Hm0) as [Hbase Hfit].
  pose proof (malloc_length _ _ _ Hm0) as Hlen0.
  set (s := {| shdr := h; frames := base m0 |}).
  assert (0 ≤ num_frames h * channels h) by nia.
  assert (0 ≤ num_frames h * channels h * (height h * width h)) by nia.
  assert (0 ≤ arena_size h) as Hsize by (unfold arena_size; lia).
  destruct (split_regions (Z.to_nat (num_frames h))
              (Z.to_nat (num_frames h * channels h)) (height h * width h) (bytes m0))
    as (FD0 & CD0 & PX0 & Hb0 & ? & ? & ? & ? & ? & ?); [done| |].
  { rewrite Hlen0. unfold arena_size in *. lia. }
  assert (built s 0 0 m0) as Hbuilt0.
  { exists FD0, CD0, PX0. split; [split; simpl; try done; lia|]. split; intros; lia. }
  destruct (build_descriptors s) with (m := m0) as (m1 & Hloop & _);
    [simpl; lia..|done|].
  unfold s in Hloop |- *. cbn [shdr frames] in Hloop. cbv zeta in Hloop |- *.
  by rewrite Hloop.
Qed.

(** The descriptor loops of [decode_S_wasm] and [decode_S] store the
    same pointers. *)
Lemma decode_S_wasm_descriptors h b m0 :
  0 ≤ num_frames h → 0 ≤ channels h → 0 ≤ height h * width h →
  arena_size h < 2 ^ 64 →
  foldM (λ m frame_idx,
      m ← store_ptr m (frame_at {| shdr := h; frames := b |} frame_idx)
            (b + wrap64 (num_frames h * 8) + wrap64 (frame_idx * channels h * 8));
      foldM (λ m channel_idx,
          channel ← channel_at m (frame_at {| shdr := h; frames := b |} frame_idx)
                      channel_idx;
          store_ptr m channel
            (b + wrap64 (num_frames h * 8) + wrap64 (num_frames h * channels h * 8)
             + wrap64 ((frame_idx * channels h + channel_idx)
                       * (height h * width h))))
        m (seqZ 0 (channels h)))
    m0 (seqZ 0 (num_frames h))
  = foldM (λ m frame_idx,
      m ← store_ptr m (frame_at {| shdr := h; frames := b |} frame_idx)
            (b + wrap64 (num_frames h * 8) + wrap64 (frame_idx * channels h * 8));
      foldM (λ m channel_idx,
          ch ← channel_at m (frame_at {| shdr := h; frames := b |} frame_idx)
                 channel_idx;
          store_ptr m ch
            (b + wrap64 (num_frames h * 8) + wrap64 (num_frames h * channels h * 8)
             + wrap64 (frame_idx * channels h * (height h * width h))
             + wrap64 (channel_idx * (height h * width h))))
        m (seqZ 0 (channels h)))
    m0 (seqZ 0 (num_frames h)).
Proof.
  intros Hn HC Hfs Hfit. unfold arena_size in Hfit.
  apply foldM_ext. intros m f Hf%elem_of_seqZ. cbv zeta.
  destruct (store_ptr m _ _) as [m1|]; [|done]. cbn [mbind option_bind].
  apply foldM_ext. intros m2 c Hc%elem_of_seqZ.
  destruct (channel_at m2 _ c) as [ch|]; [|done]. cbn [mbind option_bind].
  f_equal.
  assert (0 ≤ f * channels h ∧ f * channels h + channels h
                                ≤ num_frames h * channels h) by nia.
  assert (0 ≤ f * channels h * (height h * width h)) by nia.
  assert (0 ≤ c * (height h * width h)) by nia.
  assert ((f * channels h + c) * (height h * width h)
          + height h * width h
          ≤ num_frames h * channels h * (height h * width h)) by nia.
  rewrite !(wrap64_small (_ * (height h * width h))) by lia. lia.
Qed.


(** ** [encode_S_wasm] against [encode_S] *)

Lemma channel_pixels_bind {B} m s i c (k : list Z → option B) :
  (ch ← channel_at m (frame_at s i) c;
   dat ← load_ptr m ch;
   px ← mload_range m dat (height (shdr s) * width (shdr s));
   k px)
  = (px ← channel_pixels m s i c; k px).
Proof.
  unfold channel_pixels, channel_data.
  destruct (channel_at m (frame_at s i) c) as [ch|]; [|done]. simpl.
  destruct (load_ptr m ch) as [dat|]; [|done]. done.
Qed.

(** The header as [encode_S_wasm] writes it into a fresh buffer. *)
Lemma wasm_header_stores h J :
  11 ≤ Z.of_nat (length J) →
  (out ← store_range J 0 (le_bytes 8 (num_frames h));
   out ← store out 8 (wrap8 (channels h));
   out ← store out 9 (wrap8 (height h));
   store out 10 (wrap8 (width h)))
  = Some (write_header h ++ drop 11 J).
Proof.
  intros Hlen.
  do 11 (destruct J as [|? J]; [simpl in Hlen; lia|]).
  unfold store_range. rewrite bool_decide_true by (simpl; lia).
  cbn [mbind option_bind]. unfold store, write_header. simpl.
  rewrite bool_decide_true by lia. simpl.
  rewrite bool_decide_true by (simpl; lia). simpl.
  rewrite bool_decide_true by (simpl; lia). done.
Qed.

Section encode_S_wasm.
Context (s : SVideo) (m : block) (PX : list (list Z)) (J : list Z).
Local Notation "'n'" := (num_frames (shdr s)).
Local Notation "'C'" := (channels (shdr s)).
Local Notation "'fs'" := (height (shdr s) * width (shdr s)).

Lemma encode_S_wasm_copies :
  0 ≤ n → 0 ≤ C → 0 ≤ fs →
  chunked fs PX → Z.of_nat (length PX) = n * C →
  Z.of_nat (length J) = 11 + n * C * fs → 11 + n * C * fs < 2 ^ 64 →
  (∀ i c, 0 ≤ i < n → 0 ≤ c < C →
          channel_pixels m s i c = PX !! Z.to_nat (i * C + c)) →
  foldM (λ '(out, offset) frame_idx,
      foldM (λ '(out, offset) channel_idx,
          ch ← channel_at m (frame_at s frame_idx) channel_idx;
          dat ← load_ptr m ch;
          px ← mload_range m dat fs;
          out ← store_range out offset px;
          Some (out, wrap64 (offset + fs)))
        (out, offset) (seqZ 0 C))
    (written s PX J 0, 11) (seqZ 0 n)
  = Some (written s PX J (n * C), 11 + n * C * fs).
Proof.
  intros Hn HC Hfs HPX HnPX HJ Hfit Hpx.
  assert (length (write_header (shdr s)) = 11%nat) as Hhdr.
  { unfold write_header. by rewrite !length_app, !le_bytes_length. }
  assert (∀ j, 0 ≤ j < n * C →
            ∀ px, PX !! Z.to_nat j = Some px →
            store_range (written s PX J j) (11 + j * fs) px = Some (written s PX J (j + 1))) as Hstep.
  { intros j Hj px Hpxj.
    pose proof (chunked_lookup fs PX _ px HPX Hpxj) as Hlpx.
    assert (0 ≤ j * fs ∧ j * fs + fs ≤ n * C * fs) by nia.
    unfold written.
    set (A := write_header (shdr s) ++ concat (take (Z.to_nat j) PX)).
    set (R := drop (Z.to_nat (11 + j * fs)) J).
    assert (Z.of_nat (length A) = 11 + j * fs) as HA.
    { unfold A. rewrite length_app, Hhdr, Nat2Z.inj_add.
      rewrite (chunked_length fs) by (by apply Forall_take).
      rewrite length_take. lia. }
    assert (Z.of_nat (length R) = n * C * fs - j * fs) as HR.
    { unfold R. rewrite length_drop. lia. }
    rewrite <- (take_drop (Z.to_nat fs) R).
    replace (write_header (shdr s) ++ concat (take (Z.to_nat j) PX)
             ++ take (Z.to_nat fs) R ++ drop (Z.to_nat fs) R)
      with (A ++ take (Z.to_nat fs) R ++ drop (Z.to_nat fs) R)
      by (unfold A; by rewrite <- app_assoc).
    rewrite <- HA. rewrite store_range_app by (rewrite length_take; lia).
    f_equal. replace (Z.to_nat (j + 1)) with (S (Z.to_nat j)) by lia.
    rewrite (take_S_r PX _ px Hpxj), concat_app. simpl. rewrite app_nil_r.
    unfold A, R. rewrite drop_drop. rewrite <- !app_assoc.
    assert (Z.to_nat (11 + j * fs) + Z.to_nat fs = Z.to_nat (11 + (j + 1) * fs))%nat
      as -> by lia.
    done. }
  destruct (foldM_invariant
              (λ i st, st = (written s PX J (i * C), 11 + i * C * fs))
              (λ '(out, offset) frame_idx,
                 foldM (λ '(out, offset) channel_idx,
                     ch ← channel_at m (frame_at s frame_idx) channel_idx;
                     dat ← load_ptr m ch;
                     px ← mload_range m dat fs;
                     out ← store_range out offset px;
                     Some (out, wrap64 (offset + fs)))
                   (out, offset) (seqZ 0 C))
              (written s PX J 0, 11) n) as (st & Hrun & ->); [done| | |done].
  - by rewrite Z.mul_0_l, Z.mul_0_l, Z.add_0_r.
  - intros i st Hi ->.
    destruct (foldM_invariant
                (λ c st, st = (written s PX J (i * C + c), 11 + (i * C + c) * fs))
                (λ '(out, offset) channel_idx,
                   ch ← channel_at m (frame_at s i) channel_idx;
                   dat ← load_ptr m ch;
                   px ← mload_range m dat fs;
                   out ← store_range out offset px;
                   Some (out, wrap64 (offset + fs)))
                (written s PX J (i * C), 11 + i * C * fs) C) as (st & Hrun & ->); [done| | |].
    + by rewrite Z.add_0_r.
    + intros c st Hc ->.
      assert (0 ≤ i * C + c < n * C) as Hj by nia.
      assert (0 ≤ (i * C + c) * fs ∧ (i * C + c) * fs + fs ≤ n * C * fs) by nia.
      destruct (lookup_lt_is_Some_2 PX (Z.to_nat (i * C + c))) as [px Hpxj]; [lia|].
      rewrite (channel_pixels_bind m s i c
                 (λ px, out ← store_range (written s PX J (i * C + c))
                                (11 + (i * C + c) * fs) px;
                        Some (out, wrap64 (11 + (i * C + c) * fs + fs)))).
      rewrite Hpx by done. rewrite Hpxj. cbn [mbind option_bind].
      rewrite (Hstep _ Hj px Hpxj). cbn [mbind option_bind].
      eexists. split; [done|]. f_equal.
      * f_equal. lia.
      * rewrite wrap64_small by lia. lia.
    + exists (written s PX J (i * C + C), 11 + (i * C + C) * fs). split; [done|].
      f_equal; [f_equal|]; lia.
Qed.

End encode_S_wasm.


(** ** The streaming decode within its capacity *)

(** Storing one byte into slice [k] of the payload. *)
Lemma regions_store_pixel s m FD CD PX k A o R v :
  regions s m FD CD PX → 0 ≤ k → PX !! Z.to_nat k = Some (A ++ o :: R) →
  ∃ m',
    mstore m (base m + num_frames (shdr s) * 8
              + num_frames (shdr s) * channels (shdr s) * 8
              + k * (height (shdr s) * width (shdr s)) + Z.of_nat (length A)) v
    = Some m' ∧
    regions s m' FD CD (<[Z.to_nat k:=A ++ v :: R]> PX).
Proof.
  intros Hrg Hk HX.
  destruct (regions_replace_slice s m FD CD PX k _ Hrg Hk HX)
    as (P & T & Hb & HP & Hrep).
  exists (with_bytes m (P ++ (A ++ v :: R) ++ T)). split.
  - unfold mstore, store. rewrite Hb.
    rewrite bool_decide_true by (rewrite !length_app; simpl; lia).
    simpl. f_equal. f_equal.
    replace (Z.to_nat (base m + num_frames (shdr s) * 8
                       + num_frames (shdr s) * channels (shdr s) * 8
                       + k * (height (shdr s) * width (shdr s))
                       + Z.of_nat (length A) - base m))
      with (length (P ++ A)) by (rewrite length_app; lia).
    rewrite !app_assoc. rewrite <- (app_assoc (P ++ A)).
    rewrite <- (app_assoc (P ++ A)). simpl. by rewrite insert_middle.
  - apply Hrep. rewrite !length_app. done.
Qed.

Lemma seqZ_snoc m n : 0 ≤ n → seqZ m (n + 1) = seqZ m n ++ [m + n].
Proof. intros. by rewrite seqZ_app by lia. Qed.

(** The pixel loops of [decode_standard_video] for one channel: they
    fill slice [j] of the payload with the plane of channel [c]. *)
Lemma copy_plane s m FD CD PX j X0 f c cf :
  regions s m FD CD PX → 0 ≤ j → PX !! Z.to_nat j = Some X0 →
  readable f (height (shdr s)) (width (shdr s)) → 0 ≤ c < 3 →
  0 ≤ height (shdr s) → 0 ≤ width (shdr s) →
  height (shdr s) * width (shdr s) < 2 ^ 64 →
  (∀ m' PX', regions s m' FD CD PX' →
     (ch ← channel_at m' cf c; load_ptr m' ch)
     = Some (base m' + num_frames (shdr s) * 8
             + num_frames (shdr s) * channels (shdr s) * 8
             + j * (height (shdr s) * width (shdr s)))) →
  ∃ m',
    foldM (λ m y,
        foldM (λ m x,
            ch ← channel_at m cf c;
            dat ← load_ptr m ch;
            v ← load (rgb f) (wrap64 (y * linesize f + x * 3 + c));
            mstore m (dat + wrap64 (y * width (shdr s) + x)) v)
          m (seqZ 0 (width (shdr s))))
      m (seqZ 0 (height (shdr s))) = Some m' ∧
    regions s m' FD CD
      (<[Z.to_nat j:=plane f (height (shdr s)) (width (shdr s)) c]> PX).
Proof.
  intros Hrg Hj HX0 (Hls & Hrgb & Hread) Hc HH HW Hfs Hptr.
  set (H := height (shdr s)) in *. set (W := width (shdr s)) in *.
  set (pix := λ p, default 0 (rgb f !! Z.to_nat (p `div` W * linesize f
                                                 + p `mod` W * 3 + c))).
  pose proof (chunked_lookup _ PX _ X0 (rg_PX _ _ _ _ _ Hrg) HX0) as HlenX0.
  fold H W in HlenX0.
  set (slice := λ t, (pix <$> seqZ 0 t) ++ drop (Z.to_nat t) X0).
  assert (Z.to_nat j < length PX)%nat as Hjlt by (by apply lookup_lt_Some in HX0).
  assert (∀ y x mx, 0 ≤ y < H → 0 ≤ x < W →
            regions s mx FD CD (<[Z.to_nat j:=slice (y * W + x)]> PX) →
            ∃ mx',
              (ch ← channel_at mx cf c;
               dat ← load_ptr mx ch;
               v ← load (rgb f) (wrap64 (y * linesize f + x * 3 + c));
               mstore mx (dat + wrap64 (y * W + x)) v) = Some mx' ∧
              regions s mx' FD CD (<[Z.to_nat j:=slice (y * W + x + 1)]> PX))
    as Hpixel.
  { intros y x mx Hy Hx Hrgx.
    assert (0 ≤ y * W + x ∧ y * W + x + 1 ≤ H * W) as Ht by nia.
    specialize (Hptr mx _ Hrgx).
    destruct (channel_at mx cf c) as [ch|]; [|done]. cbn [mbind option_bind] in *.
    rewrite Hptr. cbn [mbind option_bind].
    assert (0 ≤ y * linesize f + x * 3 + c < Z.of_nat (length (rgb f))) as Hidx.
    { split; [nia|]. by apply Hread. }
    destruct (lookup_lt_is_Some_2 (rgb f) (Z.to_nat (y * linesize f + x * 3 + c)))
      as [v Hv]; [lia|].
    rewrite !wrap64_small by lia.
    assert (load (rgb f) (y * linesize f + x * 3 + c) = Some v) as ->.
    { apply load_Some. split; [lia|done]. }
    cbn [mbind option_bind].
    destruct (lookup_lt_is_Some_2 X0 (Z.to_nat (y * W + x))) as [o Ho]; [lia|].
    assert (slice (y * W + x)
            = (pix <$> seqZ 0 (y * W + x)) ++ o :: drop (S (Z.to_nat (y * W + x))) X0)
      as Hsl.
    { unfold slice. f_equal. by apply drop_S. }
    destruct (regions_store_pixel s mx FD CD _ j (pix <$> seqZ 0 (y * W + x)) o
                (drop (S (Z.to_nat (y * W + x))) X0) v Hrgx Hj) as (mx' & Hst & Hrgx').
    { rewrite list_lookup_insert_eq by done. by rewrite Hsl. }
    rewrite length_fmap, length_seqZ in Hst. rewrite Z2Nat.id in Hst by lia.
    fold H W in Hst. rewrite Hst.
    exists mx'. split; [done|].
    rewrite list_insert_insert_eq in Hrgx'.
    replace (slice (y * W + x + 1))
      with ((pix <$> seqZ 0 (y * W + x)) ++ v :: drop (S (Z.to_nat (y * W + x))) X0);
      [done|].
    unfold slice. rewrite seqZ_snoc, fmap_app by lia. rewrite <- app_assoc.
    f_equal. simpl. f_equal; [|f_equal; lia].
    unfold pix. rewrite Z.add_0_l.
    replace ((y * W + x) `div` W) with y.
    2:{ apply (Z.div_unique _ _ _ x); lia. }
    replace ((y * W + x) `mod` W) with x.
    2:{ apply (Z.mod_unique _ _ y); lia. }
    by rewrite Hv. }
  destruct (foldM_invariant
              (λ y my, regions s my FD CD (<[Z.to_nat j:=slice (y * W)]> PX))
              (λ m y,
                 foldM (λ m x,
                     ch ← channel_at m cf c;
                     dat ← load_ptr m ch;
                     v ← load (rgb f) (wrap64 (y * linesize f + x * 3 + c));
                     mstore m (dat + wrap64 (y * W + x)) v)
                   m (seqZ 0 W))
              m H) as (m' & Hrun & Hrg'); [done| | |].
  - unfold slice. simpl. rewrite drop_0. by rewrite list_insert_id.
  - intros y my Hy Hrgy.
    destruct (foldM_invariant
                (λ x mx, regions s mx FD CD (<[Z.to_nat j:=slice (y * W + x)]> PX))
                (λ m x,
                   ch ← channel_at m cf c;
                   dat ← load_ptr m ch;
                   v ← load (rgb f) (wrap64 (y * linesize f + x * 3 + c));
                   mstore m (dat + wrap64 (y * W + x)) v)
                my W) as (my' & Hrow & Hrgy'); [done| | |].
    + by rewrite Z.add_0_r.
    + intros x mx Hx Hrgx.
      destruct (Hpixel y x mx Hy Hx Hrgx) as (mx' & Hst & Hrgx').
      exists mx'. split; [done|]. by rewrite Z.add_assoc.
    + exists my'. split; [done|].
      by replace ((y + 1) * W) with (y * W + W) by lia.
  - exists m'. split; [done|].
    replace (plane f H W c) with (slice (H * W)); [done|].
    unfold slice, plane. rewrite drop_ge by lia. by rewrite app_nil_r.
Qed.

Section streaming.
Context (al : allocator) (cap H W b : Z).
Local Notation "'scap'" := (stream_arena cap H W b).
Local Notation "'fs'" := (H * W).

Lemma store_frame_within_capacity Fs m f :
  0 ≤ H < 256 → 0 ≤ W < 256 → 0 < b →
  b + arena_size (shdr scap) < 2 ^ 64 →
  Z.of_nat (length Fs) < cap →
  stored cap H W b Fs m → readable f H W →
  ∃ m',
    store_frame al (stream_state cap H W b m (Z.of_nat (length Fs))) f
    = Continue (stream_state cap H W b m' (Z.of_nat (length Fs) + 1)) ∧
    stored cap H W b (Fs ++ [f]) m'.
Proof.
  intros HH HW Hb Hfit Hk (FD & CD & PX & Hrg & HFD & HCD & HPX) Hread.
  unfold arena_size in Hfit. cbn [shdr stream_arena num_frames channels height width] in Hfit.
  set (k := Z.of_nat (length Fs)) in *.
  assert (0 ≤ k) as Hk0 by lia.
  assert (0 ≤ fs) as Hfs by nia.
  assert (0 ≤ cap * 3 * fs) by nia.
  assert (0 ≤ k * 3 ∧ k * 3 + 3 ≤ cap * 3) as Hk3 by lia.
  assert (∀ c, 0 ≤ c < 3 → 0 ≤ (k * 3 + c) * fs ∧ (k * 3 + c) * fs + fs ≤ cap * 3 * fs)
    as Hslot by (intros; nia).
  pose proof (rg_frames _ _ _ _ _ Hrg) as Hfr. cbn [frames stream_arena] in Hfr.
  unfold store_frame.
  cbn [svideo stream_state shdr initial_capacity frame_count channels height width
       memory_block channels_block data_block].
  unfold to_long. rewrite (proj2 (Z.ltb_lt cap (2 ^ 63))) by lia.
  rewrite bool_decide_false by lia.
  cbn [svideo stream_state shdr initial_capacity frame_count channels height width
       memory_block channels_block data_block].
  change (frame_at {| shdr := {| num_frames := 0; channels := 3;
                                 height := H; width := W |};
                      frames := b |} k) with (frame_at scap k).
  (* the Frame Descriptor *)
  destruct (regions_store_frame scap m FD CD PX k (frame_desc scap k) Hrg)
    as (m1 & Hst1 & Hb1 & Hrg1).
  { cbn [shdr stream_arena num_frames]. lia. }
  { unfold frame_desc. by rewrite le_bytes_length. }
  assert (store_ptr m (frame_at scap k)
            (b + cap * 8 + wrap64 (k * 3 * 8)) = Some m1) as Hsp1.
  { rewrite wrap64_small by lia. exact Hst1. }
  rewrite Hsp1. cbn [mbind option_bind].
  (* the three channels *)
  set (FD1 := <[Z.to_nat k:=frame_desc scap k]> FD) in *.
  assert (FD1 !! Z.to_nat k = Some (frame_desc scap k)) as HFDk.
  { apply list_lookup_insert_eq. destruct Hrg as [_ _ _ HnFD _ _ _ _].
    cbn [shdr stream_arena num_frames] in HnFD. lia. }
  assert (le_value (frame_desc scap k) = b + cap * 8 + k * 3 * 8) as Hfdv.
  { unfold frame_desc. cbn [frames shdr stream_arena num_frames channels].
    apply le_value_ptr. lia. }
  destruct (foldM_invariant
              (λ c mc, ∃ CDc PXc,
                 regions scap mc FD1 CDc PXc ∧
                 (∀ idx, ¬ (k * 3 ≤ Z.of_nat idx < k * 3 + c) →
                         CDc !! idx = CD !! idx ∧ PXc !! idx = PX !! idx) ∧
                 (∀ c', 0 ≤ c' < c →
                        CDc !! Z.to_nat (k * 3 + c')
                        = Some (channel_desc scap (k * 3 + c')) ∧
                        PXc !! Z.to_nat (k * 3 + c') = Some (plane f H W c')))
              (λ m c,
                 ch ← channel_at m (frame_at scap k) c;
                 m ← store_ptr m ch
                       (b + cap * 8 + cap * 3 * 8 + wrap64 ((k * 3 + c) * fs));
                 foldM (λ m y,
                     foldM (λ m x,
                         ch ← channel_at m (frame_at scap k) c;
                         dat ← load_ptr m ch;
                         v ← load (rgb f) (wrap64 (y * linesize f + x * 3 + c));
                         mstore m (dat + wrap64 (y * W + x)) v)
                       m (seqZ 0 W))
                   m (seqZ 0 H))
              m1 3) as (m' & Hrun & CD' & PX' & Hrg' & Hold & Hnew); [lia| | |].
  - exists CD, PX. split; [done|]. split; [done|]. intros; lia.
  - intros c mc Hc (CDc & PXc & Hrgc & Hold & Hnew).
    assert (channel_at mc (frame_at scap k) c
            = Some (b + cap * 8 + (k * 3 + c) * 8)) as Hch.
    { rewrite (channel_at_regions scap mc FD1 CDc PXc k c _ Hrgc Hk0 HFDk).
      f_equal. lia. }
    rewrite Hch. cbn [mbind option_bind].
    pose proof (rg_frames _ _ _ _ _ Hrgc) as Hfrc. cbn [frames stream_arena] in Hfrc.
    destruct (regions_store_channel scap mc FD1 CDc PXc (k * 3 + c)
                (channel_desc scap (k * 3 + c)) Hrgc) as (mc1 & Hstc & Hbc & Hrgc1).
    { cbn [shdr stream_arena num_frames channels]. lia. }
    { unfold channel_desc. by rewrite le_bytes_length. }
    cbn [shdr stream_arena num_frames channels] in Hstc.
    assert (store_ptr mc (b + cap * 8 + (k * 3 + c) * 8)
              (b + cap * 8 + cap * 3 * 8 + wrap64 ((k * 3 + c) * fs)) = Some mc1)
      as Hspc.
    { rewrite wrap64_small by (specialize (Hslot c Hc); lia).
      rewrite <- Hstc. unfold store_ptr, channel_desc.
      cbn [frames shdr stream_arena num_frames channels height width].
      rewrite Hfrc. done. }
    rewrite Hspc. cbn [mbind option_bind].
    set (CDc1 := <[Z.to_nat (k * 3 + c):=channel_desc scap (k * 3 + c)]> CDc) in *.
    assert (Z.of_nat (length CDc) = cap * 3) as HlenCD.
    { destruct Hrgc as [_ _ _ _ _ Hl _ _].
      by cbn [shdr stream_arena num_frames channels] in Hl. }
    assert (Z.of_nat (length PXc) = cap * 3) as HlenPX.
    { destruct Hrgc as [_ _ _ _ _ _ _ Hl].
      by cbn [shdr stream_arena num_frames channels] in Hl. }
    assert (CDc1 !! Z.to_nat (k * 3 + c) = Some (channel_desc scap (k * 3 + c)))
      as HCDk by (apply list_lookup_insert_eq; lia).
    destruct (lookup_lt_is_Some_2 PXc (Z.to_nat (k * 3 + c))) as [X0 HX0]; [lia|].
    destruct (copy_plane scap mc1 FD1 CDc1 PXc (k * 3 + c) X0 f c
                (frame_at scap k) Hrgc1 ltac:(lia) HX0 Hread Hc
                (proj1 HH) (proj1 HW))
      as (mc2 & Hcopy & Hrgc2).
    { cbn [shdr stream_arena height width]. nia. }
    { intros mx PXx Hrgx.
      rewrite (channel_at_regions scap mx FD1 CDc1 PXx k c _ Hrgx Hk0 HFDk).
      cbn [mbind option_bind]. unfold load_ptr.
      pose proof (rg_frames _ _ _ _ _ Hrgx) as Hfrx. cbn [frames stream_arena] in Hfrx.
      pose proof (regions_load_channel scap mx FD1 CDc1 PXx (k * 3 + c) _ Hrgx
                    ltac:(lia) HCDk) as Hld.
      cbn [shdr stream_arena num_frames channels height width] in Hld |- *.
      replace (le_value (frame_desc scap k) + c * 8)
        with (base mx + cap * 8 + (k * 3 + c) * 8) by (rewrite Hfdv, Hfrx; lia).
      rewrite Hld. cbn [fmap option_fmap option_map]. f_equal.
      unfold channel_desc.
      cbn [frames shdr stream_arena num_frames channels height width].
      rewrite le_value_ptr by (specialize (Hslot c Hc); lia).
      rewrite Hfrx. done. }
    cbn [shdr stream_arena height width] in Hcopy. rewrite Hcopy.
    eexists. split; [done|]. eexists _, _. split; [exact Hrgc2|].
    split.
    + intros idx Hidx. destruct (Hold idx) as [HoC HoP]; [lia|].
      split.
      * unfold CDc1. rewrite list_lookup_insert_ne by lia. done.
      * rewrite list_lookup_insert_ne by lia. done.
    + intros c' Hc'. destruct (decide (c' = c)) as [->|Hne].
      * split; [done|]. apply list_lookup_insert_eq. lia.
      * destruct (Hnew c') as [HnC HnP]; [lia|]. split.
        -- unfold CDc1. rewrite list_lookup_insert_ne by lia. done.
        -- rewrite list_lookup_insert_ne by lia. done.
  - rewrite Hrun. exists m'. split; [done|].
    exists FD1, CD', PX'. split; [done|].
    rewrite length_app. simpl. fold k.
    split; [|split].
    + intros i Hi. destruct (decide (i = k)) as [->|Hne]; [done|].
      unfold FD1. rewrite list_lookup_insert_ne by lia. apply HFD. lia.
    + intros i c Hi Hc. destruct (decide (i = k)) as [->|Hne].
      * by destruct (Hnew c Hc).
      * destruct (Hold (Z.to_nat (i * 3 + c))) as [-> _]; [lia|]. apply HCD; lia.
    + intros i f' c Hf' Hc.
      destruct (decide (Z.of_nat i = k)) as [Heq|Hne].
      * rewrite lookup_app_r in Hf' by lia.
        replace (i - length Fs)%nat with 0%nat in Hf' by lia.
        injection Hf' as <-. rewrite Heq. by destruct (Hnew c Hc).
      * pose proof (lookup_lt_Some _ _ _ Hf') as Hlt.
        rewrite length_app in Hlt. simpl in Hlt.
        rewrite lookup_app_l in Hf' by lia.
        destruct (Hold (Z.to_nat (Z.of_nat i * 3 + c))) as [_ ->]; [lia|].
        by apply HPX.
Qed.

End streaming.

Section within_capacity.
Context (al : allocator) (cap H W b : Z).
Context (HH : 0 ≤ H < 256) (HW : 0 ≤ W < 256) (Hb : 0 < b).
Context (Hfit : b + arena_size (shdr (stream_arena cap H W b)) < 2 ^ 64).

Lemma receive_frames_within_capacity rs : ∀ Fs m,
  ends_well rs →
  Z.of_nat (length Fs) + Z.of_nat (length (decoded_frames rs)) ≤ cap →
  Forall (λ f, readable f H W) (decoded_frames rs) →
  stored cap H W b Fs m →
  ∃ m',
    receive_frames al (stream_state cap H W b m (Z.of_nat (length Fs))) rs
    = Continue (stream_state cap H W b m'
                  (Z.of_nat (length (Fs ++ decoded_frames rs)))) ∧
    stored cap H W b (Fs ++ decoded_frames rs) m'.
Proof.
  induction rs as [|[f| |] rs IH]; intros Fs m Hend Hcap Hread Hst; simpl in *;
    try (exists m; rewrite app_nil_r; by split).
  apply Forall_cons in Hread as [Hf Hread].
  destruct (store_frame_within_capacity al cap H W b Fs m f HH HW Hb Hfit
              ltac:(lia) Hst Hf) as (m1 & -> & Hst1).
  destruct (IH (Fs ++ [f]) m1 Hend) as (m' & Hrun & Hst'); [|done|done|].
  { rewrite length_app. simpl. lia. }
  rewrite length_app, Nat2Z.inj_add in Hrun.
  change (Z.of_nat (length [f])) with 1 in Hrun. rewrite Hrun.
  rewrite <- app_assoc in Hst' |- *. by exists m'.
Qed.

Lemma read_packets_within_capacity ps : ∀ Fs m,
  well_behaved ps →
  Z.of_nat (length Fs) + Z.of_nat (length (delivered ps)) ≤ cap →
  Forall (λ f, readable f H W) (delivered ps) →
  stored cap H W b Fs m →
  ∃ m',
    read_packets al (stream_state cap H W b m (Z.of_nat (length Fs))) ps
    = Continue (stream_state cap H W b m'
                  (Z.of_nat (length (Fs ++ delivered ps)))) ∧
    stored cap H W b (Fs ++ delivered ps) m'.
Proof.
  induction ps as [|p ps IH]; intros Fs m Hwb Hcap Hread Hst.
  { exists m. simpl. rewrite app_nil_r. by split. }
  apply Forall_cons in Hwb as [Hp Hwb].
  unfold delivered in Hcap, Hread |- *. rewrite bind_cons in Hcap, Hread |- *.
  fold (delivered ps) in Hcap, Hread |- *. simpl.
  destruct (video_stream p).
  - destruct (Hp eq_refl) as [-> Hend].
    rewrite length_app, Nat2Z.inj_add in Hcap.
    apply Forall_app in Hread as [Hread1 Hread2].
    destruct (receive_frames_within_capacity (receives p) Fs m Hend ltac:(lia)
                Hread1 Hst) as (m1 & -> & Hst1).
    destruct (IH (Fs ++ decoded_frames (receives p)) m1 Hwb) as (m' & -> & Hst');
      [|done|done|].
    { rewrite length_app. lia. }
    rewrite <- app_assoc in Hst' |- *. by exists m'.
  - simpl in *. by apply IH.
Qed.

(** Reading a stored frame back through the descriptors. *)
Lemma stored_channel_pixels Fs m k (i : nat) f c :
  stored cap H W b Fs m → Fs !! i = Some f → 0 ≤ c < 3 →
  channel_pixels m {| shdr := {| num_frames := k; channels := 3;
                                 height := H; width := W |};
                      frames := b |} (Z.of_nat i) c
  = Some (plane f H W c).
Proof.
  intros (FD & CD & PX & Hrg & HFD & HCD & HPX) Hf Hc.
  pose proof (lookup_lt_Some _ _ _ Hf) as Hi.
  pose proof (regions_length _ _ _ _ _ Hrg) as Hlen.
  pose proof (rg_frames _ _ _ _ _ Hrg) as Hfr. cbn [frames stream_arena] in Hfr.
  unfold arena_size in Hfit, Hlen.
  cbn [shdr stream_arena num_frames channels height width] in Hfit, Hlen.
  assert (Z.of_nat (length FD) = cap) as HnFD by (by destruct Hrg).
  assert (Z.of_nat i < cap).
  { specialize (HFD (Z.of_nat i) ltac:(lia)).
    apply lookup_lt_Some in HFD. lia. }
  assert (0 ≤ H * W) by nia.
  assert (0 ≤ cap * 3 * (H * W)) by nia.
  assert (0 ≤ (Z.of_nat i * 3 + c) * (H * W)
          ∧ (Z.of_nat i * 3 + c) * (H * W) + H * W ≤ cap * 3 * (H * W)) by nia.
  unfold channel_pixels, channel_data.
  cbn [shdr height width].
  change (frame_at {| shdr := {| num_frames := k; channels := 3;
                                 height := H; width := W |};
                      frames := b |} (Z.of_nat i))
    with (frame_at (stream_arena cap H W b) (Z.of_nat i)).
  rewrite (channel_at_regions _ m FD CD PX (Z.of_nat i) c _ Hrg ltac:(lia)
             (HFD (Z.of_nat i) ltac:(lia))).
  cbn [mbind option_bind]. unfold load_ptr.
  pose proof (regions_load_channel _ m FD CD PX (Z.of_nat i * 3 + c) _ Hrg
                ltac:(lia) (HCD (Z.of_nat i) c ltac:(lia) Hc)) as Hld.
  cbn [shdr stream_arena num_frames channels height width] in Hld.
  replace (le_value (frame_desc (stream_arena cap H W b) (Z.of_nat i)) + c * 8)
    with (base m + cap * 8 + (Z.of_nat i * 3 + c) * 8).
  2:{ unfold frame_desc. cbn [frames shdr stream_arena num_frames channels].
      rewrite le_value_ptr by lia. lia. }
  rewrite Hld. cbn [fmap option_fmap option_map mbind option_bind].
  unfold channel_desc. cbn [frames shdr stream_arena num_frames channels height width].
  rewrite le_value_ptr by lia.
  pose proof (regions_load_pixels _ m FD CD PX (Z.of_nat i * 3 + c) _ Hrg
                ltac:(lia) (HPX i f c Hf Hc)) as Hpx.
  cbn [shdr stream_arena num_frames channels height width] in Hpx.
  rewrite <- Hfr in Hpx. exact Hpx.
Qed.

End within_capacity.

(** A fresh arena stores no frame yet. *)
Lemma stored_nil al cap H W m0 :
  0 ≤ cap → 0 ≤ H → 0 ≤ W →
  malloc al (arena_size (shdr (stream_arena cap H W 0))) = Some m0 →
  stored cap H W (base m0) [] m0.
Proof.
  intros Hcap HH HW Hm.
  pose proof (malloc_length _ _ _ Hm) as Hlen.
  unfold arena_size in Hlen.
  cbn [shdr stream_arena num_frames channels height width] in Hlen.
  assert (0 ≤ H * W) by nia. assert (0 ≤ cap * 3 * (H * W)) by nia.
  destruct (split_regions (Z.to_nat cap) (Z.to_nat (cap * 3)) (H * W) (bytes m0))
    as (FD & CD & PX & Hd & HFD & HnFD & HCD & HnCD & HPX & HnPX); [done|lia|].
  exists FD, CD, PX. split.
  - split; cbn [frames shdr stream_arena num_frames channels height width];
      try done; lia.
  - split; [|split]; [intros; simpl in *; lia..|intros; by simpl in *].
Qed.


(** ** The streaming encode: interleaving the planes *)

Lemma mload_in_range m a len X p :
  mload_range m a len = Some X → 0 ≤ p < len →
  mload m (a + p) = X !! Z.to_nat p.
Proof.
  unfold mload_range, load_range, mload, load.
  case_bool_decide as Hr; [|done]. intros [= <-] Hp.
  rewrite bool_decide_true by lia.
  rewrite lookup_take_lt by lia. rewrite lookup_drop. f_equal. lia.
Qed.

(** Reading one pixel the way the pixel loops do. *)
Lemma channel_pixel_read {B} s m i c X p (k : Z → option B) :
  channel_pixels m s i c = Some X → 0 ≤ p < height (shdr s) * width (shdr s) →
  (ch ← channel_at m (frame_at s i) c;
   dat ← load_ptr m ch;
   v ← mload m (dat + p);
   k v)
  = (v ← X !! Z.to_nat p; k v).
Proof.
  unfold channel_pixels, channel_data. intros HX Hp.
  destruct (channel_at m (frame_at s i) c) as [ch|]; [|done]. simpl in *.
  destruct (load_ptr m ch) as [dat|]; [|done]. simpl in *.
  by rewrite (mload_in_range _ _ _ _ _ HX Hp).
Qed.

Lemma interleave_fills s m i ls px data :
  (∀ c, 0 ≤ c < 3 → channel_pixels m s i c = Some (px c)) →
  0 ≤ height (shdr s) → 0 ≤ width (shdr s) →
  3 * width (shdr s) ≤ ls →
  height (shdr s) * ls ≤ Z.of_nat (length data) < 2 ^ 64 →
  ∃ data',
    interleave s m i ls data = Some data' ∧
    interleaved s ls px (length data) (height (shdr s)) 0 0 data'.
Proof.
  intros Hpx HH HW Hls Hlen.
  set (H := height (shdr s)) in *. set (W := width (shdr s)) in *.
  assert (∀ c, 0 ≤ c < 3 → Z.of_nat (length (px c)) = H * W) as Hlpx.
  { intros c Hc. specialize (Hpx c Hc). unfold channel_pixels in Hpx.
    destruct (channel_data m s i c); [|done]. simpl in Hpx.
    by apply load_range_length in Hpx. }
  assert (∀ y x c, 0 ≤ y < H → 0 ≤ x < W → 0 ≤ c < 3 →
            0 ≤ y * W + x < H * W ∧
            0 ≤ y * ls + x * 3 + c < Z.of_nat (length data)) as Hidx.
  { intros y x c Hy Hx Hc.
    assert (0 ≤ y * W ∧ y * W + W ≤ H * W) by nia.
    assert (0 ≤ y * ls ∧ y * ls + ls ≤ H * ls) by nia. lia. }
  assert (H * W ≤ H * ls) as HHW by nia.
  unfold interleave. fold H W.
  apply (foldM_invariant (λ y d, interleaved s ls px (length data) y 0 0 d)); [done| |].
  { split; [done|]. intros; lia. }
  intros y d Hy Hd.
  destruct (foldM_invariant (λ x d, interleaved s ls px (length data) y x 0 d)
              (λ d x,
                 foldM (λ d c,
                     ch ← channel_at m (frame_at s i) c;
                     dat ← load_ptr m ch;
                     v ← mload m (dat + wrap64 (y * W + x));
                     store d (wrap64 (wrap64 (y * ls + x * 3) + c)) v)
                   d (seqZ 0 3)) d W) as (d' & Hrun & Hd'); [done|done| |].
  - intros x dx Hx Hdx.
    destruct (foldM_invariant (λ c d, interleaved s ls px (length data) y x c d)
                (λ d c,
                   ch ← channel_at m (frame_at s i) c;
                   dat ← load_ptr m ch;
                   v ← mload m (dat + wrap64 (y * W + x));
                   store d (wrap64 (wrap64 (y * ls + x * 3) + c)) v)
                dx 3) as (d' & Hrun & Hd'); [done|done| |].
    + intros c dc Hc [Hlc Hdc].
      destruct (Hidx y x c Hy Hx Hc) as [Hp Hq].
      assert (0 ≤ y * ls + x * 3 < Z.of_nat (length data)) as Hq0.
      { destruct (Hidx y x 0 Hy Hx ltac:(lia)). lia. }
      rewrite (wrap64_small (y * W + x)) by lia.
      rewrite (wrap64_small (y * ls + x * 3)) by lia.
      rewrite (wrap64_small (y * ls + x * 3 + c)) by lia.
      rewrite (channel_pixel_read s m i c (px c) (y * W + x) _ (Hpx c Hc) Hp).
      destruct (lookup_lt_is_Some_2 (px c) (Z.to_nat (y * W + x))) as [v Hv].
      { specialize (Hlpx c Hc). lia. }
      rewrite Hv. cbn [mbind option_bind]. unfold store.
      rewrite bool_decide_true by lia. eexists. split; [done|].
      split; [by rewrite length_insert|].
      intros y' x' c' Hy' Hx' Hc' Hbefore.
      destruct (decide (y' = y ∧ x' = x ∧ c' = c)) as [(-> & -> & ->)|Hne].
      * rewrite list_lookup_insert_eq by lia. done.
      * rewrite list_lookup_insert_ne; [apply Hdc; try done; lia|].
        destruct (Hidx y' x' c' Hy' Hx' Hc').
        assert (y' * ls + x' * 3 + c' ≠ y * ls + x * 3 + c); [|lia].
        destruct (decide (y' = y)) as [->|]; [lia|].
        assert (y' + 1 ≤ y) by lia.
        assert ((y' + 1) * ls ≤ y * ls) by (apply Z.mul_le_mono_nonneg_r; lia).
        lia.
    + rewrite Hrun. exists d'. split; [done|].
      destruct Hd' as [Hl Hd']. split; [done|].
      intros y' x' c' Hy' Hx' Hc' Hbefore. apply Hd'; try done. lia.
  - rewrite Hrun. exists d'. split; [done|].
    destruct Hd' as [Hl Hd']. split; [done|].
    intros y' x' c' Hy' Hx' Hc' Hbefore. apply Hd'; try done. lia.
Qed.

(** The planes of an interleaved frame are the channels it was filled
    from. *)
Lemma interleaved_plane s ls px L data c :
  interleaved s ls px L (height (shdr s)) 0 0 data →
  0 ≤ c < 3 → 0 ≤ height (shdr s) → 0 ≤ width (shdr s) →
  Z.of_nat (length (px c)) = height (shdr s) * width (shdr s) →
  plane {| linesize := ls; rgb := data |} (height (shdr s)) (width (shdr s)) c = px c.
Proof.
  intros [_ Hd] Hc HH HW Hlen.
  set (H := height (shdr s)) in *. set (W := width (shdr s)) in *.
  apply list_eq. intros p. unfold plane. rewrite list_lookup_fmap.
  destruct (decide (p < length (px c))%nat) as [Hp|Hp].
  - rewrite lookup_seqZ_lt by lia. cbn [fmap option_fmap option_map linesize rgb].
    assert (0 < W) by nia.
    pose proof (Z.div_mod (Z.of_nat p) W ltac:(lia)) as Hdm.
    pose proof (Z.mod_pos_bound (Z.of_nat p) W ltac:(lia)) as Hm.
    assert (0 ≤ Z.of_nat p `div` W < H) as Hq.
    { split; [apply Z.div_pos; lia|]. apply Z.div_lt_upper_bound; lia. }
    rewrite Z.add_0_l.
    rewrite (Hd (Z.of_nat p `div` W) (Z.of_nat p `mod` W) c Hq Hm Hc ltac:(lia)).
    replace (Z.to_nat (Z.of_nat p `div` W * W + Z.of_nat p `mod` W)) with p by lia.
    destruct (lookup_lt_is_Some_2 (px c) p Hp) as [v ->]. done.
  - rewrite (lookup_ge_None_2 (px c)) by lia.
    rewrite lookup_seqZ_ge by lia. done.
Qed.

Section encode_frames.
Context (snk : sink) (s : SVideo) (m : block).
Context (Hwf : wf_arena s m) (HC : 3 ≤ channels (shdr s)).
Context (Hls : 3 * width (shdr s) ≤ rgb_linesize snk).
Context (Hlen : height (shdr s) * rgb_linesize snk
                ≤ Z.of_nat (length (rgb_data snk)) < 2 ^ 64).

Lemma interleave_holds_frame i data :
  0 ≤ i < num_frames (shdr s) → length data = length (rgb_data snk) →
  ∃ data',
    interleave s m i (rgb_linesize snk) data = Some data' ∧
    length data' = length (rgb_data snk) ∧
    holds_frame snk s m i {| linesize := rgb_linesize snk; rgb := data' |}.
Proof.
  intros Hi Hdata.
  pose proof (wfa_height _ _ Hwf) as HH. pose proof (wfa_width _ _ Hwf) as HW.
  set (px := λ c, default [] (channel_pixels m s i c)).
  assert (∀ c, 0 ≤ c < 3 → channel_pixels m s i c = Some (px c)) as Hpx.
  { intros c Hc.
    destruct (channel_pixels_wf s m i c Hwf Hi ltac:(lia))
      as (j & k & X & _ & _ & _ & _ & _ & HX').
    unfold px. by rewrite HX'. }
  destruct (interleave_fills s m i (rgb_linesize snk) px data Hpx)
    as (data' & Hrun & Hfill); [lia|lia|done|by rewrite Hdata|].
  exists data'. split; [done|].
  pose proof (proj1 Hfill) as Hl. split; [by rewrite Hl|].
  split; [done|]. split; [simpl; by rewrite Hl|].
  intros c Hc. rewrite (Hpx c Hc). f_equal. symmetry.
  apply (interleaved_plane s (rgb_linesize snk) px (length data) data' c Hfill Hc);
    [lia|lia|].
  specialize (Hpx c Hc). unfold channel_pixels in Hpx.
  destruct (channel_data m s i c); [|done]. simpl in Hpx.
  by apply load_range_length in Hpx.
Qed.

Lemma encode_frames_hold (j : nat) : ∀ k data done,
  0 ≤ k → k + Z.of_nat j = num_frames (shdr s) →
  length data = length (rgb_data snk) → Z.of_nat (length done) = k →
  (∀ (i : nat) f, done !! i = Some f → holds_frame snk s m (Z.of_nat i) f) →
  ∃ r,
    encode_frames snk s m data done (seqZ k (Z.of_nat j)) = Some r ∧
    Z.of_nat (length (scaled r)) ≤ num_frames (shdr s) ∧
    (enc_stderr r = [] →
     ret r = 0 ∧ Z.of_nat (length (scaled r)) = num_frames (shdr s)) ∧
    ∀ (i : nat) f, scaled r !! i = Some f → holds_frame snk s m (Z.of_nat i) f.
Proof.
  induction j as [|j IH]; intros k data done Hk Hn Hdata Hdone Hall.
  { simpl. eexists. split; [done|]. simpl. split; [lia|]. split; [|done].
    intros _. split; [done|lia]. }
  rewrite Nat2Z.inj_succ, seqZ_cons by lia. simpl.
  destruct (interleave_holds_frame k data) as (data' & -> & Hdata' & Hf); [lia|done|].
  set (done' := done ++ [{| linesize := rgb_linesize snk; rgb := data' |}]).
  assert (Z.of_nat (length done') = k + 1) as Hdone'.
  { unfold done'. rewrite length_app. simpl. lia. }
  assert (∀ (i : nat) f, done' !! i = Some f → holds_frame snk s m (Z.of_nat i) f)
    as Hall'.
  { intros i f Hi. unfold done' in Hi.
    destruct (decide (i < length done)%nat) as [Hlt|Hge].
    - rewrite lookup_app_l in Hi by done. by apply Hall.
    - pose proof (lookup_lt_Some _ _ _ Hi) as Hlt.
      rewrite length_app in Hlt. simpl in Hlt.
      rewrite lookup_app_r in Hi by lia.
      replace (i - length done)%nat with 0%nat in Hi by lia.
      injection Hi as <-. replace (Z.of_nat i) with k by lia. done. }
  case_bool_decide as Hsend.
  { eexists. split; [done|]. simpl. fold done'. split; [lia|]. split; [done|done]. }
  destruct (write_packets (receive_packets (answers snk k))) as [[r msg]|] eqn:Hw.
  { eexists. split; [done|]. simpl. fold done'. split; [lia|]. split; [done|done]. }
  replace (Z.pred (Z.succ (Z.of_nat j))) with (Z.of_nat j) by lia.
  apply (IH (Z.succ k) data' done'); [lia|lia|done|lia|done].
Qed.

End encode_frames.

(** X18: on a well-formed arena of at least three channels, with an RGB
    buffer whose lines hold [width] pixels and which holds [height] lines,
    [encode_standard_video] stays inside the arena and the buffer
    whatever the encoder answers; frame [i] is handed to the scaler with
    channels 0, 1 and 2 of frame [i] of the store as its three planes;
    and when nothing is printed all frames were handed over and 0 is
    returned. *)
Theorem encode_standard_video_interleaves snk s m :
  wf_arena s m → 3 ≤ channels (shdr s) →
  3 * width (shdr s) ≤ rgb_linesize snk →
  height (shdr s) * rgb_linesize snk ≤ Z.of_nat (length (rgb_data snk)) < 2 ^ 64 →
  ∃ r,
    encode_standard_video snk (Some s) m = Some r ∧
    Z.of_nat (length (scaled r)) ≤ num_frames (shdr s) ∧
    (enc_stderr r = [] →
     ret r = 0 ∧ Z.of_nat (length (scaled r)) = num_frames (shdr s)) ∧
    ∀ (i : nat) f, scaled r !! i = Some f → holds_frame snk s m (Z.of_nat i) f.
Proof.
  intros Hwf HC Hls Hlen.
  pose proof (wfa_num_frames _ _ Hwf) as Hn.
  unfold encode_standard_video.
  destruct (names_given snk); cbn [negb].
  2:{ eexists. split; [done|]. simpl. split; [lia|]. split; [done|done]. }
  destruct (sink_error snk) as [msg|].
  { eexists. split; [done|]. simpl. split; [lia|]. split; [done|done]. }
  replace (seqZ 0 (num_frames (shdr s)))
    with (seqZ 0 (Z.of_nat (Z.to_nat (num_frames (shdr s)))))
    by (by rewrite Z2Nat.id by lia).
  apply (encode_frames_hold snk s m Hwf HC Hls Hlen
           (Z.to_nat (num_frames (shdr s))) 0 (rgb_data snk) []);
    [lia|lia|done|done|done].
Qed.

(** ** The properties on concrete stores *)

Lemma two_channels_wf : wf_video two_channels [10; 200].
Proof. split; simpl; first [reflexivity | lia]. Qed.

Lemma two_channels_arena_wf : wf_arena two_channels_S two_channels_arena.
Proof.
  split; simpl; try first [reflexivity | lia].
  - intros i Hi. assert (i = 0) as -> by lia.
    exists 0. split; [lia|]. vm_compute. reflexivity.
  - intros j Hj. assert (j = 0 ∨ j = 1) as [->| ->] by lia.
    + exists 0. split; [lia|]. vm_compute. reflexivity.
    + exists 1. split; [lia|]. vm_compute. reflexivity.
Qed.

Lemma two_channels_no_alias : no_alias two_channels_S two_channels_arena.
Proof.
  intros i c i' c' Hi Hc Hi' Hc'. simpl in Hi, Hc, Hi', Hc'.
  assert (i = 0) as -> by lia. assert (i' = 0) as -> by lia.
  assert (c = 0 ∨ c = 1) as [->| ->] by lia;
    assert (c' = 0 ∨ c' = 1) as [->| ->] by lia;
    vm_compute; intros; first [done | discriminate].
Qed.

Lemma two_channels_arena_bytes : Forall (λ x, 0 ≤ x < 256) (bytes two_channels_arena).
Proof. apply (bool_decide_unpack _). vm_compute. exact I. Qed.

Lemma three_frames_no_alias : no_alias three_frames_S three_frames_arena.
Proof.
  intros i c i' c' Hi Hc Hi' Hc'. simpl in Hi, Hc, Hi', Hc'.
  assert (c = 0) as -> by lia. assert (c' = 0) as -> by lia.
  assert (i = 0 ∨ i = 1 ∨ i = 2) as [->|[->| ->]] by lia;
    assert (i' = 0 ∨ i' = 1 ∨ i' = 2) as [->|[->| ->]] by lia;
    vm_compute; intros; first [done | discriminate].
Qed.

Lemma padded_frame_readable r0 g0 b0 r1 g1 b1 :
  readable (padded_frame r0 g0 b0 r1 g1 b1) 1 2.
Proof.
  split; [simpl; lia|]. split; [simpl; lia|].
  intros y x c Hy Hx Hc. simpl. lia.
Qed.

Lemma clip_channel_rewrites_one_channel_witness :
  ∃ v', clip_channel (Some two_channels) 0 50 100 = Ok v' ∧
        channel_of v' 0 0 = Some [50] ∧ channel_of v' 0 1 = Some [200].
Proof.
  destruct (clip_channel_rewrites_one_channel two_channels [10; 200] 0 50 100)
    as (v' & d' & Hrun & _ & _ & Hch).
  - exact two_channels_wf.
  - simpl. lia.
  - exists v'. split; [exact Hrun|]. split.
    + rewrite (Hch 0 0) by (simpl; lia). reflexivity.
    + rewrite (Hch 0 1) by (simpl; lia). reflexivity.
Defined.

Lemma scale_channel_integer_factor_witness :
  ∃ v', scale_channel IsoC (Some two_channels) 1 (f32_of_int 2) = Ok v' ∧
        channel_of v' 0 0 = Some [10] ∧ channel_of v' 0 1 = Some [255].
Proof.
  destruct (scale_channel_integer_factor IsoC two_channels [10; 200] 1 2)
    as (v' & d' & Hrun & _ & _ & Hch).
  - exact two_channels_wf.
  - repeat constructor; lia.
  - simpl. lia.
  - lia.
  - exists v'. split; [exact Hrun|]. split.
    + rewrite (Hch 0 0) by (simpl; lia). reflexivity.
    + rewrite (Hch 0 1) by (simpl; lia). reflexivity.
Defined.

Lemma swap_channels_exchanges_witness :
  ∃ v', swap_channels (Some two_channels) 0 1 = Ok v' ∧
        channel_of v' 0 0 = Some [200] ∧ channel_of v' 0 1 = Some [10] ∧
        swap_channels (Some v') 0 1 = Ok two_channels.
Proof.
  destruct (swap_channels_exchanges two_channels [10; 200] 0 1)
    as (v' & d' & Hrun & _ & _ & Hch & Hback).
  - exact two_channels_wf.
  - simpl. lia.
  - simpl. lia.
  - exists v'. split; [exact Hrun|]. split; [|split; [|exact Hback]].
    + rewrite (Hch 0 0) by (simpl; lia). reflexivity.
    + rewrite (Hch 0 1) by (simpl; lia). reflexivity.
Defined.

Lemma reverse_twice_witness :
  (∃ v', reverse moving_allocator (Some three_frames) = Ok v' ∧
         reverse moving_allocator (Some v') = Ok three_frames) ∧
  (∃ m', reverse_S (Some three_frames_S) three_frames_arena = Ok m' ∧
         reverse_S (Some three_frames_S) m' = Ok three_frames_arena).
Proof.
  apply (reverse_twice moving_allocator three_frames [10; 20; 30]
           three_frames_S three_frames_arena).
  - exact three_frames_wf.
  - eexists. vm_compute. reflexivity.
  - exact three_frames_arena_wf.
Defined.

Lemma clip_channel_S_keeps_the_rest_witness :
  ∃ m', clip_channel_S (Some two_channels_S) two_channels_arena 0 50 100 = Ok m' ∧
        wf_arena two_channels_S m' ∧
        channel_pixels m' two_channels_S 0 1 = Some [200].
Proof.
  destruct (clip_channel_S_keeps_the_rest two_channels_S two_channels_arena 0 50 100)
    as (m' & Hrun & Hwf & _ & _ & Hpx).
  - exact two_channels_arena_wf.
  - exact two_channels_no_alias.
  - simpl. lia.
  - exists m'. split; [exact Hrun|]. split; [exact Hwf|].
    rewrite (Hpx 0 1) by (simpl; lia). reflexivity.
Defined.

Lemma clip_channel_S_wasm_is_clip_channel_S_witness :
  clip_channel_S_wasm (Some two_channels_S) two_channels_arena 0 50 100
  = exit_code two_channels_arena
      (clip_channel_S (Some two_channels_S) two_channels_arena 0 50 100).
Proof.
  apply (clip_channel_S_wasm_is_clip_channel_S two_channels_S two_channels_arena
           0 50 100).
  - exact two_channels_arena_wf.
  - lia.
  - lia.
Defined.

Lemma scale_channel_S_integer_factor_witness :
  ∃ m', scale_channel_S IsoC (Some two_channels_S) two_channels_arena 1 (f32_of_int 2)
        = Ok m' ∧
        channel_pixels m' two_channels_S 0 0 = Some [10] ∧
        channel_pixels m' two_channels_S 0 1 = Some [255].
Proof.
  destruct (scale_channel_S_integer_factor IsoC two_channels_S two_channels_arena 1 2)
    as (m' & Hrun & _ & _ & Hpx).
  - exact two_channels_arena_wf.
  - exact two_channels_no_alias.
  - exact two_channels_arena_bytes.
  - simpl. lia.
  - lia.
  - exists m'. split; [exact Hrun|]. split.
    + rewrite (Hpx 0 0) by (simpl; lia). reflexivity.
    + rewrite (Hpx 0 1) by (simpl; lia). reflexivity.
Defined.

Lemma scale_channel_S_wasm_without_overflow_witness :
  scale_channel_S_wasm IsoC (Some two_channels_S) two_channels_arena 0 (f32_of_int 2)
  = exit_code two_channels_arena
      (scale_channel_S IsoC (Some two_channels_S) two_channels_arena 0 (f32_of_int 2)).
Proof.
  apply (scale_channel_S_wasm_without_overflow IsoC two_channels_S two_channels_arena
           0 2).
  - exact two_channels_arena_wf.
  - exact two_channels_no_alias.
  - simpl. lia.
  - lia.
  - intros i X x Hi HX Hx. simpl in Hi. assert (i = 0) as -> by lia.
    vm_compute in HX. injection HX as <-.
    apply list_elem_of_singleton in Hx as ->. lia.
Defined.

Lemma swap_channels_S_exchanges_witness :
  ∃ m', swap_channels_S (Some two_channels_S) two_channels_arena 0 1 = Ok m' ∧
        wf_arena two_channels_S m' ∧
        channel_pixels m' two_channels_S 0 0 = Some [200] ∧
        channel_pixels m' two_channels_S 0 1 = Some [10].
Proof.
  destruct (swap_channels_S_exchanges two_channels_S two_channels_arena 0 1)
    as (m' & Hrun & Hwf & _ & _ & Hch).
  - exact two_channels_arena_wf.
  - exact two_channels_no_alias.
  - simpl. lia.
  - simpl. lia.
  - exists m'. split; [exact Hrun|]. split; [exact Hwf|]. split.
    + rewrite (proj2 (Hch 0 0 ltac:(simpl; lia) ltac:(simpl; lia))). reflexivity.
    + rewrite (proj2 (Hch 0 1 ltac:(simpl; lia) ltac:(simpl; lia))). reflexivity.
Defined.

Lemma reverse_S_keeps_arena_witness :
  ∃ m', reverse_S (Some three_frames_S) three_frames_arena = Ok m' ∧
        wf_arena three_frames_S m' ∧ no_alias three_frames_S m' ∧
        channel_data m' three_frames_S 0 0
        = channel_data three_frames_arena three_frames_S 2 0.
Proof.
  destruct (reverse_S_keeps_arena three_frames_S three_frames_arena)
    as (m' & Hrun & Hwf & Hna & Hch).
  - exact three_frames_arena_wf.
  - exists m'. split; [exact Hrun|]. split; [exact Hwf|]. split.
    + exact (Hna three_frames_no_alias).
    + exact (Hch 0 0 ltac:(simpl; lia) ltac:(simpl; lia)).
Defined.


Lemma decode_S_lays_out_channels_witness :
  ∃ s m,
    decode_S moving_allocator
      (Some (write_header (hdr two_channels) ++ concat [[10]; [200]] ++ [7]))
    = Ok (s, m) ∧
    wf_arena s m ∧ no_alias s m ∧
    channel_pixels m s 0 0 = Some [10] ∧ channel_pixels m s 0 1 = Some [200].
Proof.
  destruct (decode_S_lays_out_channels moving_allocator (hdr two_channels)
              [[10]; [200]] [7] {| base := 4096; bytes := replicate 26 170 |})
    as (s & m & Hrun & _ & Hwf & Hna & Hch).
  - simpl. lia.
  - simpl. lia.
  - simpl. lia.
  - simpl. lia.
  - repeat constructor.
  - reflexivity.
  - eexists. vm_compute. reflexivity.
  - vm_compute. reflexivity.
  - exists s, m. split; [exact Hrun|]. split; [exact Hwf|]. split; [exact Hna|].
    split.
    + exact (proj2 (Hch 0 0 ltac:(simpl; lia) ltac:(simpl; lia))).
    + exact (proj2 (Hch 0 1 ltac:(simpl; lia) ltac:(simpl; lia))).
Defined.




Lemma rgb_arena_wf : wf_arena rgb_S rgb_arena.
Proof.
  split; simpl; try first [reflexivity | lia].
  - intros i Hi. assert (i = 0) as -> by lia.
    exists 0. split; [lia|]. vm_compute. reflexivity.
  - intros j Hj. assert (j = 0 ∨ j = 1 ∨ j = 2) as [->|[->| ->]] by lia.
    + exists 0. split; [lia|]. vm_compute. reflexivity.
    + exists 1. split; [lia|]. vm_compute. reflexivity.
    + exists 2. split; [lia|]. vm_compute. reflexivity.
Qed.

Lemma encode_standard_video_interleaves_witness :
  ∃ r,
    encode_standard_video quiet_sink (Some rgb_S) rgb_arena = Some r ∧
    ret r = 0 ∧ scaled r = [padded_frame 1 2 3 4 5 6] ∧
    ∀ (i : nat) f, scaled r !! i = Some f →
                   holds_frame quiet_sink rgb_S rgb_arena (Z.of_nat i) f.
Proof.
  destruct (encode_standard_video_interleaves quiet_sink rgb_S rgb_arena)
    as (r & Hrun & _ & _ & Hall).
  - exact rgb_arena_wf.
  - simpl. lia.
  - simpl. lia.
  - simpl. lia.
  - exists r. split; [exact Hrun|].
    vm_compute in Hrun. injection Hrun as <-. split; [reflexivity|].
    split; [reflexivity|]. exact Hall.
Defined.
